(** * Card price scraper (app.py): shallow embedding and verified properties

    The development follows [app.py] function by function.  Python values
    are modelled as the interpreter has them:

    - a [str] is a sequence of Unicode code points ([list N]); string
      literals of the source are written [lit "..."] and decoded from the
      UTF-8 bytes of the Rocq literal;
    - a [dict] is an association list with unique keys kept in insertion
      order (the iteration order of CPython's dict);
    - an exception is a value of [exn]; a call that can raise returns an
      [outcome];
    - the standard-library and third-party functions the program calls
      ([urllib.parse], [re], [bs4]) are modelled from their CPython / bs4
      sources; the few tables that cannot be transcribed (Unicode case
      folding, non-ASCII decimal digits, NFKC and IPv6 validation of a host,
      the HTML tokenizer, [urljoin]) are fields of the class [Libs]. *)

From Stdlib Require Import List NArith ZArith Bool Lia.
From Stdlib Require String Ascii.
Import ListNotations.
Import String.StringSyntax.

Set Implicit Arguments.
Open Scope string_scope.
Open Scope N_scope.

(* ===================================================================== *)
(** * Python strings *)
(* ===================================================================== *)

Module Py.

(** A Python [str]: its code points. *)
Definition str := list N.

Fixpoint str_eqb (a b : str) : bool :=
  match a, b with
  | [], [] => true
  | x :: a', y :: b' => (x =? y) && str_eqb a' b'
  | _, _ => false
  end.

(** Membership of a string in a list of strings ([x in l]). *)
Definition str_in (x : str) (l : list str) : bool := existsb (str_eqb x) l.

(** [mem c s]: [c in s] for a one-character [c]. *)
Fixpoint mem (c : N) (s : str) : bool :=
  match s with
  | [] => false
  | x :: t => (x =? c) || mem c t
  end.

(** [s.startswith(p)]. *)
Fixpoint startswith (p s : str) : bool :=
  match p, s with
  | [], _ => true
  | _ :: _, [] => false
  | x :: p', y :: s' => (x =? y) && startswith p' s'
  end.

(** [p in s] for strings: [p] occurs as a contiguous slice of [s]. *)
Fixpoint contains (p s : str) : bool :=
  startswith p s ||
  match s with
  | [] => false
  | _ :: t => contains p t
  end.

(** [sep.join(l)]. *)
Fixpoint join (sep : str) (l : list str) : str :=
  match l with
  | [] => []
  | [x] => x
  | x :: t => x ++ sep ++ join sep t
  end.

(** [str.isspace] for one code point: the characters CPython's
    [Py_UNICODE_ISSPACE] accepts (bidirectional type WS, B or S, or
    category Zs).  [str.strip()] and the regular expression class [\s]
    both use it. *)
Definition isspace (c : N) : bool :=
  ((9 <=? c) && (c <=? 13)) || ((28 <=? c) && (c <=? 32)) ||
  (c =? 133) || (c =? 160) || (c =? 5760) ||
  ((8192 <=? c) && (c <=? 8202)) || (c =? 8232) || (c =? 8233) ||
  (c =? 8239) || (c =? 8287) || (c =? 12288).

Fixpoint lstrip (s : str) : str :=
  match s with
  | [] => []
  | c :: t => if isspace c then lstrip t else s
  end.

Definition rstrip (s : str) : str := rev (lstrip (rev s)).

(** [s.strip()]. *)
Definition strip (s : str) : str := rstrip (lstrip s).

(** Truthiness of a [str]: [bool(s)]. *)
Definition truthy (s : str) : bool :=
  match s with [] => false | _ :: _ => true end.

(** ASCII letters and digits, as [str.isalpha]/[isascii] and the constant
    tables of [urllib.parse] need them. *)
Definition is_upper (c : N) : bool := (65 <=? c) && (c <=? 90).
Definition is_lower (c : N) : bool := (97 <=? c) && (c <=? 122).
Definition is_ascii_alpha (c : N) : bool := is_upper c || is_lower c.
Definition is_ascii_digit (c : N) : bool := (48 <=? c) && (c <=? 57).

(** [s.lower()] on a string of ASCII characters. *)
Definition ascii_lower_char (c : N) : N := if is_upper c then c + 32 else c.
Definition ascii_lower (s : str) : str := map ascii_lower_char s.

End Py.

(* ===================================================================== *)
(** * UTF-8 ([str.encode] and [bytes.decode(errors="replace")]) *)
(* ===================================================================== *)

Module Utf8.
Import Py.

(** Bytes are numbers below 256. *)
Definition bytes := list N.

(** [chr(c).encode("utf-8")]; [None] is [UnicodeEncodeError] (a lone
    surrogate). *)
Definition encode_cp (c : N) : option bytes :=
  if c <? 128 then Some [c]
  else if c <? 2048 then Some [192 + c / 64; 128 + c mod 64]
  else if c <? 65536 then
    if (55296 <=? c) && (c <=? 57343) then None
    else Some [224 + c / 4096; 128 + (c / 64) mod 64; 128 + c mod 64]
  else if c <? 1114112 then
    Some [240 + c / 262144; 128 + (c / 4096) mod 64;
          128 + (c / 64) mod 64; 128 + c mod 64]
  else None.

Fixpoint encode (s : str) : option bytes :=
  match s with
  | [] => Some []
  | c :: t =>
    match encode_cp c, encode t with
    | Some b, Some bt => Some (b ++ bt)
    | _, _ => None
    end
  end.

Definition is_cont (b : N) : bool := (128 <=? b) && (b <=? 191).

(** Range of the second byte after lead byte [b0] (rejects overlong forms,
    surrogates and code points above U+10FFFF). *)
Definition second_ok (b0 b1 : N) : bool :=
  if b0 =? 224 then (160 <=? b1) && (b1 <=? 191)
  else if b0 =? 237 then (128 <=? b1) && (b1 <=? 159)
  else if b0 =? 240 then (144 <=? b1) && (b1 <=? 191)
  else if b0 =? 244 then (128 <=? b1) && (b1 <=? 143)
  else is_cont b1.

(** U+FFFD, the replacement character. *)
Definition REPLACEMENT : N := 65533.

(** [bs.decode("utf-8", "replace")]: CPython replaces each invalid start
    byte, and each maximal valid prefix of an ill-formed sequence, by one
    U+FFFD and resumes at the offending byte; a truncated final sequence
    gives a single U+FFFD. *)
Fixpoint decode (bs : bytes) : str :=
  match bs with
  | [] => []
  | b0 :: r0 =>
    if b0 <? 128 then b0 :: decode r0
    else if (194 <=? b0) && (b0 <=? 223) then
      match r0 with
      | [] => [REPLACEMENT]
      | b1 :: r1 =>
        if is_cont b1 then ((b0 - 192) * 64 + (b1 - 128)) :: decode r1
        else REPLACEMENT :: decode r0
      end
    else if (224 <=? b0) && (b0 <=? 239) then
      match r0 with
      | [] => [REPLACEMENT]
      | b1 :: r1 =>
        if second_ok b0 b1 then
          match r1 with
          | [] => [REPLACEMENT]
          | b2 :: r2 =>
            if is_cont b2
            then ((b0 - 224) * 4096 + (b1 - 128) * 64 + (b2 - 128)) :: decode r2
            else REPLACEMENT :: decode r1
          end
        else REPLACEMENT :: decode r0
      end
    else if (240 <=? b0) && (b0 <=? 244) then
      match r0 with
      | [] => [REPLACEMENT]
      | b1 :: r1 =>
        if second_ok b0 b1 then
          match r1 with
          | [] => [REPLACEMENT]
          | b2 :: r2 =>
            if is_cont b2 then
              match r2 with
              | [] => [REPLACEMENT]
              | b3 :: r3 =>
                if is_cont b3
                then ((b0 - 240) * 262144 + (b1 - 128) * 4096
                      + (b2 - 128) * 64 + (b3 - 128)) :: decode r3
                else REPLACEMENT :: decode r2
              end
            else REPLACEMENT :: decode r1
          end
        else REPLACEMENT :: decode r0
      end
    else REPLACEMENT :: decode r0
  end.

End Utf8.

Module Lit.
Import Py.

(** The bytes of a Rocq string literal. *)
Fixpoint bytes_of_string (s : String.string) : Utf8.bytes :=
  match s with
  | String.EmptyString => []
  | String.String a t => Ascii.N_of_ascii a :: bytes_of_string t
  end.

(** A source literal: the code points of the UTF-8 text between the
    quotes. *)
Definition lit (s : String.string) : str := Utf8.decode (bytes_of_string s).

End Lit.
Export Lit.

(* ===================================================================== *)
(** * Exceptions and dictionaries *)
(* ===================================================================== *)

Module Exc.
Import Py.

(** The exceptions the program and its libraries raise. *)
Inductive exn : Type :=
| ValueError (msg : str)
| UnicodeEncodeError
| TypeError (msg : str)
| AttributeError (msg : str)
| RuntimeError (msg : str)
| HTTPError (msg : str)
| RequestException (msg : str)
| IndexError (msg : str)
| SystemExit (msg : str).

(** [isinstance(e, Exception)]: [SystemExit] derives from [BaseException]
    only, every other class above from [Exception]. *)
Definition is_Exception (e : exn) : bool :=
  match e with
  | SystemExit _ => false
  | _ => true
  end.

(** The result of a call: a value or a raised exception. *)
Inductive outcome (A : Type) : Type :=
| Ok (a : A)
| Raise (e : exn).
Arguments Ok {A} a.
Arguments Raise {A} e.

Definition bind {A B} (x : outcome A) (f : A -> outcome B) : outcome B :=
  match x with
  | Ok a => f a
  | Raise e => Raise e
  end.

End Exc.
Export Exc.

Declare Scope exc_scope.
Delimit Scope exc_scope with exc.
Notation "'let?' x ':=' e 'in' k" := (bind e (fun x => k))
  (at level 10, x pattern, e at level 100, k at level 200) : exc_scope.

Module Dict.
Import Py.

(** A [dict] keyed by [str]: unique keys, in insertion order. *)
Definition dict (V : Type) := list (str * V).

Fixpoint get {V} (k : str) (d : dict V) : option V :=
  match d with
  | [] => None
  | (k', v) :: t => if str_eqb k' k then Some v else get k t
  end.

(** [d[k] = v]: an existing key keeps its place, a new key goes last. *)
Fixpoint set {V} (k : str) (v : V) (d : dict V) : dict V :=
  match d with
  | [] => [(k, v)]
  | (k', v') :: t => if str_eqb k' k then (k', v) :: t else (k', v') :: set k v t
  end.

Definition keys {V} (d : dict V) : list str := map fst d.

(** [dict(pairs)]: the dictionary a literal or a constructor call builds,
    a later binding of a key replacing the earlier one. *)
Definition of_list {V} (l : list (str * V)) : dict V :=
  fold_left (fun d kv => set (fst kv) (snd kv) d) l [].

End Dict.

(* ===================================================================== *)
(** * urllib.parse (CPython 3.11) *)
(* ===================================================================== *)

(** The two host checks of [urlsplit] that depend on Unicode and IP address
    tables: [True] means the check passes, [False] that it raises
    [ValueError]. *)
Class HostChecks : Type := {
  (** [_checknetloc] on a host with a non-ASCII character: NFKC
      normalisation must not produce one of [/?#@:]. *)
  checknetloc_nfkc : Py.str -> bool
}.

Module UrlLib.
Import Py Dict.

(** ** Percent-encoding *)

(** [_ALWAYS_SAFE]: letters, digits and [_.-~]. *)
Definition always_safe (b : N) : bool :=
  is_ascii_alpha b || is_ascii_digit b ||
  (b =? 95) || (b =? 46) || (b =? 45) || (b =? 126).

Definition hexdigit (n : N) : N := if n <? 10 then 48 + n else 55 + n.

(** One byte under [quote_plus]: kept, [' '] to ['+'], or [%XX]. *)
Definition quote_byte (b : N) : str :=
  if always_safe b then [b]
  else if b =? 32 then [43]
  else [37; hexdigit (b / 16); hexdigit (b mod 16)].

(** [quote_plus(s)] with the defaults ([safe=''], UTF-8, strict). *)
Definition quote_plus (s : str) : outcome str :=
  match Utf8.encode s with
  | Some bs => Ok (flat_map quote_byte bs)
  | None => Raise UnicodeEncodeError
  end.

(** Value of a hexadecimal digit ([_hexdig] has both cases). *)
Definition hexval (c : N) : option N :=
  if is_ascii_digit c then Some (c - 48)
  else if (65 <=? c) && (c <=? 70) then Some (c - 55)
  else if (97 <=? c) && (c <=? 102) then Some (c - 87)
  else None.

(** [_unquote_impl]: [%XX] to the byte, any other ['%'] kept. *)
Fixpoint unquote_to_bytes (s : str) : Utf8.bytes :=
  match s with
  | [] => []
  | c :: t =>
    if c =? 37 then
      match t with
      | h :: l :: rest =>
        match hexval h, hexval l with
        | Some a, Some b => (16 * a + b) :: unquote_to_bytes rest
        | _, _ => c :: unquote_to_bytes t
        end
      | _ => c :: unquote_to_bytes t
      end
    else c :: unquote_to_bytes t
  end.

(** [unquote(s)] ([errors='replace']): each maximal run of ASCII
    characters is unquoted to bytes and decoded; other characters are
    kept.  [run] is the ASCII run read so far. *)
Fixpoint unquote_from (run : str) (s : str) : str :=
  match s with
  | [] => Utf8.decode (unquote_to_bytes run)
  | c :: t =>
    if c <? 128 then unquote_from (run ++ [c]) t
    else Utf8.decode (unquote_to_bytes run) ++ c :: unquote_from [] t
  end.

Definition unquote (s : str) : str := unquote_from [] s.

(** [s.replace('+', ' ')]. *)
Definition plus_to_space (s : str) : str :=
  map (fun c => if c =? 43 then 32 else c) s.

(** ** Splitting *)

(** [s.split(sep)] for a one-character separator. *)
Fixpoint split (sep : N) (s : str) : list str :=
  match s with
  | [] => [[]]
  | c :: t =>
    if c =? sep then [] :: split sep t
    else match split sep t with
         | h :: r => (c :: h) :: r
         | [] => [[c]]
         end
  end.

(** [s.split(sep, 1)] when [sep] occurs in [s]: the text before and after
    its first occurrence; [None] when it does not occur. *)
Fixpoint split_once (sep : N) (s : str) : option (str * str) :=
  match s with
  | [] => None
  | c :: t =>
    if c =? sep then Some ([], t)
    else match split_once sep t with
         | Some (a, b) => Some (c :: a, b)
         | None => None
         end
  end.

(** ** Query strings *)

(** [parse_qsl(qs, keep_blank_values)] with separator ['&'], non-strict. *)
Definition parse_qsl (qs : str) (keep_blank_values : bool) : list (str * str) :=
  flat_map (fun name_value =>
    if negb (truthy name_value) then []
    else
      let nv := match split_once 61 name_value with
                | Some (n, v) => Some (n, v)
                | None => if keep_blank_values then Some (name_value, []) else None
                end in
      match nv with
      | None => []
      | Some (n, v) =>
        if truthy v || keep_blank_values
        then [(unquote (plus_to_space n), unquote (plus_to_space v))]
        else []
      end)
    (split 38 qs).

(** The loop of [parse_qs]: append to the list of a known name, or start
    one. *)
Definition parse_qs_add (d : dict (list str)) (nv : str * str) : dict (list str) :=
  match get (fst nv) d with
  | Some vs => set (fst nv) (vs ++ [snd nv]) d
  | None => set (fst nv) [snd nv] d
  end.

(** [parse_qs(qs)]: blank values are dropped ([keep_blank_values=False]). *)
Definition parse_qs (qs : str) : dict (list str) :=
  fold_left parse_qs_add (parse_qsl qs false) [].

(** All results or the first exception, left to right. *)
Fixpoint sequence {A} (l : list (outcome A)) : outcome (list A) :=
  match l with
  | [] => Ok []
  | x :: t =>
    (let? a := x in
     let? r := sequence t in
     Ok (a :: r))%exc
  end.

(** The pairs [k=elt] of one dictionary entry under [doseq=True]. *)
Definition urlencode_entry (kv : str * list str) : outcome (list str) :=
  (let? k := quote_plus (fst kv) in
   sequence (map (fun elt =>
     let? e := quote_plus elt in Ok (k ++ [61] ++ e)) (snd kv)))%exc.

(** [urlencode(query, doseq=True)] for a dictionary of lists. *)
Definition urlencode (query : dict (list str)) : outcome str :=
  (let? l := sequence (map urlencode_entry query) in
   Ok (join [38] (concat l)))%exc.

(** ** URL splitting *)

(** The six components [urlparse] returns, in tuple order. *)
Record ParseResult : Type := mkParseResult {
  scheme : str;
  netloc : str;
  path : str;
  params : str;
  query : str;
  fragment : str
}.

(** [parts[4] = q] on the list made from a [ParseResult]. *)
Definition set_query (p : ParseResult) (q : str) : ParseResult :=
  mkParseResult (scheme p) (netloc p) (path p) (params p) q (fragment p).

Definition uses_netloc : list str :=
  map lit ["" ; "ftp"; "http"; "gopher"; "nntp"; "telnet"; "imap"; "wais";
           "file"; "mms"; "https"; "shttp"; "snews"; "prospero"; "rtsp";
           "rtspu"; "rsync"; "svn"; "svn+ssh"; "sftp"; "nfs"; "git";
           "git+ssh"; "ws"; "wss"].

Definition uses_params : list str :=
  map lit ["" ; "ftp"; "hdl"; "prospero"; "http"; "imap"; "https"; "shttp";
           "rtsp"; "rtspu"; "sip"; "sips"; "mms"; "sftp"; "tel"].

(** [scheme_chars]: letters, digits and [+-.]. *)
Definition is_scheme_char (c : N) : bool :=
  is_ascii_alpha c || is_ascii_digit c || (c =? 43) || (c =? 45) || (c =? 46).

(** [url.lstrip(_WHATWG_C0_CONTROL_OR_SPACE)]. *)
Fixpoint lstrip_c0 (s : str) : str :=
  match s with
  | [] => []
  | c :: t => if c <=? 32 then lstrip_c0 t else s
  end.

(** [_UNSAFE_URL_BYTES_TO_REMOVE]: tab, carriage return, line feed. *)
Definition is_unsafe (c : N) : bool := (c =? 9) || (c =? 13) || (c =? 10).

Definition remove_unsafe (s : str) : str := filter (fun c => negb (is_unsafe c)) s.

(** The scheme test of [urlsplit]: the text before the first [':'] is a
    scheme when it is not empty, starts with an ASCII letter and holds
    scheme characters only; it is returned in lower case with the rest. *)
Definition split_scheme (url : str) : str * str :=
  match split_once 58 url with
  | Some (c0 :: pre, rest) =>
    if is_ascii_alpha c0 && forallb is_scheme_char (c0 :: pre)
    then (ascii_lower (c0 :: pre), rest)
    else ([], url)
  | _ => ([], url)
  end.

Definition is_netloc_delim (c : N) : bool := (c =? 47) || (c =? 63) || (c =? 35).

(** [_splitnetloc(url, 2)] as a function of [url[2:]]: the host up to the
    first of [/?#], and the rest. *)
Fixpoint splitnetloc (s : str) : str * str :=
  match s with
  | [] => ([], [])
  | c :: t =>
    if is_netloc_delim c then ([], s)
    else let (a, b) := splitnetloc t in (c :: a, b)
  end.

Definition is_ascii_str (s : str) : bool := forallb (fun c => c <? 128) s.

(** [_checknetloc]. *)
Definition checknetloc `{HostChecks} (nl : str) : bool :=
  negb (truthy nl) || is_ascii_str nl || checknetloc_nfkc nl.

Record SplitResult : Type := mkSplitResult {
  s_scheme : str;
  s_netloc : str;
  s_path : str;
  s_query : str;
  s_fragment : str
}.

(** [urlsplit(url)]. *)
Definition urlsplit `{HostChecks} (url0 : str) : outcome SplitResult :=
  let url := remove_unsafe (lstrip_c0 url0) in
  let (sch, url) := split_scheme url in
  (let? (nl, url) :=
     if startswith [47; 47] url then
       let (nl, rest) := splitnetloc (skipn 2 url) in
       if (mem 91 nl && negb (mem 93 nl)) || (mem 93 nl && negb (mem 91 nl))
       then Raise (ValueError (lit "Invalid IPv6 URL"))
       else Ok (nl, rest)
     else Ok ([], url) in
   let (url, frag) :=
     match split_once 35 url with
     | Some (a, b) => (a, b)
     | None => (url, [])
     end in
   let (url, q) :=
     match split_once 63 url with
     | Some (a, b) => (a, b)
     | None => (url, [])
     end in
   if checknetloc nl
   then Ok (mkSplitResult sch nl url q frag)
   else Raise (ValueError (lit "netloc contains invalid characters under NFKC normalization")))%exc.

(** [(url[:k], url[k:])] for [k = url.rfind(c)], when [c] occurs. *)
Fixpoint rsplit_at (c : N) (s : str) : str * str :=
  match s with
  | [] => ([], [])
  | x :: t =>
    if mem c t then let (a, b) := rsplit_at c t in (x :: a, b)
    else ([], s)
  end.

(** [_splitparams(url)]. *)
Definition splitparams (url : str) : str * str :=
  if mem 47 url then
    let (dir, base) := rsplit_at 47 url in
    match split_once 59 base with
    | None => (url, [])
    | Some (a, b) => (dir ++ a, b)
    end
  else
    match split_once 59 url with
    | Some (a, b) => (a, b)
    | None => (removelast url, url)
    end.

(** [urlparse(url)]. *)
Definition urlparse `{HostChecks} (url : str) : outcome ParseResult :=
  (let? r := urlsplit url in
   let (p, prm) :=
     if str_in (s_scheme r) uses_params && mem 59 (s_path r)
     then splitparams (s_path r)
     else (s_path r, []) in
   Ok (mkParseResult (s_scheme r) (s_netloc r) p prm (s_query r) (s_fragment r)))%exc.

(** [urlunsplit((scheme, netloc, url, query, fragment))]. *)
Definition urlunsplit (r : SplitResult) : str :=
  let url := s_path r in
  let url :=
    if truthy (s_netloc r) ||
       (truthy (s_scheme r) && str_in (s_scheme r) uses_netloc
        && negb (startswith [47; 47] url))
    then
      let url := if truthy url && negb (startswith [47] url) then 47 :: url else url in
      [47; 47] ++ s_netloc r ++ url
    else url in
  let url := if truthy (s_scheme r) then s_scheme r ++ [58] ++ url else url in
  let url := if truthy (s_query r) then url ++ [63] ++ s_query r else url in
  if truthy (s_fragment r) then url ++ [35] ++ s_fragment r else url.

(** [urlunparse(parts)]. *)
Definition urlunparse (p : ParseResult) : str :=
  let url := if truthy (params p) then path p ++ [59] ++ params p else path p in
  urlunsplit (mkSplitResult (scheme p) (netloc p) url (query p) (fragment p)).

End UrlLib.

(* ===================================================================== *)
(** * Regular expressions ([re], backtracking semantics) *)
(* ===================================================================== *)

(** Unicode tables of the interpreter that are not transcribed here. *)
Class Unicode : Type := {
  (** [str.casefold]. *)
  casefold : Py.str -> Py.str;
  (** [Py_UNICODE_ISDECIMAL] on a non-ASCII code point (category Nd). *)
  unicode_decimal : N -> bool
}.

Module Re.
Import Py.

(** The pattern constructs [PRICE_REGEX] uses.  Groups are non-capturing
    and every quantifier is greedy. *)
Inductive regex : Type :=
| Chr (c : N)                      (* a literal character *)
| Digit                            (* \d *)
| Space                            (* \s *)
| OneOf (cs : list N)              (* [...] *)
| Seq (a b : regex)                (* ab *)
| Alt (a b : regex)                (* a|b *)
| Opt (a : regex)                  (* a? *)
| Star (a : regex)                 (* a* *)
| Plus (a : regex)                 (* a+ *)
| Rep (lo hi : nat) (a : regex).   (* a{lo,hi} *)

(** [\d] on a [str] pattern. *)
Definition is_decimal `{Unicode} (c : N) : bool :=
  is_ascii_digit c || ((128 <=? c) && unicode_decimal c).

(** One character against a class. *)
Definition step (p : N -> bool) (s : str) (k : str -> option str) : option str :=
  match s with
  | c :: t => if p c then k t else None
  | [] => None
  end.

(** A matcher: match at the start of a string and continue with [k] on
    what is left; the result is the text left after the whole match. *)
Definition matcher := str -> (str -> option str) -> option str.

(** Greedy [*] around the matcher [m]: one more round of [m] first, the
    continuation when that fails.  A round that consumes nothing is not
    repeated; [fuel] bounds the rounds by the length of the text. *)
Definition star_loop (m : matcher) (k : str -> option str)
  : nat -> str -> option str :=
  fix loop (fuel : nat) (s : str) : option str :=
    match fuel with
    | O => k s
    | S fuel' =>
      match m s (fun s' =>
              if (length s' <? length s)%nat then loop fuel' s' else None) with
      | Some res => Some res
      | None => k s
      end
    end.

(** Greedy [{lo,hi}] around the matcher [m]. *)
Definition rep_loop (m : matcher) (k : str -> option str)
  : nat -> nat -> str -> option str :=
  fix rep (lo hi : nat) (s : str) : option str :=
    match hi with
    | O => k s
    | S hi' =>
      match m s (fun s' => rep (pred lo) hi' s') with
      | Some res => Some res
      | None => if (lo =? 0)%nat then k s else None
      end
    end.

(** [matches r s k]: match [r] at the start of [s] and continue with [k];
    alternatives are tried in the order the backtracking engine tries
    them, and the first success is the result. *)
Fixpoint matches `{Unicode} (r : regex) (s : str) (k : str -> option str)
  : option str :=
  match r with
  | Chr c => step (N.eqb c) s k
  | Digit => step is_decimal s k
  | Space => step isspace s k
  | OneOf cs => step (fun c => mem c cs) s k
  | Seq a b => matches a s (fun s' => matches b s' k)
  | Alt a b =>
    match matches a s k with
    | Some res => Some res
    | None => matches b s k
    end
  | Opt a =>
    match matches a s k with
    | Some res => Some res
    | None => k s
    end
  | Star a => star_loop (matches a) k (length s) s
  | Plus a => matches a s (fun s1 => star_loop (matches a) k (length s1) s1)
  | Rep lo hi a => rep_loop (matches a) k lo hi s
  end.

(** [m.group(0)] of a match at the start of [s]. *)
Definition match_here `{Unicode} (r : regex) (s : str) : option str :=
  match matches r s (fun rest => Some rest) with
  | Some rest => Some (firstn (length s - length rest) s)
  | None => None
  end.

(** [r.search(s)]: the match at the leftmost position that has one;
    the value is [m.group(0)]. *)
Fixpoint search `{Unicode} (r : regex) (s : str) : option str :=
  match match_here r s with
  | Some g => Some g
  | None =>
    match s with
    | [] => None
    | _ :: t => search r t
    end
  end.

End Re.

(* ===================================================================== *)
(** * HTML documents ([bs4]) *)
(* ===================================================================== *)

Module Soup.
Import Py Dict.

(** The classes of string nodes the [html.parser] tree builder creates. *)
Inductive string_class : Type :=
| NavigableString | CData | Comment | Declaration | Doctype
| ProcessingInstruction | Script | Stylesheet | TemplateString
| RubyTextString | RubyParenthesisString.

Definition string_class_eqb (a b : string_class) : bool :=
  match a, b with
  | NavigableString, NavigableString | CData, CData | Comment, Comment
  | Declaration, Declaration | Doctype, Doctype
  | ProcessingInstruction, ProcessingInstruction | Script, Script
  | Stylesheet, Stylesheet | TemplateString, TemplateString
  | RubyTextString, RubyTextString
  | RubyParenthesisString, RubyParenthesisString => true
  | _, _ => false
  end.

(** A page element: a string node, or a tag with its single-valued
    attributes, the tokens of its [class] attribute and its contents. *)
#[warnings="-register-all"]
Inductive node : Type :=
| Text (cls : string_class) (s : str)
| Tag (name : str) (attrs : dict str) (classes : list str) (children : list node).

(** The [BeautifulSoup] object: the root tag ["[document]"]. *)
Definition document (top : list node) : node :=
  Tag (lit "[document]") [] [] top.

Definition children_of (n : node) : list node :=
  match n with
  | Text _ _ => []
  | Tag _ _ _ ch => ch
  end.

(** The string nodes of [n], itself included, in document order. *)
Fixpoint all_strings (n : node) : list (string_class * str) :=
  match n with
  | Text c s => [(c, s)]
  | Tag _ _ _ ch => concat (map all_strings ch)
  end.

(** The string nodes among [n.descendants]. *)
Definition descendant_strings (n : node) : list (string_class * str) :=
  concat (map all_strings (children_of n)).

(** The tags of [n], itself included, in document order. *)
Fixpoint all_tags (n : node) : list node :=
  match n with
  | Text _ _ => []
  | Tag _ _ _ ch => n :: concat (map all_tags ch)
  end.

(** The tags among [n.descendants]. *)
Definition descendant_tags (n : node) : list node :=
  concat (map all_tags (children_of n)).

(** [tag.interesting_string_types]: the string classes [get_text] and
    [stripped_strings] of a tag keep. *)
Definition interesting (tag_name : str) (c : string_class) : bool :=
  if str_eqb tag_name (lit "script") then string_class_eqb c Script
  else if str_eqb tag_name (lit "style") then string_class_eqb c Stylesheet
  else if str_eqb tag_name (lit "template") then string_class_eqb c TemplateString
  else if str_eqb tag_name (lit "rt") then string_class_eqb c RubyTextString
  else if str_eqb tag_name (lit "rp") then string_class_eqb c RubyParenthesisString
  else string_class_eqb c NavigableString || string_class_eqb c CData.

Definition name_of (n : node) : str :=
  match n with
  | Text _ _ => []
  | Tag nm _ _ _ => nm
  end.

(** [tag.stripped_strings]: the interesting strings under the tag,
    stripped, the empty ones left out. *)
Definition stripped_strings (n : node) : list str :=
  filter truthy
    (map (fun cs => strip (snd cs))
       (filter (fun cs => interesting (name_of n) (fst cs)) (descendant_strings n))).

(** [tag.get_text(sep, strip=True)]. *)
Definition get_text (sep : str) (n : node) : str := join sep (stripped_strings n).

(** The first result some element of [l] gives, left to right. *)
Definition first_some {A B : Type} (f : A -> option B) : list A -> option B :=
  fix go (l : list A) : option B :=
    match l with
    | [] => None
    | x :: r =>
      match f x with
      | Some y => Some y
      | None => go r
      end
    end.

(** [find(string=pred)] below [n], whose parent is [parent] and whose
    further ancestors are [up] (nearest first): the first string node in
    document order that satisfies [pred], with its parent and the
    ancestors above the parent. *)
Fixpoint find_string_in (pred : str -> bool) (parent : node) (up : list node)
  (n : node) : option (str * (node * list node)) :=
  match n with
  | Text _ s => if pred s then Some (s, (parent, up)) else None
  | Tag _ _ _ ch => first_some (find_string_in pred n (parent :: up)) ch
  end.

(** [soup.find(string=pred)]. *)
Definition find_string (pred : str -> bool) (soup : node)
  : option (str * (node * list node)) :=
  first_some (find_string_in pred soup []) (children_of soup).

(** [tag.find_all(string=pred)]: the string nodes under the tag that
    satisfy [pred], in document order. *)
Definition find_all_strings (pred : str -> bool) (n : node) : list str :=
  filter pred (map snd (descendant_strings n)).

(** A tag named [nm]. *)
Definition is_named (nm : str) (n : node) : bool :=
  match n with
  | Text _ _ => false
  | Tag nm' _ _ _ => str_eqb nm' nm
  end.

(** [class_=c] on a tag: [c] is one of the tokens of its class. *)
Definition has_class (c : str) (n : node) : bool :=
  match n with
  | Text _ _ => false
  | Tag _ _ cls _ => str_in c cls
  end.

(** [tag.find(name, class_=c)]: the first tag under [n] with that name
    and class. *)
Definition find_tag (nm c : str) (n : node) : option node :=
  find (fun t => is_named nm t && has_class c t) (descendant_tags n).

(** [tag.find_all(name, recursive=False)]: the children that are tags of
    that name. *)
Definition find_all_children (nm : str) (n : node) : list node :=
  filter (is_named nm) (children_of n).

(** [tag.find_all(name, class_=c)]. *)
Definition find_all_tags (nm c : str) (n : node) : list node :=
  filter (fun t => is_named nm t && has_class c t) (descendant_tags n).

(** [tag.get(key)]. *)
Definition attr (key : str) (n : node) : option str :=
  match n with
  | Text _ _ => None
  | Tag _ a _ _ => Dict.get key a
  end.

(** The elements below [n] that match [a[href*='sub']] and, when [scope]
    is given, have an ancestor below the root that satisfies it;
    [inside] tells whether such an ancestor has been passed. *)
Fixpoint select_links (sub : str) (scope : node -> bool) (inside : bool)
  (n : node) : list node :=
  match n with
  | Text _ _ => []
  | Tag nm a _ ch =>
    (if inside && str_eqb nm (lit "a") &&
        match Dict.get (lit "href") a with
        | Some h => contains sub h
        | None => false
        end
     then [n] else [])
    ++ concat (map (select_links sub scope (inside || scope n)) ch)
  end.

(** The three selectors of the product search, by the scope they ask of a
    link: a [table] or a [div] with id [ProductsTable], or none. *)
Inductive selector : Type :=
| InTableProducts     (* table#ProductsTable a[href*='/Products/Singles/'] *)
| InDivProducts       (* div#ProductsTable a[href*='/Products/Singles/'] *)
| AnyLink.            (* a[href*='/Products/Singles/'] *)

Definition has_id (i : str) (n : node) : bool :=
  match attr (lit "id") n with
  | Some v => str_eqb v i
  | None => false
  end.

(** [soup.select_one(sel)]. *)
Definition select_one (sel : selector) (soup : node) : option node :=
  let sub := lit "/Products/Singles/" in
  let links :=
    match sel with
    | InTableProducts =>
      concat (map (select_links sub
        (fun t => is_named (lit "table") t && has_id (lit "ProductsTable") t) false)
        (children_of soup))
    | InDivProducts =>
      concat (map (select_links sub
        (fun t => is_named (lit "div") t && has_id (lit "ProductsTable") t) false)
        (children_of soup))
    | AnyLink =>
      concat (map (select_links sub (fun _ => false) true) (children_of soup))
    end in
  hd_error links.

End Soup.

(** The parts of the HTML libraries that are not transcribed. *)
Class Html : Type := {
  (** [BeautifulSoup(html, "html.parser")]: the top-level elements. *)
  html_parser : Py.str -> list Soup.node;
  (** [urllib.parse.urljoin(base, url)]. *)
  urljoin : Py.str -> Py.str -> Py.str
}.

(* ===================================================================== *)
(** * The network and the request log *)
(* ===================================================================== *)

Module Net.
Import Py.

(** What the program reads of a [requests.Response]. *)
Record response : Type := mkResponse {
  url : str;            (* the final URL, redirects followed *)
  status_code : Z;
  reason : str;
  text : str
}.

(** A session: the result of [sess.get(url, ...)], a response or an
    exception of the transport. *)
Definition session := str -> outcome response.

(** A computation that may issue requests: it extends the log of the URLs
    requested so far and returns a value or raises. *)
Definition io (A : Type) := list str -> outcome A * list str.

Definition ret {A} (a : A) : io A := fun log => (Ok a, log).

Definition throw {A} (e : exn) : io A := fun log => (Raise e, log).

Definition iobind {A B} (m : io A) (f : A -> io B) : io B :=
  fun log =>
    match m log with
    | (Ok a, log') => f a log'
    | (Raise e, log') => (Raise e, log')
    end.

(** A call that may raise but issues no request. *)
Definition lift {A} (x : outcome A) : io A := fun log => (x, log).

(** [sess.get(url, ...)]. *)
Definition get (sess : session) (u : str) : io response :=
  fun log => (sess u, log ++ [u]).

(** [try: m except Exception as e: h(e)]. *)
Definition try_except {A} (m : io A) (h : exn -> io A) : io A :=
  fun log =>
    match m log with
    | (Ok a, log') => (Ok a, log')
    | (Raise e, log') => if is_Exception e then h e log' else (Raise e, log')
    end.

(** Running a computation from an empty log. *)
Definition run {A} (m : io A) : outcome A * list str := m [].

End Net.

Declare Scope io_scope.
Delimit Scope io_scope with io.
Notation "'let!' x ':=' e 'in' k" := (Net.iobind e (fun x => k))
  (at level 10, x pattern, e at level 100, k at level 200) : io_scope.

(** The session [make_session()] builds (cookies and headers set). *)
Class Network : Type := {
  make_session : Net.session
}.

(* ===================================================================== *)
(** * JSON values (the request and response bodies) *)
(* ===================================================================== *)

Module Json.
Import Py.

#[warnings="-register-all"]
Inductive json : Type :=
| JNull
| JBool (b : bool)
| JNum (z : Z)
| JStr (s : str)
| JArr (l : list json)
| JObj (d : list (str * json)).

(** [bool(v)] of the Python value a JSON value loads to. *)
Definition truthy (v : json) : bool :=
  match v with
  | JNull => false
  | JBool b => b
  | JNum z => negb (z =? 0)%Z
  | JStr s => Py.truthy s
  | JArr l => match l with [] => false | _ => true end
  | JObj d => match d with [] => false | _ => true end
  end.

(** [d.get(k)] on the members of an object; [None] loads to [JNull]. *)
Fixpoint member (k : str) (d : list (str * json)) : json :=
  match d with
  | [] => JNull
  | (k', v) :: t => if str_eqb k' k then v else member k t
  end.

End Json.

(* ===================================================================== *)
(** * app.py *)
(* ===================================================================== *)

Module App.
Import Py Dict UrlLib Soup Re Net Json.

Definition SEARCH_BASE : str :=
  lit "https://www.cardmarket.com/fr/Pokemon/Products/Search?category=-1&searchString=".

Definition DEFAULT_FILTERS : dict str :=
  [ (lit "sellerCountry", lit "12");
    (lit "language", lit "2");
    (lit "minCondition", lit "2") ].

Definition PRICE_TREND_ANCHORS : list str :=
  map lit
    [ "tendance des prix"; "prix moyen"; "articles disponibles";
      "price trend"; "average price"; "available items";
      "preistrend"; "durchschnittspreis"; "verfügbare artikel";
      "andamento del prezzo"; "prezzo medio"; "articoli disponibili";
      "tendencia de precios"; "precio medio"; "artículos disponibles";
      "prijstrend"; "gemiddelde prijs"; "beschikbare artikelen" ].

(** The euro sign. *)
Definition EURO : str := lit "€".

(** [(?:\d{1,3}(?:[.,]\d{3})*|\d+)(?:[.,]\d{2})?\s*€] *)
Definition PRICE_REGEX : regex :=
  Seq (Alt (Seq (Rep 1 3 Digit) (Star (Seq (OneOf [46; 44]) (Rep 3 3 Digit))))
           (Plus Digit))
      (Seq (Opt (Seq (OneOf [46; 44]) (Rep 2 2 Digit)))
           (Seq (Star Space) (Chr 8364))).

(** ** parse_cookie_header *)

(** The loop over [cookie_header.split(";")]: a part that holds ['=']
    sets the stripped name to the stripped value, any other part is
    passed over. *)
Definition parse_cookie_header (cookie_header : str) : dict str :=
  fold_left (fun cookies part =>
      match split_once 61 part with
      | Some (name, value) => Dict.set (strip name) (strip value) cookies
      | None => cookies
      end)
    (split 59 cookie_header) [].

(** ** make_session *)

(** The cookies [make_session] reads from the environment, where
    [cookie_env] is [os.getenv("COOKIE_CARDMARKET")]:
    [parse_cookie_header(cookie_env) if cookie_env else {}]. *)
Definition session_cookies (cookie_env : option str) : dict str :=
  match cookie_env with
  | Some h => if Py.truthy h then parse_cookie_header h else []
  | None => []
  end.

(** ** add_filters *)

Definition add_filters `{HostChecks} (base_url : str) (filters : dict str)
  : outcome str :=
  (let? parts := urlparse base_url in
   let query := parse_qs (query parts) in
   let query := fold_left (fun q kv => Dict.set (fst kv) [snd kv] q) filters query in
   let? q := urlencode query in
   Ok (urlunparse (set_query parts q)))%exc.

(** ** find_product_url *)

(** Decimal digits of a status code, for the message of [HTTPError]. *)
Fixpoint digits (fuel : nat) (n : N) (acc : str) : str :=
  match fuel with
  | O => acc
  | S f => if n <? 10 then (48 + n) :: acc
           else digits f (n / 10) ((48 + n mod 10) :: acc)
  end.

Definition str_of_Z (z : Z) : str :=
  if (z <? 0)%Z then 45 :: digits 64 (Z.to_N (- z)) []
  else digits 64 (Z.to_N z) [].

(** [r.raise_for_status()]. *)
Definition raise_for_status (r : response) : outcome unit :=
  if ((400 <=? status_code r) && (status_code r <? 500))%Z then
    Raise (HTTPError (str_of_Z (status_code r) ++ lit " Client Error: "
                      ++ reason r ++ lit " for url: " ++ url r))
  else if ((500 <=? status_code r) && (status_code r <? 600))%Z then
    Raise (HTTPError (str_of_Z (status_code r) ++ lit " Server Error: "
                      ++ reason r ++ lit " for url: " ++ url r))
  else Ok tt.

(** The loop over the three selectors: the first link found with a
    non-empty [href], joined to the site's origin. *)
Fixpoint first_product_link `{Html} (soup : node) (sels : list selector)
  : option str :=
  match sels with
  | [] => None
  | sel :: rest =>
    match select_one sel soup with
    | Some a =>
      match attr (lit "href") a with
      | Some h =>
        if Py.truthy h then Some (urljoin (lit "https://www.cardmarket.com") h)
        else first_product_link soup rest
      | None => first_product_link soup rest
      end
    | None => first_product_link soup rest
    end
  end.

Definition find_product_url `{Html} (card_id : str) (sess : session) : io str :=
  (let! q := lift (quote_plus card_id) in
   let url0 := SEARCH_BASE ++ q in
   let! r := get sess url0 in
   if contains (lit "/Products/Singles/") (url r) then ret (url r)
   else if (status_code r =? 403)%Z then
     throw (SystemExit (lit "403 Forbidden : accès bloqué."))
   else
     let! _ := lift (raise_for_status r) in
     let soup := document (html_parser (text r)) in
     match first_product_link soup [InTableProducts; InDivProducts; AnyLink] with
     | Some u => ret u
     | None =>
       throw (RuntimeError (lit "Aucun produit trouvé pour '" ++ card_id ++ lit "'."))
     end)%io.

(** ** Price extraction *)

(** [chain] is the node the walk starts at followed by its ancestors, so
    that [cur.parent] is the next element; past the root it is [None]. *)
Fixpoint smallest_common_ancestor_with_keywords `{Unicode} (chain : list node)
  (keywords : list str) : option node :=
  match chain with
  | [] => None
  | cur :: up =>
    let text := casefold (get_text [32] cur) in
    if existsb (fun kw => contains kw text) keywords then Some cur
    else smallest_common_ancestor_with_keywords up keywords
  end.

(** The price texts of a container: for each string under it that holds
    the euro sign and has a match of [PRICE_REGEX], the stripped match. *)
Definition price_matches `{Unicode} (container : node) : list str :=
  flat_map (fun s =>
      match search PRICE_REGEX s with
      | Some m => [strip m]
      | None => []
      end)
    (find_all_strings (contains EURO) container).

(** The container the loop body settles on for one anchor: [None] when no
    string node holds the anchor (or [el] is falsy), else the nearest
    ancestor of the string whose text holds a keyword, or the string's
    parent when there is none. *)
Definition anchor_container `{Unicode} (soup : node) (anchor : str)
  : option node :=
  match find_string (fun t => contains anchor (casefold t)) soup with
  | Some (el, (parent, up)) =>
    if Py.truthy el then
      match smallest_common_ancestor_with_keywords (parent :: up)
              PRICE_TREND_ANCHORS with
      | Some c => Some c
      | None => Some parent
      end
    else None
  | None => None
  end.

(** The loop over the anchors of [extract_lowest_price]; [None] when it
    runs to its end without returning. *)
Fixpoint lowest_by_anchor `{Unicode} (soup : node) (anchors : list str)
  : option str :=
  match anchors with
  | [] => None
  | anchor :: rest =>
    match anchor_container soup anchor with
    | Some container =>
      match price_matches container with
      | p :: _ => Some p
      | [] => lowest_by_anchor soup rest
      end
    | None => lowest_by_anchor soup rest
    end
  end.

Definition extract_lowest_price `{Unicode} `{Html} (html : str) : option str :=
  let soup := document (html_parser html) in
  match lowest_by_anchor soup PRICE_TREND_ANCHORS with
  | Some p => Some p
  | None => hd_error (price_matches soup)
  end.

(** [l[i]] for a Python list and an [int]. *)
Definition index {A} (l : list A) (i : Z) : outcome A :=
  let j := if (i <? 0)%Z then (i + Z.of_nat (length l))%Z else i in
  if (j <? 0)%Z then Raise (IndexError (lit "list index out of range"))
  else match nth_error l (Z.to_nat j) with
       | Some a => Ok a
       | None => Raise (IndexError (lit "list index out of range"))
       end.

(** The index [extract_median_price] computes from [len(rows)]. *)
Definition median_index (len : Z) : Z :=
  let i := ((len + 1) / 2 - 1)%Z in
  if (i <? 0)%Z then 0%Z else i.

(** The value of [rows] once both [find_all] calls are done; [None] when
    the page has no [div.table-body]. *)
Definition offer_rows (soup : node) : option (list node) :=
  match find_tag (lit "div") (lit "table-body") soup with
  | None => None
  | Some offers_container =>
    let rows := find_all_children (lit "div") offers_container in
    match rows with
    | [] => Some (find_all_tags (lit "div") (lit "article-row") offers_container)
    | _ => Some rows
    end
  end.

(** [price_texts[0] if price_texts else None] for a row. *)
Definition row_price (median_row : node) : option str :=
  hd_error (map strip (filter (contains EURO) (stripped_strings median_row))).

Definition extract_median_price `{Html} (html : str) : outcome (option str) :=
  let soup := document (html_parser html) in
  match offer_rows soup with
  | None => Ok None
  | Some [] => Ok None
  | Some rows =>
    (let? median_row := index rows (median_index (Z.of_nat (length rows))) in
     Ok (row_price median_row))%exc
  end.

(** ** The pipeline *)

(** [x or "N/A"]. *)
Definition or_NA (x : option str) : str :=
  match x with
  | Some s => if Py.truthy s then s else lit "N/A"
  | None => lit "N/A"
  end.

(** ** Predicates the properties are stated with *)

(** No string node of the page holds the euro sign. *)
Definition no_currency_text (soup : node) : bool :=
  forallb (fun cs => negb (contains EURO (snd cs))) (descendant_strings soup).

(** The string nodes under [n] that hold the euro sign and have a match
    of the price pattern, in document order. *)
Definition priced_fragments `{Unicode} (n : node) : list str :=
  filter (fun s => match search PRICE_REGEX s with
                   | Some _ => true
                   | None => false
                   end)
    (find_all_strings (contains EURO) n).

(** The loop body returns nothing for an anchor: no string node holds
    it, or its container holds no price text. *)
Definition anchor_yields_nothing `{Unicode} (soup : node) (anchor : str) : Prop :=
  match anchor_container soup anchor with
  | None => True
  | Some c => price_matches c = []
  end.

Definition median_filters : dict str :=
  [ (lit "sellerCountry", lit "12"); (lit "sellerType", lit "1");
    (lit "language", lit "2"); (lit "minCondition", lit "2") ].

Definition get_prices_for_query
  `{HostChecks} `{Unicode} `{Html} `{Network} (card_id : str)
  : io (str * str * str) :=
  (let sess := make_session in
   let! product_url := find_product_url card_id sess in
   let! filtered_url := lift (add_filters product_url DEFAULT_FILTERS) in
   let! r_lowest := get sess filtered_url in
   let lowest := extract_lowest_price (text r_lowest) in
   let! median_url := lift (add_filters product_url median_filters) in
   let! r_median := get sess median_url in
   let! median := lift (extract_median_price (text r_median)) in
   ret (or_NA lowest, or_NA median, filtered_url))%io.

(** ** The route /getPrices *)

(** [str(e)]. *)
Definition str_of_exn (e : exn) : str :=
  match e with
  | ValueError m | TypeError m | AttributeError m | RuntimeError m
  | HTTPError m | RequestException m | IndexError m | SystemExit m => m
  | UnicodeEncodeError => lit "'utf-8' codec can't encode character: surrogates not allowed"
  end.

(** What the view returns: [jsonify(body), status]. *)
Record http_response : Type := mkHttp {
  status : Z;
  body : json
}.

(** [get_prices()], where [data] is [request.get_json()].  An exception
    in the result leaves the view function uncaught. *)
Definition get_prices
  `{HostChecks} `{Unicode} `{Html} `{Network} (data : json) : io http_response :=
  (let! query :=
     match data with
     | JObj d => ret (member (lit "query") d)
     | _ => throw (AttributeError (lit "object has no attribute 'get'"))
     end in
   if negb (Json.truthy query) then
     ret (mkHttp 400 (JObj [(lit "error", JStr (lit "Missing 'query' field"))]))
   else
     try_except
       (let! res :=
          match query with
          | JStr card_id => get_prices_for_query card_id
          | _ => throw (TypeError (lit "quote_from_bytes() expected bytes"))
          end in
        let '(lowest, median, u) := res in
        ret (mkHttp 200 (JObj [ (lit "lowest", JStr lowest);
                                (lit "median", JStr median);
                                (lit "url", JStr u) ])))
       (fun e => ret (mkHttp 500 (JObj [(lit "error", JStr (str_of_exn e))]))))%io.

End App.

(* ===================================================================== *)
(** * Sample libraries, pages and sessions

    Concrete values the examples below run on.  The Unicode tables are
    instantiated on ASCII text, where [casefold] is [lower]; a page is
    given by the tree [html.parser] builds for it. *)
(* ===================================================================== *)

Module Sample.
Import Py Dict UrlLib Soup Re Net Json App.

Definition ascii_unicode : Unicode :=
  {| casefold := ascii_lower; unicode_decimal := fun _ => false |}.

Definition lenient_hosts : HostChecks :=
  {| checknetloc_nfkc := fun _ => true |}.

(** A parser that knows one page: every text parses to [top]. *)
Definition page (top : list node) : Html :=
  {| html_parser := fun _ => top; urljoin := fun base u => base ++ u |}.

Definition el (nm : String.string) (ch : list node) : node := Tag (lit nm) [] [] ch.
Definition txt (s : String.string) : node := Text NavigableString (lit s).

(** An offer row: [<div class="article-row"><span>price</span></div>]. *)
Definition offer (price : String.string) : node :=
  Tag (lit "div") [] [lit "article-row"] [el "span" [txt price]].

(** [<div class="table-body">] with three offers, cheapest first. *)
Definition three_offers : list node :=
  [ Tag (lit "div") [] [lit "table-body"]
      [offer "1,00 €"; offer "2,50 €"; offer "10,00 €"] ].

(** [<div class="table-body">] with four offers. *)
Definition four_offers : list node :=
  [ Tag (lit "div") [] [lit "table-body"]
      [offer "1,00 €"; offer "2,50 €"; offer "4,00 €"; offer "10,00 €"] ].

(** A session that answers every request with the same response. *)
Definition always (r : response) : Network :=
  {| make_session := fun _ => Ok r |}.

(** The answer of a blocked search: status 403 on the search page. *)
Definition forbidden : response :=
  mkResponse (lit "https://www.cardmarket.com/fr/Pokemon/Products/Search?category=-1&searchString=Pikachu")
             403 (lit "Forbidden") (lit "<html>Access denied</html>").

(** A login redirect that quotes the product path in its query string. *)
Definition login_redirect : response :=
  mkResponse (lit "https://www.cardmarket.com/fr/Pokemon/Login?ref=/Products/Singles/x")
             403 (lit "Forbidden") [].

(** A product page reached by redirect. *)
Definition product_page : response :=
  mkResponse (lit "https://www.cardmarket.com/fr/Pokemon/Products/Singles/Base-Set/Pikachu")
             200 (lit "OK") (lit "<html></html>").

(** [{"query": q}]. *)
Definition query_body (q : String.string) : json := JObj [(lit "query", JStr (lit q))].

(** A site: the search is answered with [search], every other request
    with [other]. *)
Definition site (search other : response) : Network :=
  {| make_session := fun u =>
       if startswith SEARCH_BASE u then Ok search else Ok other |}.

(** A product page that shows no price at all:
    [<div>Out of stock</div>]. *)
Definition sold_out : list node := [el "div" [txt "Out of stock"]].

(** The answer that carries a product page. *)
Definition listing : response :=
  mkResponse (lit "https://www.cardmarket.com/fr/Pokemon/Products/Singles/Base-Set/Pikachu?sellerCountry=12")
             200 (lit "OK") (lit "<div>Out of stock</div>").

(** Both labels, each with a price of its own:
    [<div><p>tendance des prix <b>3,00 €</b></p>
          <p>price trend <b>5,00 €</b></p></div>]. *)
Definition two_labels : list node :=
  [ el "div"
      [ el "p" [txt "tendance des prix "; el "b" [txt "3,00 €"]];
        el "p" [txt "price trend "; el "b" [txt "5,00 €"]] ] ].

(** Both labels, the first without a price in its element:
    [<div><span>9,99 €</span><p>tendance des prix</p>
          <p>price trend <b>5,00 €</b></p></div>]. *)
Definition first_label_bare : list node :=
  [ el "div"
      [ el "span" [txt "9,99 €"];
        el "p" [txt "tendance des prix"];
        el "p" [txt "price trend "; el "b" [txt "5,00 €"]] ] ].

(** No label, a price inside a sentence: [<div>from 5,00 € only</div>]. *)
Definition loose_price : list node := [el "div" [txt "from 5,00 € only"]].

End Sample.

(* ===================================================================== *)
(** * Properties of the median-price extractor *)
(* ===================================================================== *)

Module MedianFacts.
Import Py Soup Net App.

Lemma median_index_formula (n : Z) :
  (1 <= n)%Z ->
  (0 <= (n + 1) / 2 - 1 < n)%Z /\ median_index n = ((n + 1) / 2 - 1)%Z.
Proof.
  intros Hn. unfold median_index.
  assert (Hb : (0 <= (n + 1) / 2 - 1 < n)%Z).
  { assert (H2 : (n + 1 = 2 * ((n + 1) / 2) + (n + 1) mod 2)%Z)
      by (apply Z.div_mod; lia).
    assert (Hm : (0 <= (n + 1) mod 2 < 2)%Z) by (apply Z.mod_pos_bound; lia).
    lia. }
  split; [exact Hb|].
  destruct (Z.ltb_spec ((n + 1) / 2 - 1) 0); lia.
Qed.

Lemma index_in_range (A : Type) (l : list A) (i : Z) :
  (0 <= i < Z.of_nat (length l))%Z ->
  exists a, nth_error l (Z.to_nat i) = Some a /\ index l i = Ok a.
Proof.
  intros Hi. unfold index.
  destruct (Z.ltb_spec i 0) as [Hneg|_]; [lia|].
  destruct (Z.ltb_spec i 0) as [Hneg|_]; [lia|].
  destruct (nth_error l (Z.to_nat i)) as [a|] eqn:E.
  - exists a. split; reflexivity.
  - apply nth_error_None in E. lia.
Qed.

Lemma length_pos_of_nonempty (A : Type) (l : list A) :
  l <> [] -> (1 <= Z.of_nat (length l))%Z.
Proof. destruct l; [congruence|simpl; lia]. Qed.

(** With a non-empty row list the extractor returns the price text of the
    row at the median index. *)
Lemma extract_median_price_rows `{Html} (html : str) (rows : list node) :
  offer_rows (document (html_parser html)) = Some rows ->
  rows <> [] ->
  exists row,
    nth_error rows (Z.to_nat ((Z.of_nat (length rows) + 1) / 2 - 1)) = Some row /\
    index rows (median_index (Z.of_nat (length rows))) = Ok row /\
    extract_median_price html = Ok (row_price row).
Proof.
  intros Hrows Hne.
  pose proof (length_pos_of_nonempty Hne) as Hlen.
  destruct (median_index_formula Hlen) as [Hb Hm].
  destruct (@index_in_range _ rows _ Hb) as [row [Hnth Hidx]].
  exists row. rewrite Hm. repeat split; try assumption.
  unfold extract_median_price. rewrite Hrows.
  destruct rows as [|r0 rs]; [congruence|].
  rewrite Hm, Hidx. reflexivity.
Qed.

(** C4: for a non-empty row list of length n the median extractor selects
    the row at index floor((n + 1) / 2) - 1 clamped at 0 and returns its
    price text; an odd count selects the exact middle row, an even count
    the lower-middle row, and the counts 1, 2, 3, 4, 5 select the indices
    0, 0, 1, 1, 2. *)
Theorem median_selects_lower_middle `{Html} (html : str) (rows : list node) :
  offer_rows (document (html_parser html)) = Some rows ->
  rows <> [] ->
  let n := Z.of_nat (length rows) in
  median_index n = Z.max 0 ((n + 1) / 2 - 1) /\
  (exists row,
     nth_error rows (Z.to_nat (median_index n)) = Some row /\
     extract_median_price html = Ok (row_price row)) /\
  (Z.odd n = true -> median_index n = ((n - 1) / 2)%Z) /\
  (Z.even n = true -> median_index n = (n / 2 - 1)%Z) /\
  map median_index [1; 2; 3; 4; 5]%Z = [0; 0; 1; 1; 2]%Z.
Proof.
  intros Hrows Hne n.
  pose proof (length_pos_of_nonempty Hne) as Hlen. fold n in Hlen.
  destruct (median_index_formula Hlen) as [Hb Hm].
  destruct (extract_median_price_rows html Hrows Hne) as [row [Hnth [_ Hex]]].
  fold n in Hnth.
  split; [rewrite Hm; lia|].
  split; [exists row; rewrite Hm; split; assumption|].
  split; [|split; [|reflexivity]].
  - intros Hodd. rewrite Hm.
    rewrite Z.odd_spec in Hodd. destruct Hodd as [k Hk].
    replace (n + 1)%Z with ((k + 1) * 2)%Z by lia.
    replace (n - 1)%Z with (k * 2)%Z by lia.
    rewrite !Z.div_mul by lia. lia.
  - intros Heven. rewrite Hm.
    rewrite Z.even_spec in Heven. destruct Heven as [k Hk].
    replace (n + 1)%Z with (1 + k * 2)%Z by lia.
    replace n with (k * 2)%Z by lia.
    rewrite Z.div_add by lia. rewrite Z.div_mul by lia.
    reflexivity.
Qed.

(** The page with three offers: the middle one is returned. *)
Lemma median_selects_lower_middle_witness :
  let H := Sample.page Sample.three_offers in
  extract_median_price [] = Ok (Some (lit "2,50 €")) /\
  median_index 3 = 1%Z.
Proof.
  pose proof (@median_selects_lower_middle (Sample.page Sample.three_offers) []
                (children_of (hd (Text NavigableString []) Sample.three_offers))
                eq_refl ltac:(discriminate)) as [Hidx [[row [Hnth Hex]] _]].
  split.
  - rewrite Hex. vm_compute in Hnth. injection Hnth as <-. vm_compute. reflexivity.
  - exact Hidx.
Defined.

(** C9: when the row list is non-empty, of length n, the computed index
    floor((n + 1) / 2) - 1 lies in [0, n): the clamp to 0 never fires and
    indexing the rows raises no IndexError, so the extractor returns. *)
Theorem median_index_in_bounds `{Html} (html : str) (rows : list node) :
  offer_rows (document (html_parser html)) = Some rows ->
  rows <> [] ->
  let n := Z.of_nat (length rows) in
  (0 <= (n + 1) / 2 - 1 < n)%Z /\
  ((n + 1) / 2 - 1 <? 0)%Z = false /\
  exists row,
    index rows (median_index n) = Ok row /\
    extract_median_price html = Ok (row_price row).
Proof.
  intros Hrows Hne n.
  pose proof (length_pos_of_nonempty Hne) as Hlen. fold n in Hlen.
  destruct (median_index_formula Hlen) as [Hb Hm].
  destruct (extract_median_price_rows html Hrows Hne) as [row [_ [Hidx Hex]]].
  split; [exact Hb|]. split; [apply Z.ltb_ge; lia|].
  exists row. split; assumption.
Qed.

(** The page with four offers: index 1 of 4, no exception. *)
Lemma median_index_in_bounds_witness :
  let H := Sample.page Sample.four_offers in
  (0 <= (4 + 1) / 2 - 1 < 4)%Z /\
  extract_median_price [] = Ok (Some (lit "2,50 €")).
Proof.
  pose proof (@median_index_in_bounds (Sample.page Sample.four_offers) []
                (children_of (hd (Text NavigableString []) Sample.four_offers))
                eq_refl ltac:(discriminate)) as [Hb [_ [row [Hidx Hex]]]].
  split; [exact Hb|].
  rewrite Hex. vm_compute in Hidx. injection Hidx as <-. vm_compute. reflexivity.
Defined.

(** Whatever the page, the median extractor raises nothing. *)
Lemma extract_median_price_returns `{Html} (html : str) :
  exists r, extract_median_price html = Ok r.
Proof.
  unfold extract_median_price.
  destruct (offer_rows (document (html_parser html))) as [rows|] eqn:E;
    [|exists None; reflexivity].
  destruct rows as [|r0 rs] eqn:Er; [exists None; reflexivity|].
  assert (Hne : rows <> []) by (subst; discriminate).
  subst rows.
  destruct (extract_median_price_rows html E Hne) as [row [_ [Hidx _]]].
  rewrite Hidx. eexists. reflexivity.
Qed.

End MedianFacts.

(* ===================================================================== *)
(** * Properties of the product locator and of the route *)
(* ===================================================================== *)

Module RouteFacts.
Import Py Dict UrlLib Soup Net Json App.

(** The canonical product-page marker the locator looks for. *)
Abbreviation PRODUCT_PATH := (lit "/Products/Singles/").

(** The search request is the only one the locator issues; a final URL
    that holds the marker is returned whatever the rest of the response. *)
Lemma find_product_url_redirected `{Html} (card_id q : str) (sess : session)
  (r : response) (log : list str) :
  quote_plus card_id = Ok q ->
  sess (SEARCH_BASE ++ q) = Ok r ->
  contains PRODUCT_PATH (url r) = true ->
  find_product_url card_id sess log = (Ok (url r), log ++ [SEARCH_BASE ++ q]).
Proof.
  intros Hq Hs Hc. unfold find_product_url, iobind, lift, get, ret.
  rewrite Hq, Hs, Hc. reflexivity.
Qed.

(** A search answered with status 403, on a final URL without the marker:
    the locator raises [SystemExit]. *)
Lemma find_product_url_forbidden `{Html} (card_id q : str) (sess : session)
  (r : response) (log : list str) :
  quote_plus card_id = Ok q ->
  sess (SEARCH_BASE ++ q) = Ok r ->
  contains PRODUCT_PATH (url r) = false ->
  status_code r = 403%Z ->
  find_product_url card_id sess log =
    (Raise (SystemExit (lit "403 Forbidden : accès bloqué.")),
     log ++ [SEARCH_BASE ++ q]).
Proof.
  intros Hq Hs Hc H403. unfold find_product_url, iobind, lift, get, throw.
  rewrite Hq, Hs, Hc, H403. reflexivity.
Qed.

(** C1 (the code departs from the claim): a search answered with status
    403 on a final URL without the product marker makes the locator raise
    SystemExit; SystemExit is not an Exception, so the handler of the
    route does not turn it into a response: the view returns no status
    500 and no JSON body, the exception leaves it. *)
Theorem forbidden_search_escapes_route
  `{HostChecks} `{Unicode} `{Html} `{Network}
  (d : list (str * json)) (card_id q : str) (r : response) (log : list str) :
  member (lit "query") d = JStr card_id ->
  card_id <> [] ->
  quote_plus card_id = Ok q ->
  make_session (SEARCH_BASE ++ q) = Ok r ->
  contains PRODUCT_PATH (url r) = false ->
  status_code r = 403%Z ->
  find_product_url card_id make_session log =
    (Raise (SystemExit (lit "403 Forbidden : accès bloqué.")),
     log ++ [SEARCH_BASE ++ q]) /\
  is_Exception (SystemExit (lit "403 Forbidden : accès bloqué.")) = false /\
  get_prices (JObj d) log =
    (Raise (SystemExit (lit "403 Forbidden : accès bloqué.")),
     log ++ [SEARCH_BASE ++ q]).
Proof.
  intros Hm Hne Hq Hs Hc H403.
  pose proof (find_product_url_forbidden card_id make_session log Hq Hs Hc H403) as Hf.
  split; [exact Hf|]. split; [reflexivity|].
  unfold get_prices, iobind at 1, ret at 1. rewrite Hm.
  assert (Ht : Json.truthy (JStr card_id) = true)
    by (destruct card_id; [congruence|reflexivity]).
  rewrite Ht. cbn [negb].
  unfold try_except, get_prices_for_query, iobind.
  rewrite Hf. reflexivity.
Qed.

(** The request [{"query": "Pikachu"}] against a site that answers the
    search with 403. *)
Lemma forbidden_search_escapes_route_witness :
  @get_prices Sample.lenient_hosts Sample.ascii_unicode (Sample.page [])
    (Sample.always Sample.forbidden) (Sample.query_body "Pikachu") [] =
  (Raise (SystemExit (lit "403 Forbidden : accès bloqué.")),
   [SEARCH_BASE ++ lit "Pikachu"]).
Proof.
  apply (@forbidden_search_escapes_route Sample.lenient_hosts Sample.ascii_unicode
           (Sample.page []) (Sample.always Sample.forbidden)
           [(lit "query", JStr (lit "Pikachu"))] (lit "Pikachu") (lit "Pikachu")
           Sample.forbidden []);
    first [reflexivity | discriminate].
Defined.

(** The sibling failure: a search page without any product link raises
    [RuntimeError], which the route does turn into status 500 with the
    message in the body. *)
Lemma not_found_gives_500 :
  @get_prices Sample.lenient_hosts Sample.ascii_unicode (Sample.page [])
    (Sample.always (mkResponse (lit "https://www.cardmarket.com/fr/Pokemon/Products/Search")
                               200 (lit "OK") []))
    (Sample.query_body "Pikachu") [] =
  (Ok (mkHttp 500 (JObj [(lit "error",
         JStr (lit "Aucun produit trouvé pour 'Pikachu'."))])),
   [SEARCH_BASE ++ lit "Pikachu"]).
Proof. vm_compute. reflexivity. Qed.

(** C10: a body whose "query" member is the empty string is answered as
    one without the member: status 400 with the body
    {"error": "Missing 'query' field"}, and the request log is left as it
    was (no request is issued). *)
Theorem empty_query_is_missing
  `{HostChecks} `{Unicode} `{Html} `{Network}
  (d : list (str * json)) (log : list str) :
  member (lit "query") d = JStr [] \/ member (lit "query") d = JNull ->
  get_prices (JObj d) log =
    (Ok (mkHttp 400 (JObj [(lit "error", JStr (lit "Missing 'query' field"))])),
     log).
Proof.
  intros [Hm|Hm]; unfold get_prices, iobind, ret; rewrite Hm; reflexivity.
Qed.

(** The request [{"query": ""}]. *)
Lemma empty_query_is_missing_witness :
  @get_prices Sample.lenient_hosts Sample.ascii_unicode (Sample.page [])
    (Sample.always Sample.product_page) (Sample.query_body "") [] =
  (Ok (mkHttp 400 (JObj [(lit "error", JStr (lit "Missing 'query' field"))])), []).
Proof.
  apply (@empty_query_is_missing Sample.lenient_hosts Sample.ascii_unicode
           (Sample.page []) (Sample.always Sample.product_page)
           [(lit "query", JStr [])] []).
  left. reflexivity.
Defined.

(** C7 as stated fails: the final URL of a login redirect has the path
    /fr/Pokemon/Login, which does not match the product pattern, and only
    its query string quotes /Products/Singles/; the locator still returns
    it at once (the status is 403 and the body is empty, so no later step
    could return anything). *)
Lemma query_string_match_is_returned :
  (exists p, @urlparse Sample.lenient_hosts (url Sample.login_redirect) = Ok p /\
             path p = lit "/fr/Pokemon/Login" /\
             contains PRODUCT_PATH (path p) = false) /\
  run (@find_product_url (Sample.page []) (lit "Pikachu")
         (fun _ => Ok Sample.login_redirect)) =
    (Ok (url Sample.login_redirect), [SEARCH_BASE ++ lit "Pikachu"]).
Proof.
  split.
  - eexists. split; [vm_compute; reflexivity|]. split; vm_compute; reflexivity.
  - vm_compute. reflexivity.
Qed.

(** C7, amended: after the search request the final URL is returned at
    once, whatever the status code and the body, if and only if the URL
    string as a whole (path, query string or fragment) contains
    /Products/Singles/.  For every answer of the session to the search
    request: when the final URL holds the marker, the locator returns it;
    when it does not, the final URL is not returned at this step and the
    outcome is that of the steps that follow: SystemExit on status 403,
    the exception of [raise_for_status] on another error status, and
    otherwise the first product link of the page, or RuntimeError when
    the page has none. *)
Theorem final_url_returned_iff_marker `{Html}
  (card_id q : str) (sess : session) (r : response) (log : list str) :
  quote_plus card_id = Ok q ->
  sess (SEARCH_BASE ++ q) = Ok r ->
  (contains PRODUCT_PATH (url r) = true ->
   find_product_url card_id sess log = (Ok (url r), log ++ [SEARCH_BASE ++ q])) /\
  (contains PRODUCT_PATH (url r) = false ->
   find_product_url card_id sess log =
     (if (status_code r =? 403)%Z
      then Raise (SystemExit (lit "403 Forbidden : accès bloqué."))
      else match raise_for_status r with
           | Raise e => Raise e
           | Ok _ =>
             match first_product_link (document (html_parser (text r)))
                     [InTableProducts; InDivProducts; AnyLink] with
             | Some u => Ok u
             | None =>
               Raise (RuntimeError
                        (lit "Aucun produit trouvé pour '" ++ card_id ++ lit "'."))
             end
           end,
      log ++ [SEARCH_BASE ++ q])).
Proof.
  intros Hq Hs. split; intros Hc.
  - apply (find_product_url_redirected card_id sess log Hq Hs Hc).
  - unfold find_product_url, iobind, lift, get, ret, throw.
    rewrite Hq, Hs, Hc.
    destruct (status_code r =? 403)%Z; [reflexivity|].
    destruct (raise_for_status r) as [[]|e]; [|reflexivity].
    destruct (first_product_link _ _); reflexivity.
Qed.

(** A search for "Pikachu" redirected to the product page. *)
Lemma final_url_returned_iff_marker_witness :
  @find_product_url (Sample.page []) (lit "Pikachu")
    (fun _ => Ok Sample.product_page) [] =
  (Ok (url Sample.product_page), [] ++ [SEARCH_BASE ++ lit "Pikachu"]).
Proof.
  apply (@final_url_returned_iff_marker (Sample.page []) (lit "Pikachu")
           (lit "Pikachu") (fun _ => Ok Sample.product_page) Sample.product_page []).
  - vm_compute. reflexivity.
  - reflexivity.
  - vm_compute. reflexivity.
Defined.

End RouteFacts.

(* ===================================================================== *)
(** * Facts about strings *)
(* ===================================================================== *)

Unset Implicit Arguments.

Module PyFacts.
Import Py.

Lemma str_eqb_eq (a b : str) : str_eqb a b = true <-> a = b.
Proof.
  revert b. induction a as [|x a IH]; intros [|y b]; simpl; split;
    try congruence; try reflexivity.
  - rewrite andb_true_iff, N.eqb_eq, IH. intros [-> ->]. reflexivity.
  - intros E. injection E as -> ->. rewrite N.eqb_refl. simpl.
    apply IH. reflexivity.
Qed.

Lemma str_eqb_refl (a : str) : str_eqb a a = true.
Proof. apply str_eqb_eq. reflexivity. Qed.

Lemma str_eqb_neq (a b : str) : str_eqb a b = false <-> a <> b.
Proof.
  split.
  - intros E H. apply str_eqb_eq in H. congruence.
  - intros H. destruct (str_eqb a b) eqn:E; [|reflexivity].
    apply str_eqb_eq in E. contradiction.
Qed.

Lemma str_eqb_sym (a b : str) : str_eqb a b = str_eqb b a.
Proof.
  destruct (str_eqb a b) eqn:E.
  - apply str_eqb_eq in E. subst. symmetry. apply str_eqb_refl.
  - symmetry. apply str_eqb_neq. apply str_eqb_neq in E. congruence.
Qed.

Lemma mem_In (c : N) (s : str) : mem c s = true <-> In c s.
Proof.
  induction s as [|x t IH]; simpl.
  - split; [discriminate|tauto].
  - rewrite orb_true_iff, N.eqb_eq, IH. tauto.
Qed.

Lemma mem_false (c : N) (s : str) : mem c s = false <-> ~ In c s.
Proof.
  rewrite <- mem_In. destruct (mem c s); split; congruence.
Qed.

Lemma mem_app (c : N) (a b : str) : mem c (a ++ b) = mem c a || mem c b.
Proof.
  induction a as [|x a IH]; simpl; [reflexivity|].
  rewrite IH. apply orb_assoc.
Qed.

Lemma str_in_In (x : str) (l : list str) : str_in x l = true <-> In x l.
Proof.
  unfold str_in. rewrite existsb_exists. split.
  - intros [y [Hy E]]. apply str_eqb_eq in E. subst. exact Hy.
  - intros H. exists x. split; [exact H|apply str_eqb_refl].
Qed.

Lemma startswith_spec (p s : str) :
  startswith p s = true <-> exists b, s = p ++ b.
Proof.
  revert s. induction p as [|x p IH]; intros s; simpl.
  - split; [intros _; exists s; reflexivity|reflexivity].
  - destruct s as [|y s].
    + split; [discriminate|intros [b Hb]; discriminate].
    + rewrite andb_true_iff, N.eqb_eq, IH. split.
      * intros [-> [b ->]]. exists b. reflexivity.
      * intros [b Hb]. injection Hb as -> ->. split; [reflexivity|].
        exists b. reflexivity.
Qed.

(** [p in s] holds exactly when [s] has [p] as a slice. *)
Lemma contains_spec (p s : str) :
  contains p s = true <-> exists a b, s = a ++ p ++ b.
Proof.
  induction s as [|y s IH].
  - simpl. rewrite orb_false_r, startswith_spec. split.
    + intros [b Hb]. exists [], b. exact Hb.
    + intros [a [b Hb]]. destruct a; [exists b; exact Hb|discriminate].
  - cbn [contains]. rewrite orb_true_iff, startswith_spec, IH. split.
    + intros [[b Hb]|[a [b Hb]]].
      * exists [], b. exact Hb.
      * exists (y :: a), b. rewrite Hb. reflexivity.
    + intros [a [b Hb]]. destruct a as [|x a].
      * left. exists b. exact Hb.
      * right. injection Hb as -> ->. exists a, b. reflexivity.
Qed.

Lemma contains_app (p a s b : str) :
  contains p s = true -> contains p (a ++ s ++ b) = true.
Proof.
  rewrite !contains_spec. intros [a' [b' ->]].
  exists (a ++ a'), (b' ++ b). rewrite <- !app_assoc. reflexivity.
Qed.

Lemma lstrip_suffix (s : str) : exists a, s = a ++ lstrip s.
Proof.
  induction s as [|c t [a Ha]]; simpl.
  - exists []. reflexivity.
  - destruct (isspace c).
    + exists (c :: a). simpl. f_equal. exact Ha.
    + exists []. reflexivity.
Qed.

Lemma rstrip_prefix (s : str) : exists b, s = rstrip s ++ b.
Proof.
  unfold rstrip. destruct (lstrip_suffix (rev s)) as [a Ha].
  exists (rev a). rewrite <- rev_app_distr, <- Ha. symmetry. apply rev_involutive.
Qed.

(** [s.strip()] is a slice of [s]. *)
Lemma strip_slice (s : str) : exists a b, s = a ++ strip s ++ b.
Proof.
  unfold strip. destruct (lstrip_suffix s) as [a Ha].
  destruct (rstrip_prefix (lstrip s)) as [b Hb].
  exists a, b. rewrite <- Hb. exact Ha.
Qed.

Lemma contains_strip (p s : str) :
  contains p (strip s) = true -> contains p s = true.
Proof.
  intros H. destruct (strip_slice s) as [a [b E]].
  rewrite E. apply contains_app. exact H.
Qed.

(** A string whose last character is not a space keeps it under [strip]. *)
Lemma lstrip_keeps_nonspace (pre : str) (c : N) :
  isspace c = false -> exists pre', lstrip (pre ++ [c]) = pre' ++ [c].
Proof.
  intros Hc. induction pre as [|x pre [pre' IH]]; simpl.
  - rewrite Hc. exists []. reflexivity.
  - destruct (isspace x).
    + exists pre'. exact IH.
    + exists (x :: pre). reflexivity.
Qed.

Lemma strip_keeps_last (pre : str) (c : N) :
  isspace c = false -> exists pre', strip (pre ++ [c]) = pre' ++ [c].
Proof.
  intros Hc. unfold strip, rstrip.
  destruct (lstrip_keeps_nonspace pre c Hc) as [pre' E]. rewrite E.
  rewrite rev_app_distr. simpl. rewrite Hc. simpl.
  exists pre'. rewrite rev_involutive. reflexivity.
Qed.

End PyFacts.

(* ===================================================================== *)
(** * Facts about documents *)
(* ===================================================================== *)

Module SoupFacts.
Import Py Soup.

(** Induction on a document tree, with the hypothesis for every child. *)
Section NodeInduction.
Variable P : node -> Prop.
Hypothesis text_case : forall c s, P (Text c s).
Hypothesis tag_case : forall nm a cls ch, Forall P ch -> P (Tag nm a cls ch).

Fixpoint node_induction (n : node) : P n :=
  match n with
  | Text c s => text_case c s
  | Tag nm a cls ch =>
    tag_case nm a cls ch
      ((fix go (l : list node) : Forall P l :=
          match l with
          | [] => Forall_nil P
          | x :: r => Forall_cons x (node_induction x) (go r)
          end) ch)
  end.
End NodeInduction.

(** [subtree a b]: [a] is [b] or one of its descendants. *)
Inductive subtree : node -> node -> Prop :=
| subtree_refl n : subtree n n
| subtree_child n nm a cls ch c :
    In c ch -> subtree n c -> subtree n (Tag nm a cls ch).

Lemma subtree_trans (a b c : node) : subtree a b -> subtree b c -> subtree a c.
Proof.
  intros Hab Hbc. induction Hbc as [|n nm at' cls ch c' Hin Hsub IH].
  - exact Hab.
  - eapply subtree_child; [exact Hin|]. apply IH. exact Hab.
Qed.

Lemma all_strings_subtree (a b : node) :
  subtree a b -> incl (all_strings a) (all_strings b).
Proof.
  induction 1 as [|n nm at' cls ch c Hin Hsub IH].
  - apply incl_refl.
  - intros x Hx. simpl. apply in_concat.
    exists (all_strings c). split; [apply in_map; exact Hin|]. apply IH. exact Hx.
Qed.

Lemma descendant_strings_all (n : node) :
  incl (descendant_strings n) (all_strings n).
Proof. destruct n; [intros x []|apply incl_refl]. Qed.

(** The strings below a subtree are strings below the tree. *)
Lemma descendant_strings_subtree (a b : node) :
  subtree a b -> incl (descendant_strings a) (all_strings b).
Proof.
  intros H. eapply incl_tran; [apply descendant_strings_all|].
  apply all_strings_subtree. exact H.
Qed.

Lemma all_tags_subtree (n t : node) : In t (all_tags n) -> subtree t n.
Proof.
  revert t. induction n as [c s|nm a cls ch IH] using node_induction; intros t Ht.
  - destruct Ht.
  - simpl in Ht. destruct Ht as [<-|Ht]; [apply subtree_refl|].
    apply in_concat in Ht. destruct Ht as [l [Hl Ht]].
    apply in_map_iff in Hl. destruct Hl as [c [<- Hc]].
    rewrite Forall_forall in IH.
    eapply subtree_child; [exact Hc|]. apply IH; assumption.
Qed.

Lemma descendant_tags_subtree (n t : node) :
  In t (descendant_tags n) -> subtree t n.
Proof.
  destruct n as [c s|nm a cls ch]; [intros []|].
  unfold descendant_tags. simpl. intros Ht.
  apply in_concat in Ht. destruct Ht as [l [Hl Ht]].
  apply in_map_iff in Hl. destruct Hl as [c [<- Hc]].
  eapply subtree_child; [exact Hc|]. apply all_tags_subtree. exact Ht.
Qed.

Lemma children_subtree (n c : node) : In c (children_of n) -> subtree c n.
Proof.
  destruct n as [|nm a cls ch]; [intros []|]. simpl. intros Hc.
  eapply subtree_child; [exact Hc|apply subtree_refl].
Qed.

Lemma first_some_Some (A B : Type) (f : A -> option B) (l : list A) (y : B) :
  first_some f l = Some y -> exists x, In x l /\ f x = Some y.
Proof.
  induction l as [|x r IH]; simpl; [discriminate|].
  destruct (f x) as [y'|] eqn:E.
  - intros H. injection H as <-. exists x. split; [left; reflexivity|exact E].
  - intros H. destruct (IH H) as [x' [Hin Hx']]. exists x'. split; [right|]; assumption.
Qed.

Lemma first_some_None (A B : Type) (f : A -> option B) (l : list A) :
  first_some f l = None <-> forall x, In x l -> f x = None.
Proof.
  induction l as [|x r IH]; simpl.
  - split; [intros _ x []|reflexivity].
  - destruct (f x) as [y'|] eqn:E.
    + split; [discriminate|]. intros H. rewrite <- E. apply H. left. reflexivity.
    + rewrite IH. split.
      * intros H x' [<-|Hx']; [exact E|apply H; exact Hx'].
      * intros H x' Hx'. apply H. right. exact Hx'.
Qed.

(** What [find_string_in] returns: the parent and the ancestors it hands
    back satisfy any property that holds of the nodes on the way. *)
Lemma find_string_in_chain (Q : node -> Prop) (pred : str -> bool) (n : node) :
  forall parent up el p' up',
    (forall x, subtree x n -> Q x) ->
    Q parent -> Forall Q up ->
    find_string_in pred parent up n = Some (el, (p', up')) ->
    Q p' /\ Forall Q up'.
Proof.
  induction n as [c s|nm a cls ch IH] using node_induction;
    intros parent up el p' up' Hn Hp Hup Hf.
  - simpl in Hf. destruct (pred s); [|discriminate].
    injection Hf as _ <- <-. split; assumption.
  - simpl in Hf. apply first_some_Some in Hf. destruct Hf as [c [Hc Hf]].
    rewrite Forall_forall in IH.
    apply (IH c Hc _ _ _ _ _) in Hf; [exact Hf| |apply Hn; apply subtree_refl|].
    + intros x Hx. apply Hn. eapply subtree_child; eassumption.
    + constructor; assumption.
Qed.

(** The container of a found string lies in the document. *)
Lemma find_string_chain (pred : str -> bool) (soup : node) el p' up' :
  find_string pred soup = Some (el, (p', up')) ->
  subtree p' soup /\ Forall (fun x => subtree x soup) up'.
Proof.
  unfold find_string. intros Hf.
  apply first_some_Some in Hf. destruct Hf as [c [Hc Hf]].
  apply (find_string_in_chain (fun x => subtree x soup)) in Hf; [exact Hf| | |].
  - intros x Hx. eapply subtree_trans; [exact Hx|]. apply children_subtree. exact Hc.
  - apply subtree_refl.
  - constructor.
Qed.

(** A string satisfies [pred] when [find_string_in] returns it, and it is
    a string of the node searched. *)
Lemma find_string_in_found (pred : str -> bool) (n : node) :
  forall parent up el p' up',
    find_string_in pred parent up n = Some (el, (p', up')) ->
    pred el = true /\ In el (map snd (all_strings n)).
Proof.
  induction n as [c s|nm a cls ch IH] using node_induction;
    intros parent up el p' up' Hf.
  - simpl in Hf. destruct (pred s) eqn:E; [|discriminate].
    injection Hf as <- _ _. split; [exact E|left; reflexivity].
  - simpl in Hf. apply first_some_Some in Hf. destruct Hf as [c [Hc Hf]].
    rewrite Forall_forall in IH. apply (IH c Hc) in Hf.
    destruct Hf as [Hp Hin]. split; [exact Hp|].
    simpl. rewrite concat_map. apply in_concat.
    exists (map snd (all_strings c)). split; [|exact Hin].
    apply in_map. apply in_map. exact Hc.
Qed.

(** Nothing is found exactly when no string of the node satisfies the
    predicate. *)
Lemma find_string_in_None (pred : str -> bool) (n : node) :
  forall parent up,
    find_string_in pred parent up n = None <->
    forall s, In s (map snd (all_strings n)) -> pred s = false.
Proof.
  induction n as [c s|nm a cls ch IH] using node_induction; intros parent up.
  - simpl. destruct (pred s) eqn:E.
    + split; [discriminate|]. intros H.
      specialize (H s (or_introl eq_refl)). congruence.
    + split; [|reflexivity]. intros _ s' [<-|[]]. exact E.
  - simpl. rewrite first_some_None. rewrite Forall_forall in IH. split.
    + intros H s Hs. rewrite concat_map in Hs. apply in_concat in Hs.
      destruct Hs as [l [Hl Hs]]. apply in_map_iff in Hl. destruct Hl as [l' [<- Hl']].
      apply in_map_iff in Hl'. destruct Hl' as [c [<- Hc]].
      specialize (H c Hc). rewrite (IH c Hc) in H. apply H. exact Hs.
    + intros H c Hc. apply (IH c Hc). intros s Hs. apply H.
      rewrite concat_map. apply in_concat.
      exists (map snd (all_strings c)). split; [|exact Hs].
      apply in_map. apply in_map. exact Hc.
Qed.

End SoupFacts.

(* ===================================================================== *)
(** * Facts about the regular-expression matcher *)
(* ===================================================================== *)

Module ReFacts.
Import Py Re.

(** [suffix s' s]: [s'] is what is left of [s] after some prefix. *)
Definition suffix (s' s : str) : Prop := exists pre, s = pre ++ s'.

Lemma suffix_refl (s : str) : suffix s s.
Proof. exists []. reflexivity. Qed.

Lemma suffix_trans (a b c : str) : suffix a b -> suffix b c -> suffix a c.
Proof.
  intros [p ->] [q ->]. exists (q ++ p). rewrite app_assoc. reflexivity.
Qed.

(** A matcher is sound when a result can only come from its continuation,
    called on a suffix of the text. *)
Definition sound (m : matcher) : Prop :=
  forall s k res, m s k = Some res -> exists s', suffix s' s /\ k s' = Some res.

Lemma step_sound (p : N -> bool) : sound (step p).
Proof.
  intros [|c t] k res; simpl; [discriminate|].
  destruct (p c); [|discriminate]. intros Hk.
  exists t. split; [exists [c]; reflexivity|exact Hk].
Qed.

Lemma star_loop_sound (m : matcher) (k : str -> option str) :
  sound m ->
  forall fuel s res, star_loop m k fuel s = Some res ->
    exists s', suffix s' s /\ k s' = Some res.
Proof.
  intros Hm. induction fuel as [|fuel IH]; intros s res; simpl.
  - intros Hk. exists s. split; [apply suffix_refl|exact Hk].
  - destruct (m s _) as [res'|] eqn:E.
    + intros H. injection H as ->.
      apply Hm in E. destruct E as [s1 [Hs1 Hk1]].
      destruct (length s1 <? length s)%nat; [|discriminate].
      apply IH in Hk1. destruct Hk1 as [s2 [Hs2 Hk2]].
      exists s2. split; [eapply suffix_trans; eassumption|exact Hk2].
    + intros Hk. exists s. split; [apply suffix_refl|exact Hk].
Qed.

Lemma rep_loop_sound (m : matcher) (k : str -> option str) :
  sound m ->
  forall hi lo s res, rep_loop m k lo hi s = Some res ->
    exists s', suffix s' s /\ k s' = Some res.
Proof.
  intros Hm. induction hi as [|hi IH]; intros lo s res; simpl.
  - intros Hk. exists s. split; [apply suffix_refl|exact Hk].
  - destruct (m s _) as [res'|] eqn:E.
    + intros H. injection H as ->.
      apply Hm in E. destruct E as [s1 [Hs1 Hk1]].
      apply IH in Hk1. destruct Hk1 as [s2 [Hs2 Hk2]].
      exists s2. split; [eapply suffix_trans; eassumption|exact Hk2].
    + destruct (lo =? 0)%nat; [|discriminate].
      intros Hk. exists s. split; [apply suffix_refl|exact Hk].
Qed.

(** Every pattern gives a sound matcher. *)
Lemma matches_sound `{Unicode} (r : regex) : sound (matches r).
Proof.
  induction r as [c| | |cs|a IHa b IHb|a IHa b IHb|a IHa|a IHa|a IHa|lo hi a IHa];
    intros s k res; simpl.
  - apply step_sound.
  - apply step_sound.
  - apply step_sound.
  - apply step_sound.
  - intros Hm. apply IHa in Hm. destruct Hm as [s1 [Hs1 Hm]].
    apply IHb in Hm. destruct Hm as [s2 [Hs2 Hk]].
    exists s2. split; [eapply suffix_trans; eassumption|exact Hk].
  - destruct (matches a s k) as [res'|] eqn:E.
    + intros Hr. injection Hr as ->. apply IHa. exact E.
    + apply IHb.
  - destruct (matches a s k) as [res'|] eqn:E.
    + intros Hr. injection Hr as ->. apply IHa. exact E.
    + intros Hk. exists s. split; [apply suffix_refl|exact Hk].
  - apply star_loop_sound. exact IHa.
  - intros Hm. apply IHa in Hm. destruct Hm as [s1 [Hs1 Hm]].
    apply (star_loop_sound _ _ IHa) in Hm. destruct Hm as [s2 [Hs2 Hk]].
    exists s2. split; [eapply suffix_trans; eassumption|exact Hk].
  - apply rep_loop_sound. exact IHa.
Qed.

(** A pattern that ends with the literal [c]: what its match consumed
    ends with [c]. *)
Lemma matches_ends_with `{Unicode} (r : regex) (c : N) (s rest : str) :
  matches (Seq r (Chr c)) s (fun x => Some x) = Some rest ->
  exists pre, s = pre ++ c :: rest.
Proof.
  simpl. intros Hm. apply matches_sound in Hm.
  destruct Hm as [s1 [[pre ->] Hk]].
  destruct s1 as [|x t]; simpl in Hk; [discriminate|].
  destruct (N.eqb_spec c x) as [->|]; [|discriminate].
  injection Hk as ->. exists pre. reflexivity.
Qed.

Lemma firstn_consumed (pre : str) (c : N) (rest : str) :
  firstn (length (pre ++ c :: rest) - length rest) (pre ++ c :: rest) = pre ++ [c].
Proof.
  replace (length (pre ++ c :: rest) - length rest)%nat with (length (pre ++ [c]) + 0)%nat.
  - change (pre ++ c :: rest) with (pre ++ [c] ++ rest).
    rewrite app_assoc, firstn_app_2. simpl. apply app_nil_r.
  - rewrite !length_app. simpl. lia.
Qed.

(** [search] returns the match of some suffix of the text. *)
Lemma search_found `{Unicode} (r : regex) (s g : str) :
  search r s = Some g -> exists s', suffix s' s /\ match_here r s' = Some g.
Proof.
  induction s as [|x t IH]; simpl.
  - destruct (match_here r []) as [g'|] eqn:E; [|discriminate].
    intros Hg. injection Hg as ->. exists []. split; [apply suffix_refl|exact E].
  - destruct (match_here r (x :: t)) as [g'|] eqn:E.
    + intros Hg. injection Hg as ->. exists (x :: t). split; [apply suffix_refl|exact E].
    + intros Hg. apply IH in Hg. destruct Hg as [s' [[pre ->] Hm]].
      exists s'. split; [exists (x :: pre); reflexivity|exact Hm].
Qed.

End ReFacts.

(* ===================================================================== *)
(** * Properties of the price extractors *)
(* ===================================================================== *)

Module ExtractFacts.
Import Py Dict UrlLib Soup Re Net Json App PyFacts SoupFacts ReFacts.

(** ** The price pattern *)

(** A match of the price pattern ends with the euro sign. *)
Lemma price_match_ends_with_euro `{Unicode} (s g : str) :
  search PRICE_REGEX s = Some g -> exists pre, g = pre ++ [8364].
Proof.
  intros Hs. apply search_found in Hs. destruct Hs as [s' [_ Hm]].
  unfold match_here in Hm.
  destruct (matches PRICE_REGEX s' (fun rest => Some rest)) as [rest|] eqn:E;
    [|discriminate].
  injection Hm as <-.
  change (matches PRICE_REGEX s' (fun rest => Some rest))
    with (matches
            (Seq (Seq (Alt (Seq (Rep 1 3 Digit)
                                (Star (Seq (OneOf [46; 44]) (Rep 3 3 Digit))))
                           (Plus Digit))
                      (Seq (Opt (Seq (OneOf [46; 44]) (Rep 2 2 Digit)))
                           (Star Space)))
                 (Chr 8364)) s' (fun x => Some x)) in E.
  apply matches_ends_with in E. destruct E as [pre ->].
  exists pre. apply firstn_consumed.
Qed.

Lemma lit_NA : lit "N/A" = [78; 47; 65].
Proof. vm_compute. reflexivity. Qed.

(** The stripped match is a non-empty text other than the sentinel, so
    [or "N/A"] leaves it as it is. *)
Lemma stripped_price_kept `{Unicode} (s g : str) :
  search PRICE_REGEX s = Some g ->
  or_NA (Some (strip g)) = strip g /\ strip g <> lit "N/A".
Proof.
  intros Hs. apply price_match_ends_with_euro in Hs. destruct Hs as [pre ->].
  destruct (strip_keeps_last pre 8364 eq_refl) as [pre' ->].
  split.
  - unfold or_NA. destruct pre'; reflexivity.
  - rewrite lit_NA. intros E. apply (f_equal (@rev N)) in E.
    rewrite rev_app_distr in E. simpl in E. discriminate.
Qed.

(** ** Price texts of a container *)

Lemma hd_error_flat_map_option (A B : Type) (g : A -> option B) (l : list A) :
  hd_error (flat_map (fun x => match g x with
                               | Some y => [y]
                               | None => []
                               end) l)
  = match hd_error (filter (fun x => match g x with
                                     | Some _ => true
                                     | None => false
                                     end) l) with
    | Some x => g x
    | None => None
    end.
Proof.
  induction l as [|x r IH]; simpl; [reflexivity|].
  destruct (g x) as [y|] eqn:E; simpl.
  - rewrite E. reflexivity.
  - exact IH.
Qed.

(** The first price text of a container is the stripped match in its
    first priced fragment. *)
Lemma hd_price_matches `{Unicode} (c : node) :
  hd_error (price_matches c)
  = match hd_error (priced_fragments c) with
    | Some s => option_map strip (search PRICE_REGEX s)
    | None => None
    end.
Proof.
  unfold price_matches, priced_fragments.
  set (l := find_all_strings (contains EURO) c). clearbody l.
  induction l as [|x r IH]; simpl; [reflexivity|].
  destruct (search PRICE_REGEX x) as [m|] eqn:E; simpl.
  - rewrite E. reflexivity.
  - exact IH.
Qed.

Lemma price_matches_nil_iff `{Unicode} (c : node) :
  price_matches c = [] <-> priced_fragments c = [].
Proof.
  unfold price_matches, priced_fragments.
  set (l := find_all_strings (contains EURO) c). clearbody l.
  induction l as [|x r IH]; simpl; [tauto|].
  destruct (search PRICE_REGEX x) as [m|]; simpl.
  - split; discriminate.
  - exact IH.
Qed.

(** ** The loop over the anchors *)

Lemma lowest_by_anchor_None `{Unicode} (soup : node) (anchors : list str) :
  lowest_by_anchor soup anchors = None <->
  forall a, In a anchors -> anchor_yields_nothing soup a.
Proof.
  unfold anchor_yields_nothing.
  induction anchors as [|a rest IH]; simpl.
  - split; [intros _ a []|reflexivity].
  - destruct (anchor_container soup a) as [c|] eqn:Ec.
    + destruct (price_matches c) as [|p ps] eqn:Ep.
      * rewrite IH. split.
        -- intros Hr b [<-|Hb]; [rewrite Ec; exact Ep|apply Hr; exact Hb].
        -- intros Hr b Hb. apply Hr. right. exact Hb.
      * split; [discriminate|]. intros Hr.
        specialize (Hr a (or_introl eq_refl)). rewrite Ec, Ep in Hr. discriminate.
    + rewrite IH. split.
      * intros Hr b [<-|Hb]; [rewrite Ec; exact I|apply Hr; exact Hb].
      * intros Hr b Hb. apply Hr. right. exact Hb.
Qed.

(** The first anchor, in list order, whose container holds a price text
    decides the result. *)
Lemma lowest_by_anchor_first `{Unicode} (soup : node) (pre : list str) (a : str)
  (post : list str) (c : node) (p : str) (ps : list str) :
  (forall b, In b pre -> anchor_yields_nothing soup b) ->
  anchor_container soup a = Some c ->
  price_matches c = p :: ps ->
  lowest_by_anchor soup (pre ++ a :: post) = Some p.
Proof.
  intros Hpre Hc Hp. induction pre as [|b pre IH]; simpl.
  - rewrite Hc, Hp. reflexivity.
  - assert (Hb : anchor_yields_nothing soup b) by (apply Hpre; left; reflexivity).
    unfold anchor_yields_nothing in Hb.
    destruct (anchor_container soup b) as [cb|].
    + rewrite Hb. apply IH. intros x Hx. apply Hpre. right. exact Hx.
    + apply IH. intros x Hx. apply Hpre. right. exact Hx.
Qed.

(** ** Pages without currency text *)

Lemma smallest_common_ancestor_in_chain `{Unicode} (chain : list node)
  (keywords : list str) (c : node) :
  smallest_common_ancestor_with_keywords chain keywords = Some c -> In c chain.
Proof.
  induction chain as [|cur up IH]; simpl; [discriminate|].
  destruct (existsb _ keywords).
  - intros E. injection E as ->. left. reflexivity.
  - intros E. right. apply IH. exact E.
Qed.

(** The container of an anchor is a node of the page. *)
Lemma anchor_container_subtree `{Unicode} (soup : node) (a : str) (c : node) :
  anchor_container soup a = Some c -> subtree c soup.
Proof.
  unfold anchor_container.
  destruct (find_string _ soup) as [[el [parent up]]|] eqn:Ef; [|discriminate].
  apply find_string_chain in Ef. destruct Ef as [Hp Hup].
  destruct (Py.truthy el); [|discriminate].
  destruct (smallest_common_ancestor_with_keywords (parent :: up) PRICE_TREND_ANCHORS)
    as [c'|] eqn:Es.
  - intros E. injection E as ->.
    apply smallest_common_ancestor_in_chain in Es. destruct Es as [<-|Hin].
    + exact Hp.
    + rewrite Forall_forall in Hup. apply Hup. exact Hin.
  - intros E. injection E as ->. exact Hp.
Qed.

Lemma filter_nil (A : Type) (f : A -> bool) (l : list A) :
  (forall x, In x l -> f x = false) -> filter f l = [].
Proof.
  induction l as [|x r IH]; simpl; [reflexivity|].
  intros Hall. rewrite (Hall x (or_introl eq_refl)).
  apply IH. intros y Hy. apply Hall. right. exact Hy.
Qed.

(** On a page without currency text no node holds a string with the euro
    sign. *)
Lemma no_currency_text_subtree (top : list node) (c : node) (s : str) :
  no_currency_text (document top) = true ->
  subtree c (document top) ->
  In s (map snd (descendant_strings c)) ->
  contains EURO s = false.
Proof.
  unfold no_currency_text. rewrite forallb_forall. intros Hno Hsub Hin.
  apply in_map_iff in Hin. destruct Hin as [[cl s'] [<- Hin]].
  apply (descendant_strings_subtree _ _ Hsub) in Hin.
  apply Hno in Hin. simpl in Hin. simpl.
  destruct (contains EURO s'); [discriminate|reflexivity].
Qed.

Lemma no_currency_text_price_matches `{Unicode} (top : list node) (c : node) :
  no_currency_text (document top) = true ->
  subtree c (document top) ->
  price_matches c = [].
Proof.
  intros Hno Hsub. unfold price_matches, find_all_strings.
  rewrite filter_nil; [reflexivity|].
  intros s Hs. eapply no_currency_text_subtree; eassumption.
Qed.

(** The lowest-price extractor finds nothing on a page without currency
    text. *)
Lemma extract_lowest_price_no_currency `{Unicode} `{Html} (html : str) :
  no_currency_text (document (html_parser html)) = true ->
  extract_lowest_price html = None.
Proof.
  intros Hno. unfold extract_lowest_price.
  assert (Hloop : lowest_by_anchor (document (html_parser html)) PRICE_TREND_ANCHORS = None).
  { apply lowest_by_anchor_None. intros a _. unfold anchor_yields_nothing.
    destruct (anchor_container (document (html_parser html)) a) as [c|] eqn:Ec; [|exact I].
    apply anchor_container_subtree in Ec.
    eapply no_currency_text_price_matches; eassumption. }
  rewrite Hloop.
  rewrite (no_currency_text_price_matches _ _ Hno (subtree_refl _)). reflexivity.
Qed.

(** The rows the median extractor looks at are nodes of the page. *)
Lemma offer_rows_subtree (soup : node) (rows : list node) (row : node) :
  offer_rows soup = Some rows -> In row rows -> subtree row soup.
Proof.
  unfold offer_rows, find_tag.
  destruct (find _ (descendant_tags soup)) as [cont|] eqn:Ef; [|discriminate].
  apply find_some in Ef. destruct Ef as [Hcont _].
  apply descendant_tags_subtree in Hcont.
  destruct (find_all_children (lit "div") cont) as [|r0 rs] eqn:Er.
  - intros E Hin. injection E as <-.
    unfold find_all_tags in Hin. apply filter_In in Hin. destruct Hin as [Hin _].
    apply descendant_tags_subtree in Hin.
    eapply subtree_trans; eassumption.
  - intros E Hin. injection E as <-. rewrite <- Er in Hin.
    unfold find_all_children in Hin. apply filter_In in Hin. destruct Hin as [Hin _].
    apply children_subtree in Hin.
    eapply subtree_trans; eassumption.
Qed.

Lemma row_price_no_currency (top : list node) (row : node) :
  no_currency_text (document top) = true ->
  subtree row (document top) ->
  row_price row = None.
Proof.
  intros Hno Hsub. unfold row_price.
  rewrite filter_nil; [reflexivity|].
  intros s Hs. unfold stripped_strings in Hs.
  apply filter_In in Hs. destruct Hs as [Hs _].
  apply in_map_iff in Hs. destruct Hs as [cs [<- Hcs]].
  apply filter_In in Hcs. destruct Hcs as [Hcs _].
  destruct (contains EURO (strip (snd cs))) eqn:E; [|reflexivity].
  apply contains_strip in E.
  rewrite (no_currency_text_subtree top row (snd cs) Hno Hsub) in E; [discriminate|].
  apply in_map. exact Hcs.
Qed.

(** The median-price extractor finds nothing on a page without currency
    text. *)
Lemma extract_median_price_no_currency `{Html} (html : str) :
  no_currency_text (document (html_parser html)) = true ->
  extract_median_price html = Ok None.
Proof.
  intros Hno. unfold extract_median_price.
  destruct (offer_rows (document (html_parser html))) as [rows|] eqn:Er; [|reflexivity].
  destruct rows as [|r0 rs] eqn:Erows; [reflexivity|]. rewrite <- Erows in *.
  destruct (MedianFacts.extract_median_price_rows html Er ltac:(subst; discriminate))
    as [row [Hnth [Hidx _]]].
  rewrite Hidx. simpl.
  rewrite (row_price_no_currency _ row Hno); [reflexivity|].
  eapply offer_rows_subtree; [exact Er|]. eapply nth_error_In. exact Hnth.
Qed.

(** ** The sentinel *)

(** C2: when the pages fetched for a query hold no text with the euro
    sign, both price extractors find nothing and the pipeline yields
    exactly "N/A" for the lowest and for the median price: the result
    triple holds "N/A" twice and the response carries both fields, each
    the string "N/A" (neither empty, nor null, nor left out). *)
Theorem no_currency_text_yields_NA
  `{HostChecks} `{Unicode} `{Html} `{Network}
  (card_id product_url filtered_url median_url : str)
  (r_lowest r_median : response) (log log1 : list str) :
  find_product_url card_id make_session log = (Ok product_url, log1) ->
  add_filters product_url DEFAULT_FILTERS = Ok filtered_url ->
  make_session filtered_url = Ok r_lowest ->
  add_filters product_url median_filters = Ok median_url ->
  make_session median_url = Ok r_median ->
  no_currency_text (document (html_parser (text r_lowest))) = true ->
  no_currency_text (document (html_parser (text r_median))) = true ->
  or_NA (extract_lowest_price (text r_lowest)) = lit "N/A" /\
  (exists m, extract_median_price (text r_median) = Ok m /\ or_NA m = lit "N/A") /\
  get_prices_for_query card_id log =
    (Ok (lit "N/A", lit "N/A", filtered_url),
     (log1 ++ [filtered_url]) ++ [median_url]) /\
  forall d, member (lit "query") d = JStr card_id -> card_id <> [] ->
    get_prices (JObj d) log =
      (Ok (mkHttp 200 (JObj [ (lit "lowest", JStr (lit "N/A"));
                              (lit "median", JStr (lit "N/A"));
                              (lit "url", JStr filtered_url) ])),
       (log1 ++ [filtered_url]) ++ [median_url]).
Proof.
  intros Hf Ha1 Hs1 Ha2 Hs2 Hno1 Hno2.
  pose proof (extract_lowest_price_no_currency _ Hno1) as Hlow.
  pose proof (extract_median_price_no_currency _ Hno2) as Hmed.
  assert (Hq : get_prices_for_query card_id log =
               (Ok (lit "N/A", lit "N/A", filtered_url),
                (log1 ++ [filtered_url]) ++ [median_url])).
  { unfold get_prices_for_query, iobind, lift, get, ret. cbv zeta.
    rewrite Hf, Ha1, Hs1, Ha2, Hs2, Hlow, Hmed. reflexivity. }
  split; [rewrite Hlow; reflexivity|].
  split; [exists None; split; [exact Hmed|reflexivity]|].
  split; [exact Hq|].
  intros d Hm Hne.
  unfold get_prices, iobind at 1, ret at 1. rewrite Hm.
  assert (Ht : Json.truthy (JStr card_id) = true)
    by (destruct card_id; [congruence|reflexivity]).
  rewrite Ht. cbn [negb].
  unfold try_except, iobind. rewrite Hq. reflexivity.
Qed.

(** A query answered by redirect with a product page that shows no price
    at all: the response is 200 with "N/A" in both price fields. *)
Lemma no_currency_text_yields_NA_witness :
  @get_prices Sample.lenient_hosts Sample.ascii_unicode (Sample.page Sample.sold_out)
    (Sample.site Sample.product_page Sample.listing) (Sample.query_body "Pikachu") [] =
  (Ok (mkHttp 200
         (JObj [ (lit "lowest", JStr (lit "N/A"));
                 (lit "median", JStr (lit "N/A"));
                 (lit "url", JStr (lit "https://www.cardmarket.com/fr/Pokemon/Products/Singles/Base-Set/Pikachu?sellerCountry=12&language=2&minCondition=2")) ])),
   [ SEARCH_BASE ++ lit "Pikachu";
     lit "https://www.cardmarket.com/fr/Pokemon/Products/Singles/Base-Set/Pikachu?sellerCountry=12&language=2&minCondition=2";
     lit "https://www.cardmarket.com/fr/Pokemon/Products/Singles/Base-Set/Pikachu?sellerCountry=12&sellerType=1&language=2&minCondition=2" ]).
Proof.
  pose proof (@no_currency_text_yields_NA
                Sample.lenient_hosts Sample.ascii_unicode (Sample.page Sample.sold_out)
                (Sample.site Sample.product_page Sample.listing)
                (lit "Pikachu")
                (url Sample.product_page)
                (lit "https://www.cardmarket.com/fr/Pokemon/Products/Singles/Base-Set/Pikachu?sellerCountry=12&language=2&minCondition=2")
                (lit "https://www.cardmarket.com/fr/Pokemon/Products/Singles/Base-Set/Pikachu?sellerCountry=12&sellerType=1&language=2&minCondition=2")
                Sample.listing Sample.listing [] [SEARCH_BASE ++ lit "Pikachu"]
                ltac:(vm_compute; reflexivity) ltac:(vm_compute; reflexivity)
                ltac:(vm_compute; reflexivity) ltac:(vm_compute; reflexivity)
                ltac:(vm_compute; reflexivity) ltac:(vm_compute; reflexivity)
                ltac:(vm_compute; reflexivity)) as [_ [_ [_ W]]].
  specialize (W [(lit "query", JStr (lit "Pikachu"))]
                ltac:(vm_compute; reflexivity) ltac:(vm_compute; discriminate)).
  vm_compute in W |- *. exact W.
Defined.

(** ** The order of the anchors *)

(** C6 as stated fails: the page holds both "tendance des prix" and
    "price trend"; the first configured anchor is found, its container is
    its own paragraph, which holds no price; the loop moves on, and the
    result is the price in the container of "price trend", not one
    resolved from the first anchor found (nor the first price of the
    page, which the fallback would have given). *)
Lemma later_anchor_decides :
  let U := Sample.ascii_unicode in
  let H := Sample.page Sample.first_label_bare in
  let soup := document Sample.first_label_bare in
  exists c0 c1,
    anchor_container soup (lit "tendance des prix") = Some c0 /\
    price_matches c0 = [] /\
    anchor_container soup (lit "price trend") = Some c1 /\
    hd_error (price_matches c1) = Some (lit "5,00 €") /\
    hd_error (price_matches soup) = Some (lit "9,99 €") /\
    extract_lowest_price [] = Some (lit "5,00 €") /\
    extract_lowest_price [] <> hd_error (price_matches c0).
Proof.
  intros U H soup.
  exists (Sample.el "p" [Sample.txt "tendance des prix"]).
  exists (Sample.el "p" [Sample.txt "price trend "; Sample.el "b" [Sample.txt "5,00 €"]]).
  repeat split; try (vm_compute; reflexivity).
  vm_compute. discriminate.
Qed.

(** C6, amended: the anchors are tried in the order of the list and the
    first one whose bounded container holds a price text decides: the
    result is the first price text of that one container.  An anchor
    that is found but whose container holds no price text is passed
    over, like one that is not found.  So on a page with both "tendance
    des prix" and "price trend" the container of "tendance des prix"
    decides whenever it holds a price text. *)
Theorem first_priced_anchor_decides `{Unicode} `{Html}
  (html : str) (pre : list str) (a : str) (post : list str)
  (c : node) (p : str) (ps : list str) :
  PRICE_TREND_ANCHORS = pre ++ a :: post ->
  (forall b, In b pre -> anchor_yields_nothing (document (html_parser html)) b) ->
  anchor_container (document (html_parser html)) a = Some c ->
  price_matches c = p :: ps ->
  extract_lowest_price html = Some p.
Proof.
  intros Hl Hpre Hc Hp. unfold extract_lowest_price.
  rewrite Hl. rewrite (lowest_by_anchor_first _ pre a post c p ps Hpre Hc Hp).
  reflexivity.
Qed.

(** Both labels with a price each: the price beside "tendance des prix"
    is returned. *)
Lemma first_priced_anchor_decides_witness :
  @extract_lowest_price Sample.ascii_unicode (Sample.page Sample.two_labels) [] =
  Some (lit "3,00 €").
Proof.
  pose proof (@first_priced_anchor_decides
                Sample.ascii_unicode (Sample.page Sample.two_labels)
                [] [] (lit "tendance des prix") (tl PRICE_TREND_ANCHORS)
                (Sample.el "p" [Sample.txt "tendance des prix ";
                                Sample.el "b" [Sample.txt "3,00 €"]])
                (lit "3,00 €") []
                ltac:(vm_compute; reflexivity)
                (fun b (Hb : In b []) => match Hb with end)
                ltac:(vm_compute; reflexivity)
                ltac:(vm_compute; reflexivity)) as W.
  exact W.
Defined.

(** ** The fallback *)

(** C8 as stated fails: no anchor occurs on the page and its only text,
    "from 5,00 € only", holds the euro sign and a match of the price
    pattern; the extractor returns the matched price "5,00 €", not the
    text fragment. *)
Lemma fallback_returns_match_not_fragment :
  let U := Sample.ascii_unicode in
  let H := Sample.page Sample.loose_price in
  let soup := document Sample.loose_price in
  lowest_by_anchor soup PRICE_TREND_ANCHORS = None /\
  find_all_strings (contains EURO) soup = [lit "from 5,00 € only"] /\
  priced_fragments soup = [lit "from 5,00 € only"] /\
  extract_lowest_price [] = Some (lit "5,00 €") /\
  extract_lowest_price [] <> Some (lit "from 5,00 € only").
Proof.
  intros U H soup.
  repeat split; try (vm_compute; reflexivity).
  vm_compute. discriminate.
Qed.

(** C8, amended: when the loop over the anchors returns nothing (for
    each anchor, no text node holds it or its bounded container holds no
    price text), the extractor scans the whole document and returns the
    stripped match of the price pattern in the first text fragment that
    holds the euro sign and has such a match; the pipeline turns the
    result into "N/A" only if no fragment of the document is one. *)
Theorem fallback_returns_first_priced_match `{Unicode} `{Html} (html : str) :
  (forall a, In a PRICE_TREND_ANCHORS ->
             anchor_yields_nothing (document (html_parser html)) a) ->
  extract_lowest_price html
  = match hd_error (priced_fragments (document (html_parser html))) with
    | Some s => option_map strip (search PRICE_REGEX s)
    | None => None
    end /\
  (or_NA (extract_lowest_price html) = lit "N/A" <->
   priced_fragments (document (html_parser html)) = []).
Proof.
  intros Hnone. apply lowest_by_anchor_None in Hnone.
  assert (E : extract_lowest_price html
              = match hd_error (priced_fragments (document (html_parser html))) with
                | Some s => option_map strip (search PRICE_REGEX s)
                | None => None
                end).
  { unfold extract_lowest_price. rewrite Hnone. apply hd_price_matches. }
  split; [exact E|]. rewrite E.
  destruct (priced_fragments (document (html_parser html))) as [|s r] eqn:Ef.
  - split; reflexivity.
  - split; [|discriminate]. intros Hna. exfalso.
    assert (Hin : In s (priced_fragments (document (html_parser html))))
      by (rewrite Ef; left; reflexivity).
    unfold priced_fragments in Hin. apply filter_In in Hin. destruct Hin as [_ Hs].
    destruct (search PRICE_REGEX s) as [g|] eqn:Eg; [|discriminate].
    cbn [hd_error] in Hna. rewrite Eg in Hna. cbn [option_map] in Hna.
    destruct (stripped_price_kept s g Eg) as [Hkept Hneq].
    rewrite Hkept in Hna. contradiction.
Qed.

(** The page with a price inside a sentence: the fallback returns the
    price. *)
Lemma fallback_returns_first_priced_match_witness :
  @extract_lowest_price Sample.ascii_unicode (Sample.page Sample.loose_price) [] =
    Some (lit "5,00 €") /\
  (@extract_lowest_price Sample.ascii_unicode (Sample.page Sample.loose_price) []
   = match hd_error (@priced_fragments Sample.ascii_unicode
                       (document (@html_parser (Sample.page Sample.loose_price) []))) with
     | Some s => option_map strip (@search Sample.ascii_unicode PRICE_REGEX s)
     | None => None
     end /\
   (or_NA (@extract_lowest_price Sample.ascii_unicode (Sample.page Sample.loose_price) [])
      = lit "N/A" <->
    @priced_fragments Sample.ascii_unicode
      (document (@html_parser (Sample.page Sample.loose_price) [])) = [])).
Proof.
  split; [vm_compute; reflexivity|].
  apply (@fallback_returns_first_priced_match
           Sample.ascii_unicode (Sample.page Sample.loose_price) []).
  apply (@lowest_by_anchor_None Sample.ascii_unicode
           (document (@html_parser (Sample.page Sample.loose_price) []))
           PRICE_TREND_ANCHORS).
  vm_compute. reflexivity.
Defined.

End ExtractFacts.

(* ===================================================================== *)
(** * Facts about UTF-8 *)
(* ===================================================================== *)

Module Utf8Facts.
Import Py Utf8.

#[local] Opaque N.add N.mul N.sub N.div N.modulo.

(** Decoding a well-formed sequence of one to four bytes. *)
Lemma decode_1 (b0 : N) (rest : bytes) :
  b0 < 128 -> decode (b0 :: rest) = b0 :: decode rest.
Proof.
  intros H. cbn [decode]. rewrite (proj2 (N.ltb_lt b0 128) H). reflexivity.
Qed.

Lemma decode_2 (b0 b1 : N) (rest : bytes) :
  194 <= b0 <= 223 -> is_cont b1 = true ->
  decode (b0 :: b1 :: rest) = ((b0 - 192) * 64 + (b1 - 128)) :: decode rest.
Proof.
  intros [H1 H2] Hc. cbn [decode].
  rewrite (proj2 (N.ltb_ge b0 128)) by lia.
  rewrite (proj2 (N.leb_le 194 b0) H1), (proj2 (N.leb_le b0 223) H2), Hc.
  reflexivity.
Qed.

Lemma decode_3 (b0 b1 b2 : N) (rest : bytes) :
  224 <= b0 <= 239 -> second_ok b0 b1 = true -> is_cont b2 = true ->
  decode (b0 :: b1 :: b2 :: rest)
  = ((b0 - 224) * 4096 + (b1 - 128) * 64 + (b2 - 128)) :: decode rest.
Proof.
  intros [H1 H2] Hs Hc. cbn [decode].
  rewrite (proj2 (N.ltb_ge b0 128)) by lia.
  rewrite (proj2 (N.leb_gt b0 223)) by lia. rewrite andb_false_r.
  rewrite (proj2 (N.leb_le 224 b0) H1), (proj2 (N.leb_le b0 239) H2), Hs, Hc.
  reflexivity.
Qed.

Lemma decode_4 (b0 b1 b2 b3 : N) (rest : bytes) :
  240 <= b0 <= 244 -> second_ok b0 b1 = true -> is_cont b2 = true ->
  is_cont b3 = true ->
  decode (b0 :: b1 :: b2 :: b3 :: rest)
  = ((b0 - 240) * 262144 + (b1 - 128) * 4096 + (b2 - 128) * 64 + (b3 - 128))
      :: decode rest.
Proof.
  intros [H1 H2] Hs Hc Hd. cbn [decode].
  rewrite (proj2 (N.ltb_ge b0 128)) by lia.
  rewrite (proj2 (N.leb_gt b0 223)) by lia. rewrite andb_false_r.
  rewrite (proj2 (N.leb_gt b0 239)) by lia. rewrite andb_false_r.
  rewrite (proj2 (N.leb_le 240 b0) H1), (proj2 (N.leb_le b0 244) H2), Hs, Hc, Hd.
  reflexivity.
Qed.

Lemma is_cont_low6 (m : N) : m < 64 -> is_cont (128 + m) = true.
Proof.
  intros H. unfold is_cont. apply andb_true_intro.
  split; apply N.leb_le; lia.
Qed.

Lemma second_ok_intro (b0 b1 : N) :
  128 <= b1 <= 191 ->
  (b0 = 224 -> 160 <= b1) -> (b0 = 237 -> b1 <= 159) ->
  (b0 = 240 -> 144 <= b1) -> (b0 = 244 -> b1 <= 143) ->
  second_ok b0 b1 = true.
Proof.
  intros [L U] H224 H237 H240 H244. unfold second_ok, is_cont.
  destruct (N.eqb_spec b0 224) as [E|_];
    [apply andb_true_intro; split; apply N.leb_le; [apply H224; exact E|lia]|].
  destruct (N.eqb_spec b0 237) as [E|_];
    [apply andb_true_intro; split; apply N.leb_le; [lia|apply H237; exact E]|].
  destruct (N.eqb_spec b0 240) as [E|_];
    [apply andb_true_intro; split; apply N.leb_le; [apply H240; exact E|lia]|].
  destruct (N.eqb_spec b0 244) as [E|_];
    [apply andb_true_intro; split; apply N.leb_le; [lia|apply H244; exact E]|].
  apply andb_true_intro; split; apply N.leb_le; lia.
Qed.

(** Decoding the encoding of one code point gives it back. *)
Lemma decode_encode_cp (c : N) (b rest : bytes) :
  encode_cp c = Some b -> decode (b ++ rest) = c :: decode rest.
Proof.
  unfold encode_cp.
  pose proof (N.div_mod c 64 ltac:(lia)) as E1.
  pose proof (N.mod_lt c 64 ltac:(lia)) as M1.
  pose proof (N.div_mod (c / 64) 64 ltac:(lia)) as E2.
  pose proof (N.mod_lt (c / 64) 64 ltac:(lia)) as M2.
  pose proof (N.div_mod (c / 64 / 64) 64 ltac:(lia)) as E3.
  pose proof (N.mod_lt (c / 64 / 64) 64 ltac:(lia)) as M3.
  replace (c / 4096) with (c / 64 / 64) by (rewrite N.Div0.div_div; reflexivity).
  replace (c / 262144) with (c / 64 / 64 / 64)
    by (rewrite !N.Div0.div_div; reflexivity).
  set (q1 := c / 64) in *. set (m1 := c mod 64) in *.
  set (q2 := q1 / 64) in *. set (m2 := q1 mod 64) in *.
  set (q3 := q2 / 64) in *. set (m3 := q2 mod 64) in *.
  clearbody q1 m1 q2 m2 q3 m3.
  destruct (N.ltb_spec c 128) as [H1|H1].
  { intros E. injection E as <-. cbn [app]. apply decode_1. exact H1. }
  destruct (N.ltb_spec c 2048) as [H2|H2].
  { intros E. injection E as <-. cbn [app].
    rewrite decode_2; [f_equal; lia|lia|apply is_cont_low6; exact M1]. }
  destruct (N.ltb_spec c 65536) as [H3|H3].
  { destruct (N.leb_spec 55296 c) as [H4|H4];
      [destruct (N.leb_spec c 57343) as [H5|H5]|]; cbn [andb];
      try discriminate; intros E; injection E as <-; cbn [app];
      (rewrite decode_3;
       [f_equal; lia|lia|apply second_ok_intro; lia|apply is_cont_low6; exact M1]). }
  destruct (N.ltb_spec c 1114112) as [H4|H4]; [|discriminate].
  intros E. injection E as <-. cbn [app].
  rewrite decode_4;
    [f_equal; lia|lia|apply second_ok_intro; lia
    |apply is_cont_low6; exact M2|apply is_cont_low6; exact M1].
Qed.

(** [s.encode("utf-8").decode("utf-8", "replace") == s]. *)
Lemma decode_encode (s : str) (bs : bytes) :
  encode s = Some bs -> decode bs = s.
Proof.
  revert bs. induction s as [|c t IH]; intros bs; simpl.
  - intros E. injection E as <-. reflexivity.
  - destruct (encode_cp c) as [b|] eqn:Ec; [|discriminate].
    destruct (encode t) as [bt|] eqn:Et; [|discriminate].
    intros E. injection E as <-.
    rewrite (decode_encode_cp c b bt Ec). f_equal. apply IH. reflexivity.
Qed.

Lemma encode_cp_bytes (c : N) (b : bytes) :
  encode_cp c = Some b -> b <> [] /\ Forall (fun x => x < 256) b.
Proof.
  unfold encode_cp.
  pose proof (N.div_mod c 64 ltac:(lia)) as E1.
  pose proof (N.mod_lt c 64 ltac:(lia)) as M1.
  pose proof (N.div_mod (c / 64) 64 ltac:(lia)) as E2.
  pose proof (N.mod_lt (c / 64) 64 ltac:(lia)) as M2.
  pose proof (N.div_mod (c / 64 / 64) 64 ltac:(lia)) as E3.
  pose proof (N.mod_lt (c / 64 / 64) 64 ltac:(lia)) as M3.
  replace (c / 4096) with (c / 64 / 64) by (rewrite N.Div0.div_div; reflexivity).
  replace (c / 262144) with (c / 64 / 64 / 64)
    by (rewrite !N.Div0.div_div; reflexivity).
  set (q1 := c / 64) in *. set (m1 := c mod 64) in *.
  set (q2 := q1 / 64) in *. set (m2 := q1 mod 64) in *.
  set (q3 := q2 / 64) in *. set (m3 := q2 mod 64) in *.
  clearbody q1 m1 q2 m2 q3 m3.
  destruct (N.ltb_spec c 128) as [H1|H1].
  { intros E. injection E as <-. split; [discriminate|]. repeat constructor. lia. }
  destruct (N.ltb_spec c 2048) as [H2|H2].
  { intros E. injection E as <-. split; [discriminate|]. repeat constructor; lia. }
  destruct (N.ltb_spec c 65536) as [H3|H3].
  { destruct ((55296 <=? c) && (c <=? 57343)); [discriminate|].
    intros E. injection E as <-. split; [discriminate|]. repeat constructor; lia. }
  destruct (N.ltb_spec c 1114112) as [H4|H4]; [|discriminate].
  intros E. injection E as <-. split; [discriminate|]. repeat constructor; lia.
Qed.

Lemma encode_bytes (s : str) (bs : bytes) :
  encode s = Some bs -> Forall (fun x => x < 256) bs /\ (bs = [] -> s = []).
Proof.
  revert bs. induction s as [|c t IH]; intros bs; simpl.
  - intros E. injection E as <-. split; [constructor|reflexivity].
  - destruct (encode_cp c) as [b|] eqn:Ec; [|discriminate].
    destruct (encode t) as [bt|] eqn:Et; [|discriminate].
    intros E. injection E as <-.
    destruct (encode_cp_bytes c b Ec) as [Hne Hb].
    destruct (IH bt eq_refl) as [Hbt _]. split.
    + apply Forall_app. split; assumption.
    + intros E. apply app_eq_nil in E. destruct E as [E _]. contradiction.
Qed.

(** Decoding never gives the empty string for bytes that are there. *)
Lemma decode_nonempty (bs : bytes) : bs <> [] -> decode bs <> [].
Proof.
  destruct bs as [|b0 r0]; [congruence|]. intros _. cbn [decode].
  destruct (b0 <? 128); [discriminate|].
  destruct ((194 <=? b0) && (b0 <=? 223)).
  { destruct r0 as [|b1 r1]; [discriminate|]. destruct (is_cont b1); discriminate. }
  destruct ((224 <=? b0) && (b0 <=? 239)).
  { destruct r0 as [|b1 r1]; [discriminate|].
    destruct (second_ok b0 b1); [|discriminate].
    destruct r1 as [|b2 r2]; [discriminate|]. destruct (is_cont b2); discriminate. }
  destruct ((240 <=? b0) && (b0 <=? 244)); [|discriminate].
  destruct r0 as [|b1 r1]; [discriminate|].
  destruct (second_ok b0 b1); [|discriminate].
  destruct r1 as [|b2 r2]; [discriminate|]. destruct (is_cont b2); [|discriminate].
  destruct r2 as [|b3 r3]; [discriminate|]. destruct (is_cont b3); discriminate.
Qed.

End Utf8Facts.

(* ===================================================================== *)
(** * Facts about percent-encoding *)
(* ===================================================================== *)

Module QuoteFacts.
Import Py Dict UrlLib PyFacts Utf8Facts.

(** A property of bytes that holds of the 256 of them. *)
Lemma forall_bytes (P : N -> bool) :
  forallb P (map N.of_nat (seq 0 256)) = true ->
  forall b, b < 256 -> P b = true.
Proof.
  intros H b Hb. rewrite forallb_forall in H. apply H.
  apply in_map_iff. exists (N.to_nat b). split; [apply N2Nat.id|].
  apply in_seq. lia.
Qed.

(** The characters [quote_plus] writes: unreserved ones, ['+'] and ['%']. *)
Definition quoted_char (c : N) : bool := always_safe c || (c =? 43) || (c =? 37).

Definition quote_byte_spec (b : N) : bool :=
  forallb quoted_char (quote_byte b) &&
  match plus_to_space (quote_byte b) with
  | [c] => (c =? b) && negb (c =? 37)
  | [p; h; l] =>
    (p =? 37) &&
    match hexval h, hexval l with
    | Some a, Some d => 16 * a + d =? b
    | _, _ => false
    end
  | _ => false
  end.

Lemma quote_byte_spec_holds (b : N) : b < 256 -> quote_byte_spec b = true.
Proof. apply forall_bytes. vm_compute. reflexivity. Qed.

Lemma quoted_char_ascii (c : N) : quoted_char c = true -> c < 128.
Proof.
  intros H. destruct (N.ltb_spec c 128) as [Hlt|Hge]; [exact Hlt|].
  exfalso. revert H.
  unfold quoted_char, always_safe, is_ascii_alpha, is_upper, is_lower, is_ascii_digit.
  rewrite (proj2 (N.leb_gt c 90)), (proj2 (N.leb_gt c 122)), (proj2 (N.leb_gt c 57)) by lia.
  rewrite (proj2 (N.eqb_neq c 95)), (proj2 (N.eqb_neq c 46)), (proj2 (N.eqb_neq c 45)),
    (proj2 (N.eqb_neq c 126)), (proj2 (N.eqb_neq c 43)), (proj2 (N.eqb_neq c 37)) by lia.
  rewrite !andb_false_r. discriminate.
Qed.

(** A quoted character is none of the delimiters of a URL or of a query
    string, and none of the characters [urlsplit] removes. *)
Definition plain_char (c : N) : bool :=
  negb (c =? 38) && negb (c =? 61) && negb (c =? 35) && negb (c =? 63)
  && negb (c =? 59) && negb (c =? 47) && negb (c =? 58)
  && negb (is_unsafe c) && negb (c <=? 32).

Lemma quoted_char_plain (c : N) : quoted_char c = true -> plain_char c = true.
Proof.
  intros H. pose proof (quoted_char_ascii c H) as Hlt.
  assert (Hb : implb (quoted_char c) (plain_char c) = true).
  { apply (forall_bytes (fun c => implb (quoted_char c) (plain_char c)));
      [vm_compute; reflexivity|lia]. }
  rewrite H in Hb. exact Hb.
Qed.

Lemma quote_byte_chars (b : N) : b < 256 -> Forall (fun c => quoted_char c = true) (quote_byte b).
Proof.
  intros Hb. pose proof (quote_byte_spec_holds b Hb) as H.
  unfold quote_byte_spec in H. apply andb_true_iff in H. destruct H as [H _].
  apply Forall_forall. apply forallb_forall. exact H.
Qed.

Lemma quote_byte_nonempty (b : N) : quote_byte b <> [].
Proof.
  unfold quote_byte. destruct (always_safe b); [discriminate|].
  destruct (b =? 32); discriminate.
Qed.

Lemma plus_to_space_app (a b : str) :
  plus_to_space (a ++ b) = plus_to_space a ++ plus_to_space b.
Proof. apply map_app. Qed.

(** Unquoting what one byte was quoted to gives the byte, whatever
    follows. *)
Lemma unquote_quote_byte (b : N) (rest : str) :
  b < 256 ->
  unquote_to_bytes (plus_to_space (quote_byte b) ++ rest) = b :: unquote_to_bytes rest.
Proof.
  intros Hb. pose proof (quote_byte_spec_holds b Hb) as H.
  unfold quote_byte_spec in H. apply andb_true_iff in H. destruct H as [_ H].
  destruct (plus_to_space (quote_byte b)) as [|c [|h [|l [|x t]]]]; try discriminate.
  - apply andb_true_iff in H. destruct H as [Hc H37].
    apply N.eqb_eq in Hc. subst c. cbn [app unquote_to_bytes].
    apply negb_true_iff in H37. rewrite H37. reflexivity.
  - apply andb_true_iff in H. destruct H as [Hc H].
    apply N.eqb_eq in Hc. subst c. cbn [app unquote_to_bytes].
    rewrite N.eqb_refl.
    destruct (hexval h) as [a|]; [|discriminate].
    destruct (hexval l) as [d|]; [|discriminate].
    apply N.eqb_eq in H. rewrite H. reflexivity.
Qed.

Lemma unquote_quote_bytes (bs : Utf8.bytes) :
  Forall (fun x => x < 256) bs ->
  unquote_to_bytes (plus_to_space (flat_map quote_byte bs)) = bs.
Proof.
  induction 1 as [|b bs Hb _ IH]; [reflexivity|].
  cbn [flat_map]. rewrite plus_to_space_app, unquote_quote_byte by exact Hb.
  rewrite IH. reflexivity.
Qed.

(** On ASCII text [unquote] decodes the unquoted bytes in one piece. *)
Lemma unquote_from_ascii (s run : str) :
  is_ascii_str s = true ->
  unquote_from run s = Utf8.decode (unquote_to_bytes (run ++ s)).
Proof.
  revert run. induction s as [|c t IH]; intros run; cbn [unquote_from is_ascii_str forallb].
  - rewrite app_nil_r. reflexivity.
  - intros H. apply andb_true_iff in H. destruct H as [Hc Ht].
    rewrite Hc. rewrite IH by exact Ht. rewrite <- app_assoc. reflexivity.
Qed.

Lemma quoted_chars (bs : Utf8.bytes) :
  Forall (fun x => x < 256) bs ->
  Forall (fun c => quoted_char c = true) (flat_map quote_byte bs).
Proof.
  induction 1 as [|b bs Hb _ IH]; [constructor|].
  cbn [flat_map]. apply Forall_app. split; [apply quote_byte_chars; exact Hb|exact IH].
Qed.

(** What [quote_plus] returns holds quoted characters only, and is empty
    only for the empty string. *)
Lemma quote_plus_chars (s q : str) :
  quote_plus s = Ok q ->
  Forall (fun c => quoted_char c = true) q /\ (q = [] <-> s = []).
Proof.
  unfold quote_plus. destruct (Utf8.encode s) as [bs|] eqn:E; [|discriminate].
  intros Hq. injection Hq as <-.
  destruct (encode_bytes s bs E) as [Hb Hnil]. split.
  - apply quoted_chars. exact Hb.
  - split.
    + intros Hq. apply Hnil. destruct bs as [|b bs]; [reflexivity|].
      cbn [flat_map] in Hq. apply app_eq_nil in Hq. destruct Hq as [Hq _].
      destruct (quote_byte_nonempty b Hq).
    + intros ->. simpl in E. injection E as <-. reflexivity.
Qed.

(** Round trip: [unquote(quote_plus(s).replace('+', ' ')) == s]. *)
Lemma unquote_quote_plus (s q : str) :
  quote_plus s = Ok q -> unquote (plus_to_space q) = s.
Proof.
  intros Hq. destruct (quote_plus_chars s q Hq) as [Hc _].
  unfold quote_plus in Hq. destruct (Utf8.encode s) as [bs|] eqn:E; [|discriminate].
  injection Hq as <-. destruct (encode_bytes s bs E) as [Hb _].
  unfold unquote. rewrite unquote_from_ascii.
  - cbn [app]. rewrite unquote_quote_bytes by exact Hb. apply decode_encode. exact E.
  - unfold is_ascii_str, plus_to_space. apply forallb_forall. intros c Hin.
    apply in_map_iff in Hin. destruct Hin as [c' [<- Hin]].
    rewrite Forall_forall in Hc. apply Hc in Hin. apply quoted_char_ascii in Hin.
    destruct (c' =? 43); apply N.ltb_lt; lia.
Qed.

(** [unquote] of a text that is there is not empty. *)
Lemma unquote_to_bytes_nonempty (s : str) : s <> [] -> unquote_to_bytes s <> [].
Proof.
  destruct s as [|c t]; [congruence|]. intros _. cbn [unquote_to_bytes].
  destruct (c =? 37); [|discriminate].
  destruct t as [|h [|l r]]; try discriminate.
  destruct (hexval h); [|discriminate]. destruct (hexval l); discriminate.
Qed.

Lemma unquote_from_nonempty (s run : str) :
  unquote_from run s = [] -> run = [] /\ s = [].
Proof.
  revert run. induction s as [|c t IH]; intros run; cbn [unquote_from].
  - intros H. split; [|reflexivity].
    destruct run as [|x r]; [reflexivity|]. exfalso.
    apply (decode_nonempty (unquote_to_bytes (x :: r))); [|exact H].
    apply unquote_to_bytes_nonempty. discriminate.
  - destruct (c <? 128).
    + intros H. apply IH in H. destruct H as [H _].
      apply app_eq_nil in H. destruct H as [_ H]. discriminate.
    + intros H. apply app_eq_nil in H. destruct H as [_ H]. discriminate.
Qed.

Lemma unquote_nonempty (s : str) : s <> [] -> unquote (plus_to_space s) <> [].
Proof.
  intros Hs H. apply unquote_from_nonempty in H. destruct H as [_ H].
  destruct s; [congruence|discriminate].
Qed.

End QuoteFacts.

(* ===================================================================== *)
(** * Facts about dictionaries *)
(* ===================================================================== *)

Module DictFacts.
Import Py Dict PyFacts.

Section WithValues.
Variable V : Type.
Implicit Types (d : dict V) (k : str) (v : V).

Lemma get_None d k : get k d = None <-> ~ In k (keys d).
Proof.
  induction d as [|[k' v'] t IH]; simpl.
  - tauto.
  - destruct (str_eqb k' k) eqn:E.
    + apply str_eqb_eq in E. subst. split; [discriminate|]. intros H. exfalso. apply H. left. reflexivity.
    + apply str_eqb_neq in E. rewrite IH. tauto.
Qed.

Lemma get_Some_in d k v : get k d = Some v -> In (k, v) d.
Proof.
  induction d as [|[k' v'] t IH]; simpl; [discriminate|].
  destruct (str_eqb k' k) eqn:E.
  - apply str_eqb_eq in E. subst. intros H. injection H as ->. left. reflexivity.
  - intros H. right. apply IH. exact H.
Qed.


(** Lookup after insert. *)
Lemma get_set_same d k v : get k (set k v d) = Some v.
Proof.
  induction d as [|[k' v'] t IH]; simpl.
  - rewrite str_eqb_refl. reflexivity.
  - destruct (str_eqb k' k) eqn:E; simpl; rewrite E; [reflexivity|exact IH].
Qed.

Lemma get_set_other d k k' v : k' <> k -> get k' (set k v d) = get k' d.
Proof.
  intros Hne. induction d as [|[k0 v0] t IH]; simpl.
  - apply str_eqb_neq in Hne. rewrite str_eqb_sym. rewrite Hne. reflexivity.
  - destruct (str_eqb k0 k) eqn:E; simpl.
    + apply str_eqb_eq in E. subst k0.
      assert (E' : str_eqb k k' = false) by (apply str_eqb_neq; congruence).
      rewrite E'. reflexivity.
    + rewrite IH. reflexivity.
Qed.

(** Writing the value a key already has changes nothing. *)
Lemma set_same d k v : get k d = Some v -> set k v d = d.
Proof.
  induction d as [|[k' v'] t IH]; simpl; [discriminate|].
  destruct (str_eqb k' k) eqn:E.
  - intros H. injection H as ->. reflexivity.
  - intros H. rewrite IH by exact H. reflexivity.
Qed.

(** A new key goes last; a known key keeps its place. *)
Lemma set_new d k v : get k d = None -> set k v d = d ++ [(k, v)].
Proof.
  induction d as [|[k' v'] t IH]; simpl; [reflexivity|].
  destruct (str_eqb k' k); [discriminate|].
  intros H. rewrite IH by exact H. reflexivity.
Qed.

Lemma set_last d k v v' : get k d = None -> set k v' (d ++ [(k, v)]) = d ++ [(k, v')].
Proof.
  induction d as [|[k0 v0] t IH]; simpl.
  - rewrite str_eqb_refl. reflexivity.
  - destruct (str_eqb k0 k); [discriminate|].
    intros H. rewrite IH by exact H. reflexivity.
Qed.

Lemma get_last d k v : get k d = None -> get k (d ++ [(k, v)]) = Some v.
Proof.
  induction d as [|[k0 v0] t IH]; simpl.
  - rewrite str_eqb_refl. reflexivity.
  - destruct (str_eqb k0 k); [discriminate|exact IH].
Qed.

Lemma keys_set d k v :
  keys (set k v d) = if str_in k (keys d) then keys d else keys d ++ [k].
Proof.
  unfold keys, str_in.
  induction d as [|[k' v'] t IH]; simpl; [reflexivity|].
  rewrite (str_eqb_sym k k').
  destruct (str_eqb k' k) eqn:E; simpl; [reflexivity|].
  rewrite IH.
  destruct (existsb (str_eqb k) (map fst t)); reflexivity.
Qed.

(** Insertion keeps the keys unique. *)
Lemma NoDup_keys_set d k v : NoDup (keys d) -> NoDup (keys (set k v d)).
Proof.
  intros Hnd. rewrite keys_set. destruct (str_in k (keys d)) eqn:E; [exact Hnd|].
  apply NoDup_app; [exact Hnd|constructor; [intros []|constructor]|].
  intros x Hx [<-|[]]. apply str_in_In in Hx. congruence.
Qed.

Lemma in_set d k v kv :
  In kv (set k v d) -> kv = (k, v) \/ In kv d.
Proof.
  induction d as [|[k' v'] t IH]; simpl.
  - intros [<-|[]]. left. reflexivity.
  - destruct (str_eqb k' k) eqn:E; simpl.
    + apply str_eqb_eq in E. subst. intros [<-|H]; [left; reflexivity|right; right; exact H].
    + intros [<-|H]; [right; left; reflexivity|].
      destruct (IH H) as [->|H']; [left; reflexivity|right; right; exact H'].
Qed.

End WithValues.

End DictFacts.

(* ===================================================================== *)
(** * Facts about query strings *)
(* ===================================================================== *)

Module QueryFacts.
Import Py Dict UrlLib PyFacts QuoteFacts DictFacts.

(** ** Splitting and joining *)

Lemma split_once_Some (sep : N) (s a b : str) :
  split_once sep s = Some (a, b) -> s = a ++ sep :: b /\ ~ In sep a.
Proof.
  revert a. induction s as [|c t IH]; intros a; simpl; [discriminate|].
  destruct (N.eqb_spec c sep) as [->|Hne].
  - intros E. injection E as <- <-. split; [reflexivity|intros []].
  - destruct (split_once sep t) as [[a' b']|]; [|discriminate].
    intros E. injection E as <- <-.
    destruct (IH a' eq_refl) as [-> Hnot]. split; [reflexivity|].
    intros [E|Hin]; [congruence|contradiction].
Qed.

Lemma split_once_None (sep : N) (s : str) :
  split_once sep s = None <-> ~ In sep s.
Proof.
  induction s as [|c t IH]; simpl.
  - tauto.
  - destruct (N.eqb_spec c sep) as [->|Hne].
    + split; [discriminate|]. intros H. exfalso. apply H. left. reflexivity.
    + destruct (split_once sep t) as [[a b]|].
      * split; [discriminate|]. intros H. exfalso.
        assert (Hn : ~ In sep t) by (intros Hin; apply H; right; exact Hin).
        apply IH in Hn. discriminate.
      * split; [|reflexivity]. intros _ [E|Hin]; [congruence|].
        apply (proj1 IH eq_refl). exact Hin.
Qed.

Lemma split_once_app (sep : N) (a b : str) :
  ~ In sep a -> split_once sep (a ++ sep :: b) = Some (a, b).
Proof.
  induction a as [|c a IH]; simpl.
  - rewrite N.eqb_refl. reflexivity.
  - intros H. destruct (N.eqb_spec c sep) as [->|Hne].
    + exfalso. apply H. left. reflexivity.
    + rewrite IH; [reflexivity|]. intros Hin. apply H. right. exact Hin.
Qed.

Lemma split_no_sep (sep : N) (s : str) : ~ In sep s -> split sep s = [s].
Proof.
  induction s as [|c t IH]; simpl; [reflexivity|].
  intros H. destruct (N.eqb_spec c sep) as [->|Hne].
  - exfalso. apply H. left. reflexivity.
  - rewrite IH; [reflexivity|]. intros Hin. apply H. right. exact Hin.
Qed.

Lemma split_app (sep : N) (a b : str) :
  ~ In sep a -> split sep (a ++ sep :: b) = a :: split sep b.
Proof.
  induction a as [|c a IH]; simpl.
  - rewrite N.eqb_refl. reflexivity.
  - intros H. destruct (N.eqb_spec c sep) as [->|Hne].
    + exfalso. apply H. left. reflexivity.
    + rewrite IH; [reflexivity|]. intros Hin. apply H. right. exact Hin.
Qed.

(** [sep.join(items).split(sep) == items] when no item holds [sep]. *)
Lemma split_join (sep : N) (items : list str) :
  items <> [] ->
  Forall (fun x => ~ In sep x) items ->
  split sep (join [sep] items) = items.
Proof.
  intros Hne Hall. revert Hne.
  induction Hall as [|x r Hx Hr IH]; intros Hne; [exfalso; apply Hne; reflexivity|].
  destruct r as [|y r'].
  - simpl. apply split_no_sep. exact Hx.
  - change (join [sep] (x :: y :: r')) with (x ++ sep :: join [sep] (y :: r')).
    rewrite split_app by exact Hx. rewrite IH by discriminate. reflexivity.
Qed.

(** ** [urlencode] followed by [parse_qsl] *)

(** The pairs of a dictionary of lists, in the order [urlencode] writes
    them. *)
Definition flatten (d : dict (list str)) : list (str * str) :=
  flat_map (fun kv => map (pair (fst kv)) (snd kv)) d.

(** [item] is the text [urlencode] writes for the pair [kv]. *)
Definition encodes (kv : str * str) (item : str) : Prop :=
  exists qk qv, quote_plus (fst kv) = Ok qk /\ quote_plus (snd kv) = Ok qv /\
                item = qk ++ [61] ++ qv.

Lemma sequence_Ok (A : Type) (l : list (outcome A)) (r : list A) :
  sequence l = Ok r -> Forall2 (fun x a => x = Ok a) l r.
Proof.
  revert r. induction l as [|x t IH]; intros r; simpl.
  - intros E. injection E as <-. constructor.
  - destruct x as [a|e]; simpl; [|discriminate].
    destruct (sequence t) as [r'|e]; simpl; [|discriminate].
    intros E. injection E as <-. constructor; [reflexivity|]. apply IH. reflexivity.
Qed.

Lemma urlencode_entry_items (kv : str * list str) (items : list str) :
  urlencode_entry kv = Ok items ->
  Forall2 encodes (map (pair (fst kv)) (snd kv)) items.
Proof.
  unfold urlencode_entry. destruct (quote_plus (fst kv)) as [qk|] eqn:Ek; simpl; [|discriminate].
  intros Hs. apply sequence_Ok in Hs.
  revert items Hs. induction (snd kv) as [|v vs IH]; intros items Hs; simpl in *.
  - inversion Hs. constructor.
  - inversion Hs as [|? a ? r Hx Hr]; subst. constructor; [|apply IH; exact Hr].
    destruct (quote_plus v) as [qv|] eqn:Ev; simpl in Hx; [|discriminate].
    injection Hx as <-. exists qk, qv. repeat split; assumption.
Qed.

Lemma urlencode_items (d : dict (list str)) (q : str) :
  urlencode d = Ok q ->
  exists items, Forall2 encodes (flatten d) items /\ q = join [38] items.
Proof.
  unfold urlencode. destruct (sequence (map urlencode_entry d)) as [l|] eqn:Es; simpl; [|discriminate].
  intros E. injection E as <-. exists (concat l). split; [|reflexivity].
  apply sequence_Ok in Es.
  revert l Es. induction d as [|kv d IH]; intros l Es; simpl in *.
  - inversion Es. constructor.
  - inversion Es as [|? a ? r Hx Hr]; subst. simpl.
    apply Forall2_app; [apply urlencode_entry_items; exact Hx|apply IH; exact Hr].
Qed.

(** What [parse_qsl] makes of one field. *)
Definition parse_field (keep_blank_values : bool) (name_value : str) : list (str * str) :=
  if negb (truthy name_value) then []
  else
    let nv := match split_once 61 name_value with
              | Some (n, v) => Some (n, v)
              | None => if keep_blank_values then Some (name_value, []) else None
              end in
    match nv with
    | None => []
    | Some (n, v) =>
      if truthy v || keep_blank_values
      then [(unquote (plus_to_space n), unquote (plus_to_space v))]
      else []
    end.

Lemma parse_qsl_fields (qs : str) (keep : bool) :
  parse_qsl qs keep = flat_map (parse_field keep) (split 38 qs).
Proof. reflexivity. Qed.

Lemma quoted_not_in (c : N) (q : str) :
  Forall (fun x => quoted_char x = true) q -> plain_char c = false -> ~ In c q.
Proof.
  intros Hq Hc Hin. rewrite Forall_forall in Hq. apply Hq in Hin.
  apply quoted_char_plain in Hin. congruence.
Qed.

Lemma parse_field_encoded (keep : bool) (kv : str * str) (item : str) :
  encodes kv item ->
  parse_field keep item = if truthy (snd kv) || keep then [kv] else [].
Proof.
  intros [qk [qv [Hk [Hv ->]]]].
  destruct (quote_plus_chars _ _ Hk) as [Hck _].
  destruct (quote_plus_chars _ _ Hv) as [Hcv Hnil].
  unfold parse_field.
  assert (Ht : truthy (qk ++ [61] ++ qv) = true) by (destruct qk; reflexivity).
  rewrite Ht. cbn [negb].
  change (qk ++ [61] ++ qv) with (qk ++ 61 :: qv).
  rewrite split_once_app by (apply quoted_not_in; [exact Hck|reflexivity]).
  assert (Hv' : truthy qv = truthy (snd kv)).
  { destruct qv as [|x r]; destruct (snd kv) as [|y r'] eqn:Es; try reflexivity.
    - destruct Hnil as [Hnil _]. specialize (Hnil eq_refl). discriminate.
    - destruct Hnil as [_ Hnil]. specialize (Hnil eq_refl). discriminate. }
  rewrite Hv'. destruct (truthy (snd kv) || keep); [|reflexivity].
  rewrite (unquote_quote_plus _ _ Hk), (unquote_quote_plus _ _ Hv).
  destruct kv; reflexivity.
Qed.

Lemma encoded_no_amp (kv : str * str) (item : str) : encodes kv item -> ~ In 38 item.
Proof.
  intros [qk [qv [Hk [Hv ->]]]].
  destruct (quote_plus_chars _ _ Hk) as [Hck _].
  destruct (quote_plus_chars _ _ Hv) as [Hcv _].
  intros Hin. apply in_app_or in Hin. destruct Hin as [Hin|Hin].
  - revert Hin. apply quoted_not_in; [exact Hck|reflexivity].
  - apply in_app_or in Hin. destruct Hin as [[E|[]]|Hin]; [discriminate|].
    revert Hin. apply quoted_not_in; [exact Hcv|reflexivity].
Qed.

(** Round trip: reading back what [urlencode] wrote gives the pairs of
    the dictionary, without those of an empty value unless blank values
    are kept. *)
Lemma parse_qsl_urlencode (d : dict (list str)) (q : str) (keep : bool) :
  urlencode d = Ok q ->
  parse_qsl q keep = filter (fun kv => truthy (snd kv) || keep) (flatten d).
Proof.
  intros Hq. apply urlencode_items in Hq. destruct Hq as [items [Hall ->]].
  rewrite parse_qsl_fields.
  assert (Hfields : flat_map (parse_field keep) items
                    = filter (fun kv => truthy (snd kv) || keep) (flatten d)).
  { induction Hall as [|kv item l l' Hkv _ IH]; [reflexivity|].
    cbn [flat_map filter]. rewrite (parse_field_encoded keep kv item Hkv), IH.
    destruct (truthy (snd kv) || keep); reflexivity. }
  destruct items as [|x r] eqn:Ei.
  - inversion Hall as [E|]. simpl. reflexivity.
  - rewrite <- Ei in *. rewrite split_join; [exact Hfields|subst; discriminate|].
    clear Hfields Ei. induction Hall as [|kv item l l' Hkv _ IH]; constructor.
    + eapply encoded_no_amp. exact Hkv.
    + exact IH.
Qed.

(** ** [parse_qs] *)

(** The values a list of pairs gives to the name [k], in order. *)
Definition values_of (k : str) (l : list (str * str)) : list str :=
  map snd (filter (fun kv => str_eqb (fst kv) k) l).






Lemma NoDup_keys_fold (l : list (str * str)) (acc : dict (list str)) :
  NoDup (keys acc) -> NoDup (keys (fold_left parse_qs_add l acc)).
Proof.
  revert acc. induction l as [|nv l IH]; intros acc Hnd; simpl; [exact Hnd|].
  apply IH. unfold parse_qs_add.
  destruct (get (fst nv) acc); apply NoDup_keys_set; exact Hnd.
Qed.

Lemma NoDup_keys_parse_qs (q : str) : NoDup (keys (parse_qs q)).
Proof. apply NoDup_keys_fold. constructor. Qed.

(** Every name has at least one value and no value is empty. *)
Definition well_valued (d : dict (list str)) : Prop :=
  Forall (fun kv => snd kv <> [] /\ Forall (fun v => v <> []) (snd kv)) d.

Lemma well_valued_set (d : dict (list str)) (k : str) (vs : list str) :
  well_valued d -> vs <> [] -> Forall (fun v => v <> []) vs ->
  well_valued (set k vs d).
Proof.
  intros Hd Hne Hvs. apply Forall_forall. intros kv Hin.
  apply in_set in Hin. destruct Hin as [->|Hin].
  - split; assumption.
  - unfold well_valued in Hd. rewrite Forall_forall in Hd. apply Hd. exact Hin.
Qed.

Lemma parse_field_nonblank (item : str) :
  Forall (fun kv => snd kv <> []) (parse_field false item).
Proof.
  unfold parse_field. destruct (negb (truthy item)); [constructor|].
  destruct (split_once 61 item) as [[n v]|]; [|constructor].
  rewrite orb_false_r. destruct v as [|c t]; [constructor|].
  cbn [truthy]. constructor; [|constructor]. cbn [snd].
  apply unquote_nonempty. discriminate.
Qed.

(** Without [keep_blank_values] no pair has an empty value. *)
Lemma parse_qsl_nonblank (q : str) :
  Forall (fun kv => snd kv <> []) (parse_qsl q false).
Proof.
  rewrite parse_qsl_fields. induction (split 38 q) as [|x r IH]; simpl; [constructor|].
  apply Forall_app. split; [apply parse_field_nonblank|exact IH].
Qed.

Lemma well_valued_fold (l : list (str * str)) (acc : dict (list str)) :
  Forall (fun kv => snd kv <> []) l -> well_valued acc ->
  well_valued (fold_left parse_qs_add l acc).
Proof.
  intros Hl. revert acc. induction Hl as [|nv l Hnv _ IH]; intros acc Hacc; simpl;
    [exact Hacc|].
  apply IH. unfold parse_qs_add.
  match goal with |- context [match ?g with _ => _ end] => destruct g as [vs|] eqn:E end.
  - apply well_valued_set; [exact Hacc|destruct vs; discriminate|].
    apply Forall_app. split; [|constructor; [exact Hnv|constructor]].
    apply get_Some_in in E. unfold well_valued in Hacc. rewrite Forall_forall in Hacc.
    apply Hacc in E. exact (proj2 E).
  - apply well_valued_set; [exact Hacc|discriminate|constructor; [exact Hnv|constructor]].
Qed.

Lemma well_valued_parse_qs (q : str) : well_valued (parse_qs q).
Proof. apply well_valued_fold; [apply parse_qsl_nonblank|constructor]. Qed.

Lemma parse_qs_add_new (k v : str) (acc : dict (list str)) :
  get k acc = None -> parse_qs_add acc (k, v) = acc ++ [(k, [v])].
Proof.
  intros Hk. unfold parse_qs_add. cbn [fst snd]. rewrite Hk.
  apply set_new. exact Hk.
Qed.

Lemma parse_qs_add_last (k v : str) (l : list str) (acc : dict (list str)) :
  get k acc = None ->
  parse_qs_add (acc ++ [(k, l)]) (k, v) = acc ++ [(k, l ++ [v])].
Proof.
  intros Hk. unfold parse_qs_add. cbn [fst snd].
  rewrite (get_last _ acc k l Hk). apply set_last. exact Hk.
Qed.

(** Grouping the pairs of one name that follow each other. *)
Lemma fold_same_key (k : str) (vs l : list str) (acc : dict (list str)) :
  get k acc = None ->
  fold_left parse_qs_add (map (pair k) vs) (acc ++ [(k, l)]) = acc ++ [(k, l ++ vs)].
Proof.
  intros Hk. revert l. induction vs as [|v vs IH]; intros l; cbn [map fold_left].
  - rewrite app_nil_r. reflexivity.
  - rewrite parse_qs_add_last by exact Hk. rewrite IH.
    rewrite <- app_assoc. reflexivity.
Qed.

Lemma fold_flatten (d acc : dict (list str)) :
  NoDup (keys acc ++ keys d) ->
  Forall (fun kv => snd kv <> []) d ->
  fold_left parse_qs_add (flatten d) acc = acc ++ d.
Proof.
  intros Hnd Hd. revert acc Hnd.
  induction Hd as [|[k vs] d Hkv _ IH]; intros acc Hnd.
  - simpl. rewrite app_nil_r. reflexivity.
  - cbn [snd] in Hkv. destruct vs as [|v vs]; [congruence|].
    assert (Hk : get k acc = None).
    { apply get_None. intros Hin. simpl in Hnd.
      apply NoDup_remove_2 in Hnd. apply Hnd. apply in_or_app. left. exact Hin. }
    change (flatten ((k, v :: vs) :: d))
      with ((k, v) :: map (pair k) vs ++ flatten d).
    cbn [fold_left]. rewrite fold_left_app.
    rewrite parse_qs_add_new by exact Hk.
    rewrite fold_same_key by exact Hk. cbn [app].
    rewrite IH.
    + rewrite <- app_assoc. reflexivity.
    + unfold keys in *. rewrite map_app. simpl. rewrite <- app_assoc. exact Hnd.
Qed.

(** Round trip: [parse_qs(urlencode(d, doseq=True)) == d] for a
    dictionary in which every name has values and no value is empty. *)
Lemma parse_qs_urlencode (d : dict (list str)) (q : str) :
  NoDup (keys d) -> well_valued d -> urlencode d = Ok q -> parse_qs q = d.
Proof.
  intros Hnd Hw Hq. unfold parse_qs.
  rewrite (parse_qsl_urlencode d q false Hq).
  assert (Hall : forall kv, In kv (flatten d) -> truthy (snd kv) || false = true).
  { intros kv Hin. unfold flatten in Hin. apply in_flat_map in Hin.
    destruct Hin as [[k vs] [Hd Hin]]. apply in_map_iff in Hin.
    destruct Hin as [v [<- Hv]]. simpl in *.
    unfold well_valued in Hw. rewrite Forall_forall in Hw.
    apply Hw in Hd. destruct Hd as [_ Hd]. rewrite Forall_forall in Hd.
    apply Hd in Hv. destruct v; [congruence|reflexivity]. }
  rewrite forallb_filter_id by (apply forallb_forall; exact Hall).
  rewrite fold_flatten; [reflexivity|exact Hnd|].
  unfold well_valued in Hw. eapply Forall_impl; [|exact Hw].
  intros kv [H _]. exact H.
Qed.



End QueryFacts.

(* ===================================================================== *)
(** * Facts about URL splitting *)
(* ===================================================================== *)

Module UrlFacts.
Import Py Dict UrlLib PyFacts QuoteFacts DictFacts QueryFacts.

(** No character [urlsplit] would remove. *)
Definition clean (s : str) : Prop := Forall (fun c => is_unsafe c = false) s.

Lemma clean_remove_unsafe (s : str) : clean (remove_unsafe s).
Proof.
  apply Forall_forall. intros c Hin. apply filter_In in Hin.
  destruct Hin as [_ H]. apply negb_true_iff in H. exact H.
Qed.

Lemma remove_unsafe_clean (s : str) : clean s -> remove_unsafe s = s.
Proof.
  intros H. unfold remove_unsafe. apply forallb_filter_id. apply forallb_forall.
  intros c Hin. unfold clean in H. rewrite Forall_forall in H.
  rewrite (H c Hin). reflexivity.
Qed.

Lemma clean_app (a b : str) : clean (a ++ b) <-> clean a /\ clean b.
Proof. apply Forall_app. Qed.

Lemma clean_cons (c : N) (s : str) : clean (c :: s) <-> is_unsafe c = false /\ clean s.
Proof. apply Forall_cons_iff. Qed.

(** A scheme as [urlsplit] returns it: empty, or lower-case scheme
    characters after a first letter. *)
Definition scheme_ok (sch : str) : Prop :=
  sch = [] \/
  (exists c0 pre, sch = c0 :: pre /\ is_ascii_alpha c0 = true) /\
  forallb is_scheme_char sch = true /\ ascii_lower sch = sch.

Lemma scheme_char_facts (c : N) :
  is_scheme_char c = true ->
  c <> 58 /\ is_unsafe c = false /\ is_scheme_char (ascii_lower_char c) = true /\
  ascii_lower_char (ascii_lower_char c) = ascii_lower_char c /\
  (is_ascii_alpha c = true -> is_ascii_alpha (ascii_lower_char c) = true).
Proof.
  intros H.
  assert (Hlt : c < 128).
  { destruct (N.ltb_spec c 128) as [Hlt|Hge]; [exact Hlt|]. exfalso. revert H.
    unfold is_scheme_char, is_ascii_alpha, is_upper, is_lower, is_ascii_digit.
    rewrite (proj2 (N.leb_gt c 90)), (proj2 (N.leb_gt c 122)), (proj2 (N.leb_gt c 57)) by lia.
    rewrite (proj2 (N.eqb_neq c 43)), (proj2 (N.eqb_neq c 46)), (proj2 (N.eqb_neq c 45)) by lia.
    rewrite !andb_false_r. discriminate. }
  assert (Hb : implb (is_scheme_char c)
                 (negb (c =? 58) && negb (is_unsafe c)
                  && is_scheme_char (ascii_lower_char c)
                  && (ascii_lower_char (ascii_lower_char c) =? ascii_lower_char c)
                  && implb (is_ascii_alpha c) (is_ascii_alpha (ascii_lower_char c))) = true).
  { apply (forall_bytes (fun c => implb (is_scheme_char c)
                 (negb (c =? 58) && negb (is_unsafe c)
                  && is_scheme_char (ascii_lower_char c)
                  && (ascii_lower_char (ascii_lower_char c) =? ascii_lower_char c)
                  && implb (is_ascii_alpha c) (is_ascii_alpha (ascii_lower_char c)))));
      [vm_compute; reflexivity|lia]. }
  rewrite H in Hb. cbn [implb] in Hb.
  repeat (apply andb_true_iff in Hb; destruct Hb as [Hb ?]).
  repeat split.
  - apply negb_true_iff in Hb. apply N.eqb_neq. exact Hb.
  - apply negb_true_iff. assumption.
  - assumption.
  - apply N.eqb_eq. assumption.
  - intros Ha. match goal with X : implb (is_ascii_alpha c) _ = true |- _ => rewrite Ha in X; exact X end.
Qed.

(** What [split_scheme] returns is a scheme, and the rest is a part of
    the text. *)
Lemma split_scheme_spec (url sch rest : str) :
  split_scheme url = (sch, rest) ->
  scheme_ok sch /\
  ((sch = [] /\ rest = url) \/
   (exists pre, url = pre ++ 58 :: rest /\ sch = ascii_lower pre)).
Proof.
  unfold split_scheme.
  destruct (split_once 58 url) as [[pre r]|] eqn:Es.
  2:{ intros E. injection E as <- <-. split; [left; reflexivity|left; split; reflexivity]. }
  destruct pre as [|c0 pre].
  { intros E. injection E as <- <-. split; [left; reflexivity|left; split; reflexivity]. }
  destruct (is_ascii_alpha c0 && forallb is_scheme_char (c0 :: pre)) eqn:Ec.
  2:{ intros E. injection E as <- <-. split; [left; reflexivity|left; split; reflexivity]. }
  intros E. injection E as <- <-.
  apply andb_true_iff in Ec. destruct Ec as [Ha Hall].
  apply split_once_Some in Es. destruct Es as [-> _].
  split; [|right; exists (c0 :: pre); split; reflexivity].
  right. rewrite forallb_forall in Hall. repeat split.
  - exists (ascii_lower_char c0), (ascii_lower pre). split; [reflexivity|].
    apply scheme_char_facts; [apply Hall; left; reflexivity|exact Ha].
  - apply forallb_forall. intros c Hin. unfold ascii_lower in Hin.
    change (In c (map ascii_lower_char (c0 :: pre))) in Hin.
    apply in_map_iff in Hin. destruct Hin as [c' [<- Hin]].
    apply scheme_char_facts. apply Hall. exact Hin.
  - change (map ascii_lower_char (map ascii_lower_char (c0 :: pre))
            = map ascii_lower_char (c0 :: pre)).
    rewrite map_map. apply map_ext_in. intros c Hin.
    apply scheme_char_facts. apply Hall. exact Hin.
Qed.

Lemma split_scheme_slash (x : str) : split_scheme (47 :: x) = ([], 47 :: x).
Proof.
  unfold split_scheme. destruct (split_once 58 (47 :: x)) as [[pre r]|] eqn:Es;
    [|reflexivity].
  destruct pre as [|c0 pre]; [reflexivity|].
  apply split_once_Some in Es. destruct Es as [E _]. injection E as <- _.
  reflexivity.
Qed.

(** A scheme followed by [':'] is found again. *)
Lemma split_scheme_found (sch rest : str) :
  scheme_ok sch -> sch <> [] ->
  split_scheme (sch ++ 58 :: rest) = (sch, rest).
Proof.
  intros [->|[[c0 [pre [-> Ha]]] [Hall Hlow]]] Hne; [congruence|].
  unfold split_scheme. rewrite split_once_app.
  - rewrite Ha, Hall, Hlow. reflexivity.
  - intros Hin. rewrite forallb_forall in Hall. apply Hall in Hin.
    apply scheme_char_facts in Hin. destruct Hin as [Hin _]. congruence.
Qed.

Lemma scheme_ok_clean (sch : str) : scheme_ok sch -> clean sch.
Proof.
  intros [->|[_ [Hall _]]]; [constructor|].
  apply Forall_forall. intros c Hin. rewrite forallb_forall in Hall.
  apply Hall in Hin. apply scheme_char_facts in Hin. tauto.
Qed.

(** The host [splitnetloc] cuts off holds none of [/?#], and the rest
    is empty or starts with one of them. *)
Lemma splitnetloc_spec (s nl rest : str) :
  splitnetloc s = (nl, rest) ->
  s = nl ++ rest /\ Forall (fun c => is_netloc_delim c = false) nl /\
  (rest = [] \/ exists c t, rest = c :: t /\ is_netloc_delim c = true).
Proof.
  revert nl. induction s as [|c t IH]; intros nl; simpl.
  - intros E. injection E as <- <-. repeat split; [constructor|left; reflexivity].
  - destruct (is_netloc_delim c) eqn:Ed.
    + intros E. injection E as <- <-. repeat split; [constructor|].
      right. exists c, t. split; [reflexivity|exact Ed].
    + destruct (splitnetloc t) as [a b]. intros E. injection E as <- <-.
      destruct (IH a eq_refl) as [-> [Ha Hb]]. repeat split.
      * constructor; assumption.
      * exact Hb.
Qed.

Lemma splitnetloc_app (nl rest : str) :
  Forall (fun c => is_netloc_delim c = false) nl ->
  (rest = [] \/ exists c t, rest = c :: t /\ is_netloc_delim c = true) ->
  splitnetloc (nl ++ rest) = (nl, rest).
Proof.
  intros Hnl Hrest. induction Hnl as [|c nl Hc _ IH]; simpl.
  - destruct Hrest as [->|[c [t [-> Hc]]]]; [reflexivity|].
    simpl. rewrite Hc. reflexivity.
  - rewrite Hc, IH. reflexivity.
Qed.

Lemma lstrip_c0_keeps (c : N) (s : str) : 32 < c -> lstrip_c0 (c :: s) = c :: s.
Proof. intros H. simpl. rewrite (proj2 (N.leb_gt c 32) H). reflexivity. Qed.

(** ** Well-formed results of [urlsplit] *)

(** The bracket test of [urlsplit] passes. *)
Definition bracket_ok (nl : str) : bool :=
  negb ((mem 91 nl && negb (mem 93 nl)) || (mem 93 nl && negb (mem 91 nl))).

(** What holds of every result of [urlsplit]. *)
Record wf_split `{HostChecks} (r : SplitResult) : Prop := {
  wf_scheme : scheme_ok (s_scheme r);
  wf_netloc : Forall (fun c => is_netloc_delim c = false) (s_netloc r);
  wf_bracket : bracket_ok (s_netloc r) = true;
  wf_check : checknetloc (s_netloc r) = true;
  wf_clean_netloc : clean (s_netloc r);
  wf_clean_path : clean (s_path r);
  wf_clean_query : clean (s_query r);
  wf_clean_fragment : clean (s_fragment r);
  wf_path_start : s_netloc r <> [] -> s_path r = [] \/ exists t, s_path r = 47 :: t;
  wf_path_hash : ~ In 35 (s_path r);
  wf_path_mark : ~ In 63 (s_path r);
  wf_query_hash : ~ In 35 (s_query r)
}.

Lemma truthy_true (s : str) : truthy s = true <-> s <> [].
Proof. destruct s; simpl; split; congruence. Qed.

Lemma truthy_false (s : str) : truthy s = false <-> s = [].
Proof. destruct s; simpl; split; congruence. Qed.

Lemma startswith_slashes (url : str) :
  startswith [47; 47] url = true -> url = 47 :: 47 :: skipn 2 url.
Proof.
  intros H. apply startswith_spec in H. destruct H as [b ->]. reflexivity.
Qed.

Lemma netloc_delim_cases (c : N) :
  is_netloc_delim c = true -> c = 47 \/ c = 63 \/ c = 35.
Proof.
  unfold is_netloc_delim. rewrite !orb_true_iff, !N.eqb_eq. tauto.
Qed.

(** Cutting at the first [sep], as [urlsplit] does for ['#'] and ['?']. *)
Definition cut (sep : N) (url : str) : str * str :=
  match split_once sep url with
  | Some (a, b) => (a, b)
  | None => (url, [])
  end.

Lemma cut_spec (sep : N) (url a b : str) :
  cut sep url = (a, b) ->
  ~ In sep a /\ (url = a ++ sep :: b \/ (url = a /\ b = [])).
Proof.
  unfold cut. destruct (split_once sep url) as [[a' b']|] eqn:E.
  - intros H. injection H as <- <-. apply split_once_Some in E.
    destruct E as [-> Hn]. split; [exact Hn|left; reflexivity].
  - intros H. injection H as <- <-. apply split_once_None in E.
    split; [exact E|right; split; reflexivity].
Qed.

Lemma cut_found (sep : N) (a b : str) :
  ~ In sep a -> b <> [] -> cut sep (a ++ sep :: b) = (a, b).
Proof. intros Ha _. unfold cut. rewrite split_once_app by exact Ha. reflexivity. Qed.

Lemma cut_absent (sep : N) (a : str) : ~ In sep a -> cut sep a = (a, []).
Proof.
  intros Ha. unfold cut. apply split_once_None in Ha. rewrite Ha. reflexivity.
Qed.

Lemma urlsplit_unfold `{HostChecks} (url0 : str) :
  urlsplit url0 =
  let url := remove_unsafe (lstrip_c0 url0) in
  let (sch, url) := split_scheme url in
  (let? (nl, url) :=
     if startswith [47; 47] url then
       let (nl, rest) := splitnetloc (skipn 2 url) in
       if negb (bracket_ok nl)
       then Raise (ValueError (lit "Invalid IPv6 URL"))
       else Ok (nl, rest)
     else Ok ([], url) in
   let (url, frag) := cut 35 url in
   let (url, q) := cut 63 url in
   if checknetloc nl
   then Ok (mkSplitResult sch nl url q frag)
   else Raise (ValueError (lit "netloc contains invalid characters under NFKC normalization")))%exc.
Proof.
  unfold urlsplit, cut, bracket_ok.
  destruct (split_scheme (remove_unsafe (lstrip_c0 url0))) as [sch url].
  destruct (startswith [47; 47] url); [|reflexivity].
  destruct (splitnetloc (skipn 2 url)) as [nl rest].
  rewrite negb_involutive. reflexivity.
Qed.

(** Every result of [urlsplit] is well formed. *)
Lemma urlsplit_wf `{HostChecks} (url0 : str) (r : SplitResult) :
  urlsplit url0 = Ok r -> wf_split r.
Proof.
  rewrite urlsplit_unfold. cbv zeta.
  pose proof (clean_remove_unsafe (lstrip_c0 url0)) as Hclean.
  destruct (split_scheme (remove_unsafe (lstrip_c0 url0))) as [sch u1] eqn:Es.
  apply split_scheme_spec in Es. destruct Es as [Hsch Hu1].
  assert (Hc1 : clean u1).
  { destruct Hu1 as [[_ ->]|[pre [E _]]]; [exact Hclean|].
    rewrite E in Hclean. apply clean_app in Hclean. destruct Hclean as [_ Hc].
    apply clean_cons in Hc. tauto. }
  clear Hu1 Hclean.
  destruct (startswith [47; 47] u1) eqn:E2.
  - apply startswith_slashes in E2.
    destruct (splitnetloc (skipn 2 u1)) as [nl u2] eqn:En.
    apply splitnetloc_spec in En. destruct En as [Eu [Hnl Hu2]].
    destruct (bracket_ok nl) eqn:Eb; cbn [negb bind]; [|discriminate].
    destruct (cut 35 u2) as [u3 frag] eqn:Ef.
    destruct (cut 63 u3) as [pth q] eqn:Eq.
    destruct (checknetloc nl) eqn:Ecn; [|discriminate].
    intros E. injection E as <-.
    apply cut_spec in Ef. destruct Ef as [Hn3 Ef].
    apply cut_spec in Eq. destruct Eq as [Hnp Eq].
    rewrite E2 in Hc1. apply clean_cons in Hc1. destruct Hc1 as [_ Hc1].
    apply clean_cons in Hc1. destruct Hc1 as [_ Hc1].
    rewrite Eu in Hc1. apply clean_app in Hc1. destruct Hc1 as [Hcn Hc2].
    assert (Hc3 : clean u3 /\ clean frag).
    { destruct Ef as [->|[-> ->]].
      - apply clean_app in Hc2. destruct Hc2 as [Ha Hb].
        apply clean_cons in Hb. tauto.
      - split; [exact Hc2|constructor]. }
    destruct Hc3 as [Hc3 Hcf].
    assert (Hcp : clean pth /\ clean q).
    { destruct Eq as [->|[-> ->]].
      - apply clean_app in Hc3. destruct Hc3 as [Ha Hb].
        apply clean_cons in Hb. tauto.
      - split; [exact Hc3|constructor]. }
    destruct Hcp as [Hcp Hcq].
    assert (Hp35 : ~ In 35 pth).
    { intros Hin. apply Hn3. destruct Eq as [->|[-> _]]; [|exact Hin].
      apply in_or_app. left. exact Hin. }
    assert (Hq35 : ~ In 35 q).
    { intros Hin. apply Hn3. destruct Eq as [->|[_ ->]]; [|destruct Hin].
      apply in_or_app. right. right. exact Hin. }
    constructor; cbn [s_scheme s_netloc s_path s_query s_fragment]; try assumption.
    intros _. destruct pth as [|c t]; [left; reflexivity|right].
    exists t. f_equal.
    assert (Hfirst : exists rest, u2 = c :: rest).
    { destruct Eq as [->|[-> _]]; destruct Ef as [->|[-> _]]; simpl; eexists; reflexivity. }
    destruct Hfirst as [rest ->].
    destruct Hu2 as [Hu2|[c' [t' [E Hd]]]]; [discriminate|].
    injection E as <- <-. apply netloc_delim_cases in Hd.
    destruct Hd as [ -> | [ -> | -> ] ]; [reflexivity| |].
    + exfalso. apply Hnp. left. reflexivity.
    + exfalso. apply Hp35. left. reflexivity.
  - cbn [bind].
    destruct (cut 35 u1) as [u3 frag] eqn:Ef.
    destruct (cut 63 u3) as [pth q] eqn:Eq.
    destruct (checknetloc []) eqn:Ecn; [|discriminate].
    intros E. injection E as <-.
    apply cut_spec in Ef. destruct Ef as [Hn3 Ef].
    apply cut_spec in Eq. destruct Eq as [Hnp Eq].
    assert (Hc3 : clean u3 /\ clean frag).
    { destruct Ef as [->|[-> ->]].
      - apply clean_app in Hc1. destruct Hc1 as [Ha Hb].
        apply clean_cons in Hb. tauto.
      - split; [exact Hc1|constructor]. }
    destruct Hc3 as [Hc3 Hcf].
    assert (Hcp : clean pth /\ clean q).
    { destruct Eq as [->|[-> ->]].
      - apply clean_app in Hc3. destruct Hc3 as [Ha Hb].
        apply clean_cons in Hb. tauto.
      - split; [exact Hc3|constructor]. }
    destruct Hcp as [Hcp Hcq].
    assert (Hp35 : ~ In 35 pth).
    { intros Hin. apply Hn3. destruct Eq as [->|[-> _]]; [|exact Hin].
      apply in_or_app. left. exact Hin. }
    assert (Hq35 : ~ In 35 q).
    { intros Hin. apply Hn3. destruct Eq as [->|[_ ->]]; [|destruct Hin].
      apply in_or_app. right. right. exact Hin. }
    constructor; cbn [s_scheme s_netloc s_path s_query s_fragment];
      try assumption.
    all: solve [intros Hne; congruence | reflexivity | constructor].
Qed.

(** ** [urlunsplit] followed by [urlsplit] *)

(** The text of a result with a host: scheme, [//], host, path, query
    and fragment. *)
Lemma urlunsplit_shape `{HostChecks} (r : SplitResult) :
  wf_split r -> s_netloc r <> [] ->
  urlunsplit r =
    (if truthy (s_scheme r) then s_scheme r ++ [58] else [])
    ++ 47 :: 47 :: s_netloc r
    ++ (s_path r
        ++ (if truthy (s_query r) then 63 :: s_query r else [])
        ++ (if truthy (s_fragment r) then 35 :: s_fragment r else [])).
Proof.
  intros Hwf Hne. destruct r as [sch nl p q f]. cbn [s_scheme s_netloc s_path s_query s_fragment] in *.
  pose proof (wf_path_start _ Hwf Hne) as Hp. cbn [s_path] in Hp.
  unfold urlunsplit. cbn [s_scheme s_netloc s_path s_query s_fragment].
  rewrite (proj2 (truthy_true nl) Hne). cbn [orb].
  assert (Hslash : (if truthy p && negb (startswith [47] p) then 47 :: p else p) = p).
  { destruct Hp as [->|[t ->]]; reflexivity. }
  rewrite Hslash.
  destruct (truthy sch), (truthy q), (truthy f);
    repeat (progress (cbn [app]; rewrite <- ?app_assoc));
    rewrite ?app_nil_r; reflexivity.
Qed.

(** Round trip: [urlsplit(urlunsplit(r)) == r] for a well-formed result
    with a host. *)
Lemma urlsplit_urlunsplit `{HostChecks} (r : SplitResult) :
  wf_split r -> s_netloc r <> [] -> urlsplit (urlunsplit r) = Ok r.
Proof.
  intros Hwf Hne. rewrite (urlunsplit_shape r Hwf Hne).
  destruct r as [sch nl p q f]. destruct Hwf as [Hsch Hnl Hbr Hck Hcn Hcp Hcq Hcf Hps Hp35 Hp63 Hq35].
  cbn [s_scheme s_netloc s_path s_query s_fragment] in *.
  specialize (Hps Hne).
  set (qpart := if truthy q then 63 :: q else []).
  set (fpart := if truthy f then 35 :: f else []).
  set (tail := p ++ qpart ++ fpart).
  set (body := 47 :: 47 :: nl ++ tail).
  assert (Hctail : clean tail).
  { unfold tail, qpart, fpart. apply clean_app. split; [exact Hcp|].
    apply clean_app. split.
    - destruct (truthy q); [apply clean_cons; split; [reflexivity|exact Hcq]|constructor].
    - destruct (truthy f); [apply clean_cons; split; [reflexivity|exact Hcf]|constructor]. }
  assert (Hcbody : clean body).
  { unfold body. apply clean_cons. split; [reflexivity|].
    apply clean_cons. split; [reflexivity|]. apply clean_app. split; assumption. }
  assert (Hscheme : split_scheme ((if truthy sch then sch ++ [58] else []) ++ body)
                    = (sch, body)).
  { destruct sch as [|c0 pre] eqn:Esch.
    - cbn [truthy app]. unfold body. apply split_scheme_slash.
    - rewrite <- Esch in *. rewrite (proj2 (truthy_true sch)) by (subst; discriminate).
      rewrite <- app_assoc. cbn [app].
      apply split_scheme_found; [exact Hsch|subst; discriminate]. }
  assert (Hsan : remove_unsafe (lstrip_c0 ((if truthy sch then sch ++ [58] else []) ++ body))
                 = (if truthy sch then sch ++ [58] else []) ++ body).
  { assert (Hstrip : lstrip_c0 ((if truthy sch then sch ++ [58] else []) ++ body)
                     = (if truthy sch then sch ++ [58] else []) ++ body).
    { destruct Hsch as [->|[[c0 [pre [-> Ha]]] _]].
      - cbn [truthy app]. unfold body. apply lstrip_c0_keeps. lia.
      - cbn [truthy app]. apply lstrip_c0_keeps.
        unfold is_ascii_alpha, is_upper, is_lower in Ha.
        apply orb_true_iff in Ha. destruct Ha as [Ha|Ha];
          apply andb_true_iff in Ha; destruct Ha as [Ha _]; apply N.leb_le in Ha; lia. }
    rewrite Hstrip. apply remove_unsafe_clean. apply clean_app. split; [|exact Hcbody].
    destruct (truthy sch); [|constructor].
    apply clean_app. split; [apply scheme_ok_clean; exact Hsch|].
    apply clean_cons. split; [reflexivity|constructor]. }
  rewrite urlsplit_unfold. cbv zeta. rewrite Hsan, Hscheme.
  unfold body at 1. cbn [startswith N.eqb Pos.eqb andb].
  unfold body. cbn [skipn].
  assert (Htail : tail = [] \/ exists c t, tail = c :: t /\ is_netloc_delim c = true).
  { unfold tail. destruct Hps as [->|[t ->]].
    - cbn [app]. unfold qpart. destruct (truthy q).
      + right. exists 63, (q ++ fpart). split; reflexivity.
      + cbn [app]. unfold fpart. destruct (truthy f).
        * right. exists 35, f. split; reflexivity.
        * left. reflexivity.
    - right. exists 47, (t ++ qpart ++ fpart). split; reflexivity. }
  rewrite (splitnetloc_app nl tail Hnl Htail). rewrite Hbr. cbn [negb bind].
  assert (Hcut1 : cut 35 tail = (p ++ qpart, f)).
  { assert (Hn : ~ In 35 (p ++ qpart)).
    { intros Hin. apply in_app_or in Hin. destruct Hin as [Hin|Hin]; [contradiction|].
      unfold qpart in Hin. destruct (truthy q); [|destruct Hin].
      destruct Hin as [E|Hin]; [discriminate|contradiction]. }
    unfold tail, fpart. destruct (truthy f) eqn:Ef.
    - rewrite app_assoc. apply cut_found; [exact Hn|apply truthy_true; exact Ef].
    - apply truthy_false in Ef. subst f. rewrite app_nil_r.
      apply cut_absent. exact Hn. }
  rewrite Hcut1.
  assert (Hcut2 : cut 63 (p ++ qpart) = (p, q)).
  { unfold qpart. destruct (truthy q) eqn:Eq.
    - apply cut_found; [exact Hp63|apply truthy_true; exact Eq].
    - apply truthy_false in Eq. subst q. rewrite app_nil_r.
      apply cut_absent. exact Hp63. }
  rewrite Hcut2, Hck. reflexivity.
Qed.

(** ** Parameters of the last path segment *)

(** The path and the parameters [urlparse] makes of the path of
    [urlsplit]. *)
Definition param_split (sch pth0 : str) : str * str :=
  if str_in sch uses_params && mem 59 pth0 then splitparams pth0 else (pth0, []).

(** The path [urlunparse] hands to [urlunsplit]. *)
Definition rejoin (pth prm : str) : str :=
  if truthy prm then pth ++ [59] ++ prm else pth.

Lemma urlparse_unfold `{HostChecks} (url : str) :
  urlparse url =
  (let? r := urlsplit url in
   let (p, prm) := param_split (s_scheme r) (s_path r) in
   Ok (mkParseResult (s_scheme r) (s_netloc r) p prm (s_query r) (s_fragment r)))%exc.
Proof. reflexivity. Qed.

Lemma urlunparse_unfold (p : ParseResult) :
  urlunparse p =
  urlunsplit (mkSplitResult (scheme p) (netloc p) (rejoin (path p) (params p))
                            (query p) (fragment p)).
Proof. reflexivity. Qed.

Lemma rsplit_at_spec (c : N) (s a b : str) :
  mem c s = true -> rsplit_at c s = (a, b) ->
  s = a ++ b /\ exists b', b = c :: b' /\ ~ In c b'.
Proof.
  revert a. induction s as [|x t IH]; intros a; [discriminate|].
  cbn [rsplit_at mem]. destruct (mem c t) eqn:Em.
  - intros _. destruct (rsplit_at c t) as [a' b0]. intros E. injection E as <- <-.
    destruct (IH a' eq_refl eq_refl) as [-> Hb]. split; [reflexivity|exact Hb].
  - rewrite orb_false_r. intros Hx E. injection E as <- <-.
    apply N.eqb_eq in Hx. subst x. split; [reflexivity|].
    exists t. split; [reflexivity|]. apply mem_false. exact Em.
Qed.

Lemma rsplit_at_app (c : N) (a b' : str) :
  ~ In c b' -> rsplit_at c (a ++ c :: b') = (a, c :: b').
Proof.
  intros Hb. induction a as [|x a IH]; cbn [app rsplit_at].
  - rewrite (proj2 (mem_false c b') Hb). reflexivity.
  - rewrite mem_app. cbn [mem]. rewrite N.eqb_refl, orb_true_r.
    rewrite IH. reflexivity.
Qed.

(** Splitting the parameters off, joining them back and splitting again
    gives the same path and parameters; the joined path is the path
    before the split, less a final [';'] when there are no parameters
    after it. *)
Lemma param_split_rejoin (sch pth0 pth prm : str) :
  param_split sch pth0 = (pth, prm) ->
  param_split sch (rejoin pth prm) = (pth, prm) /\
  exists suffix, pth0 = rejoin pth prm ++ suffix.
Proof.
  unfold param_split.
  destruct (str_in sch uses_params && mem 59 pth0) eqn:Ec.
  2:{ intros E. injection E as <- <-. unfold rejoin. cbn [truthy].
      rewrite Ec. split; [reflexivity|]. exists []. rewrite app_nil_r. reflexivity. }
  apply andb_true_iff in Ec. destruct Ec as [Eu Em]. rewrite Eu. cbn [andb].
  unfold splitparams. destruct (mem 47 pth0) eqn:E47.
  - destruct (rsplit_at 47 pth0) as [dir base] eqn:Er.
    apply (rsplit_at_spec 47 pth0 dir base E47) in Er.
    destruct Er as [Ep [b' [Eb Hb']]].
    destruct (split_once 59 base) as [[a b]|] eqn:Es.
    + apply split_once_Some in Es. destruct Es as [Ebase Ha].
      intros E. injection E as <- <-.
      assert (Ha' : exists a', a = 47 :: a' /\ ~ In 47 a').
      { destruct a as [|x a'].
        - rewrite Eb in Ebase. discriminate.
        - rewrite Eb in Ebase. injection Ebase as <- Eb'. exists a'. split; [reflexivity|].
          intros Hin. apply Hb'. rewrite Eb'. apply in_or_app. left. exact Hin. }
      destruct Ha' as [a' [Ea Ha47]].
      unfold rejoin. destruct (truthy b) eqn:Etb.
      * assert (Ejoin : (dir ++ a) ++ [59] ++ b = pth0).
        { rewrite Ep, Ebase. rewrite <- app_assoc. reflexivity. }
        rewrite Ejoin. rewrite Em, E47.
        assert (Er2 : rsplit_at 47 pth0 = (dir, base)).
        { rewrite Ep, Eb. apply rsplit_at_app. exact Hb'. }
        rewrite Er2. rewrite Ebase. rewrite split_once_app by exact Ha.
        split; [reflexivity|]. exists []. rewrite app_nil_r. reflexivity.
      * apply truthy_false in Etb. subst b. split.
        -- destruct (mem 59 (dir ++ a)) eqn:Em2; [|reflexivity].
           rewrite mem_app. rewrite Ea. cbn [mem]. rewrite N.eqb_refl.
           cbn [orb]. rewrite orb_true_r.
           rewrite rsplit_at_app by exact Ha47.
           rewrite <- Ea. apply split_once_None in Ha. rewrite Ha. reflexivity.
        -- exists [59]. rewrite Ep, Ebase. rewrite <- app_assoc. reflexivity.
    + intros E. injection E as <- <-. unfold rejoin. cbn [truthy].
      rewrite Em, E47.
      assert (Er2 : rsplit_at 47 pth0 = (dir, base)).
      { rewrite Ep, Eb. apply rsplit_at_app. exact Hb'. }
      rewrite Er2, Es. split; [reflexivity|]. exists []. rewrite app_nil_r. reflexivity.
  - destruct (split_once 59 pth0) as [[a b]|] eqn:Es.
    + pose proof Es as Es'. apply split_once_Some in Es'. destruct Es' as [Ep Ha].
      intros E. injection E as <- <-.
      unfold rejoin. destruct (truthy b) eqn:Etb.
      * assert (Ejoin : a ++ [59] ++ b = pth0) by (rewrite Ep; reflexivity).
        rewrite Ejoin. rewrite Em, E47, Es.
        split; [reflexivity|]. exists []. rewrite app_nil_r. reflexivity.
      * apply truthy_false in Etb. subst b. split.
        -- rewrite (proj2 (mem_false 59 a) Ha). reflexivity.
        -- exists [59]. exact Ep.
    + exfalso. apply split_once_None in Es. apply Es. apply mem_In. exact Em.
Qed.

(** ** [urlunparse] followed by [urlparse] *)

(** Round trip: a URL with a host, taken apart by [urlparse] and put
    together by [urlunparse] with another query string, parses into the
    same components with that query string. *)
Lemma urlparse_urlunparse `{HostChecks} (url : str) (p : ParseResult) (q : str) :
  urlparse url = Ok p -> netloc p <> [] ->
  clean q -> ~ In 35 q ->
  urlparse (urlunparse (set_query p q)) = Ok (set_query p q).
Proof.
  rewrite urlparse_unfold.
  destruct (urlsplit url) as [r|e] eqn:Eu; cbn [bind]; [|discriminate].
  destruct (param_split (s_scheme r) (s_path r)) as [pth prm] eqn:Ep.
  intros E. injection E as <-. cbn [netloc].
  intros Hne Hcq Hq35.
  apply urlsplit_wf in Eu.
  destruct (param_split_rejoin _ _ _ _ Ep) as [Hagain [suffix Hpre]].
  rewrite urlunparse_unfold. unfold set_query.
  cbn [scheme netloc path params query fragment].
  destruct Eu as [Hsch Hnl Hbr Hck Hcn Hcp Hcq0 Hcf Hps Hp35 Hp63 Hq035].
  assert (Hwf : wf_split (mkSplitResult (s_scheme r) (s_netloc r) (rejoin pth prm)
                                        q (s_fragment r))).
  { constructor; cbn [s_scheme s_netloc s_path s_query s_fragment]; try assumption.
    - rewrite Hpre in Hcp. apply clean_app in Hcp. tauto.
    - intros _. specialize (Hps Hne). rewrite Hpre in Hps.
      destruct (rejoin pth prm) as [|c t]; [left; reflexivity|right].
      destruct Hps as [Hps|[t' Hps]]; [discriminate|].
      injection Hps as -> _. exists t. reflexivity.
    - intros Hin. apply Hp35. rewrite Hpre. apply in_or_app. left. exact Hin.
    - intros Hin. apply Hp63. rewrite Hpre. apply in_or_app. left. exact Hin. }
  rewrite urlparse_unfold.
  rewrite (urlsplit_urlunsplit _ Hwf Hne). cbn [bind s_scheme s_path s_netloc s_query s_fragment].
  rewrite Hagain. reflexivity.
Qed.

End UrlFacts.

(* ===================================================================== *)
(** * Properties of the filter composer *)
(* ===================================================================== *)

Module FilterFacts.
Import Py Dict UrlLib App PyFacts QuoteFacts DictFacts QueryFacts UrlFacts.

(** The loop [for k, v in filters.items(): query[k] = [v]]. *)
Definition apply_filters (filters : dict str) (d : dict (list str)) : dict (list str) :=
  fold_left (fun q kv => Dict.set (fst kv) [snd kv] q) filters d.

Lemma add_filters_unfold `{HostChecks} (base_url : str) (filters : dict str) :
  add_filters base_url filters =
  (let? parts := urlparse base_url in
   let? q := urlencode (apply_filters filters (parse_qs (query parts))) in
   Ok (urlunparse (set_query parts q)))%exc.
Proof. reflexivity. Qed.

Lemma apply_filters_NoDup (filters : dict str) (d : dict (list str)) :
  NoDup (keys d) -> NoDup (keys (apply_filters filters d)).
Proof.
  revert d. induction filters as [|kv f IH]; intros d Hd; [exact Hd|].
  apply IH. apply NoDup_keys_set. exact Hd.
Qed.

Lemma apply_filters_well_valued (filters : dict str) (d : dict (list str)) :
  (forall k v, In (k, v) filters -> v <> []) ->
  well_valued d -> well_valued (apply_filters filters d).
Proof.
  revert d. induction filters as [|[k v] f IH]; intros d Hf Hd; [exact Hd|].
  apply IH.
  - intros k' v' Hin. apply (Hf k' v'). right. exact Hin.
  - apply well_valued_set; [exact Hd|discriminate|].
    constructor; [|constructor]. apply (Hf k v). left. reflexivity.
Qed.

(** A name that is no filter keeps its values. *)
Lemma apply_filters_other (filters : dict str) (d : dict (list str)) (k : str) :
  ~ In k (keys filters) -> get k (apply_filters filters d) = get k d.
Proof.
  revert d. induction filters as [|[k' v] f IH]; intros d Hk; [reflexivity|].
  cbn [apply_filters fold_left fst snd].
  change (get k (apply_filters f (set k' [v] d)) = get k d).
  rewrite IH.
  - apply get_set_other. intros E. apply Hk. left. symmetry. exact E.
  - intros Hin. apply Hk. right. exact Hin.
Qed.

(** A filter name gets the filter value as its only value. *)
Lemma apply_filters_in (filters : dict str) (d : dict (list str)) (k v : str) :
  NoDup (keys filters) -> In (k, v) filters ->
  get k (apply_filters filters d) = Some [v].
Proof.
  revert d. induction filters as [|[k' v'] f IH]; intros d Hnd Hin; [destruct Hin|].
  inversion Hnd as [|? ? Hnot Hnd']; subst.
  change (get k (apply_filters f (set k' [v'] d)) = Some [v]).
  destruct Hin as [E|Hin].
  - injection E as -> ->. rewrite apply_filters_other by exact Hnot.
    apply get_set_same.
  - apply IH; assumption.
Qed.

(** Applying the filters to a dictionary that has them changes nothing. *)
Lemma apply_filters_fixed (filters : dict str) (d : dict (list str)) :
  (forall k v, In (k, v) filters -> get k d = Some [v]) ->
  apply_filters filters d = d.
Proof.
  induction filters as [|[k v] f IH]; intros Hf; [reflexivity|].
  change (apply_filters f (set k [v] d) = d).
  rewrite set_same by (apply Hf; left; reflexivity).
  apply IH. intros k' v' Hin. apply Hf. right. exact Hin.
Qed.

(** The characters of what [urlencode] returns. *)
Lemma join_chars (P : N -> Prop) (sep : N) (items : list str) :
  P sep -> Forall (Forall P) items -> Forall P (join [sep] items).
Proof.
  intros Hsep Hall. induction Hall as [|x r Hx Hr IH]; [constructor|].
  destruct r as [|y r'].
  - exact Hx.
  - change (join [sep] (x :: y :: r')) with (x ++ sep :: join [sep] (y :: r')).
    apply Forall_app. split; [exact Hx|]. constructor; [exact Hsep|exact IH].
Qed.

Lemma urlencode_chars (d : dict (list str)) (q : str) :
  urlencode d = Ok q -> clean q /\ ~ In 35 q.
Proof.
  intros Hq. apply urlencode_items in Hq. destruct Hq as [items [Hall ->]].
  assert (Hc : Forall (fun c => is_unsafe c = false /\ c <> 35) (join [38] items)).
  { apply join_chars; [split; [reflexivity|discriminate]|].
    clear -Hall. induction Hall as [|kv item l l' Hkv _ IH]; constructor; [|exact IH].
    destruct Hkv as [qk [qv [Hk [Hv ->]]]].
    destruct (quote_plus_chars _ _ Hk) as [Hck _].
    destruct (quote_plus_chars _ _ Hv) as [Hcv _].
    assert (Hplain : forall c, quoted_char c = true -> is_unsafe c = false /\ c <> 35).
    { intros c Hc. apply quoted_char_plain in Hc. unfold plain_char in Hc.
      repeat (apply andb_true_iff in Hc; destruct Hc as [Hc ?]).
      split.
      - apply negb_true_iff. assumption.
      - match goal with X : negb (c =? 35) = true |- _ =>
          apply negb_true_iff in X; apply N.eqb_neq in X; exact X end. }
    apply Forall_app. split; [eapply Forall_impl; [|exact Hck]; exact Hplain|].
    apply Forall_app. split; [constructor; [split; [reflexivity|discriminate]|constructor]|].
    eapply Forall_impl; [|exact Hcv]. exact Hplain. }
  split.
  - eapply Forall_impl; [|exact Hc]. intros c [H _]. exact H.
  - intros Hin. rewrite Forall_forall in Hc. apply Hc in Hin. destruct Hin as [_ Hin].
    apply Hin. reflexivity.
Qed.

(** What a successful call computed. *)
Lemma add_filters_Ok `{HostChecks} (base_url : str) (filters : dict str) (r : str) :
  add_filters base_url filters = Ok r ->
  exists p q,
    urlparse base_url = Ok p /\
    urlencode (apply_filters filters (parse_qs (query p))) = Ok q /\
    r = urlunparse (set_query p q).
Proof.
  rewrite add_filters_unfold.
  destruct (urlparse base_url) as [p|e]; cbn [bind]; [|discriminate].
  destruct (urlencode (apply_filters filters (parse_qs (query p)))) as [q|e] eqn:Eq;
    cbn [bind]; [|discriminate].
  intros E. injection E as <-. exists p, q. repeat split. exact Eq.
Qed.

(** ** Idempotence *)

(** C5 as stated fails: with the filter set {"b": "", "c": "1"} the first
    composition writes [b=&c=1]; the second one reads it back without the
    blank [b], so [b] is set again after [c] and the result is [c=1&b=]. *)
Lemma blank_filter_value_moves :
  @add_filters Sample.lenient_hosts (lit "http://h/p")
     [(lit "b", lit ""); (lit "c", lit "1")] = Ok (lit "http://h/p?b=&c=1") /\
  @add_filters Sample.lenient_hosts (lit "http://h/p?b=&c=1")
     [(lit "b", lit ""); (lit "c", lit "1")] = Ok (lit "http://h/p?c=1&b=") /\
  lit "http://h/p?b=&c=1" <> lit "http://h/p?c=1&b=".
Proof.
  repeat split; try (vm_compute; reflexivity).
  vm_compute. discriminate.
Qed.

(** Without a host [urlunparse] does not always give back a URL that
    parses into the same parts: composing the empty filter set twice onto
    [http://////x] gives [http:////x] and then [http://x]. *)
Lemma empty_host_moves :
  @add_filters Sample.lenient_hosts (lit "http://////x") [] = Ok (lit "http:////x") /\
  @add_filters Sample.lenient_hosts (lit "http:////x") [] = Ok (lit "http://x") /\
  lit "http:////x" <> lit "http://x".
Proof.
  repeat split; try (vm_compute; reflexivity).
  vm_compute. discriminate.
Qed.

(** C5, amended: filter composition is idempotent for every URL with a
    host (a non-empty network location) and every filter set whose values
    are all non-empty: when composing the filter set onto the URL returns
    a URL, composing it onto that URL returns the same URL. *)
Theorem add_filters_idempotent `{HostChecks}
  (base_url : str) (filters : dict str) (p : ParseResult) (r : str) :
  NoDup (keys filters) ->
  (forall k v, In (k, v) filters -> v <> []) ->
  urlparse base_url = Ok p -> netloc p <> [] ->
  add_filters base_url filters = Ok r ->
  add_filters r filters = Ok r.
Proof.
  intros Hnd Hval Hp Hne Hr.
  apply add_filters_Ok in Hr. destruct Hr as [p' [q [Hp' [Hq ->]]]].
  rewrite Hp in Hp'. injection Hp' as <-.
  set (d := apply_filters filters (parse_qs (query p))) in *.
  destruct (urlencode_chars d q Hq) as [Hclean H35].
  assert (HdN : NoDup (keys d)) by (apply apply_filters_NoDup; apply NoDup_keys_parse_qs).
  assert (HdW : well_valued d)
    by (apply apply_filters_well_valued; [exact Hval|apply well_valued_parse_qs]).
  rewrite add_filters_unfold.
  rewrite (urlparse_urlunparse base_url p q Hp Hne Hclean H35). cbn [bind].
  change (query (set_query p q)) with q.
  rewrite (parse_qs_urlencode d q HdN HdW Hq).
  rewrite apply_filters_fixed.
  - rewrite Hq. reflexivity.
  - intros k v Hin. apply apply_filters_in; assumption.
Qed.

(** The filter {"b": "9"} on [http://h/p?a=1&b=2]. *)
Lemma add_filters_idempotent_witness :
  @add_filters Sample.lenient_hosts (lit "http://h/p?a=1&b=9") [(lit "b", lit "9")]
  = Ok (lit "http://h/p?a=1&b=9").
Proof.
  apply (@add_filters_idempotent Sample.lenient_hosts
           (lit "http://h/p?a=1&b=2") [(lit "b", lit "9")]
           (mkParseResult (lit "http") (lit "h") (lit "/p") [] (lit "a=1&b=2") [])).
  - constructor; [intros []|constructor].
  - intros k v [E|[]]. injection E as _ <-. vm_compute. discriminate.
  - vm_compute. reflexivity.
  - vm_compute. discriminate.
  - vm_compute. reflexivity.
Defined.

(** ** Parameters kept and parameters replaced *)




End FilterFacts.

(* ===================================================================== *)
(** * Properties of the cookie header parser *)
(* ===================================================================== *)

Module CookieFacts.
Import Py Dict UrlLib App PyFacts DictFacts QueryFacts.

(** ** Stripping *)

Definition spaces (s : str) : Prop := Forall (fun c => isspace c = true) s.

Lemma lstrip_shape (s : str) :
  lstrip s = [] \/ exists c t, lstrip s = c :: t /\ isspace c = false.
Proof.
  induction s as [|c t IH]; [left; reflexivity|].
  cbn [lstrip]. destruct (isspace c) eqn:E; [exact IH|].
  right. exists c, t. split; [reflexivity|exact E].
Qed.

Lemma lstrip_nonspace (c : N) (t : str) : isspace c = false -> lstrip (c :: t) = c :: t.
Proof. intros E. cbn [lstrip]. rewrite E. reflexivity. Qed.

Lemma lstrip_spaces (l x : str) : spaces l -> lstrip (l ++ x) = lstrip x.
Proof.
  intros Hl. induction Hl as [|c l Hc _ IH]; [reflexivity|].
  cbn [app lstrip]. rewrite Hc. exact IH.
Qed.

Lemma spaces_rev (l : str) : spaces l -> spaces (rev l).
Proof. intros Hl. apply Forall_rev. exact Hl. Qed.

Lemma rstrip_spaces (x r : str) : spaces r -> rstrip (x ++ r) = rstrip x.
Proof.
  intros Hr. unfold rstrip. rewrite rev_app_distr.
  rewrite lstrip_spaces by (apply spaces_rev; exact Hr). reflexivity.
Qed.

Lemma rstrip_nil : rstrip [] = [].
Proof. reflexivity. Qed.

(** [rstrip] keeps the first character of a text that starts with a
    character that is no white space. *)
Lemma rstrip_keeps_head (c : N) (t : str) :
  isspace c = false -> exists t', rstrip (c :: t) = c :: t'.
Proof.
  intros E. unfold rstrip. cbn [rev].
  destruct (lstrip_keeps_nonspace (rev t) c E) as [pre' Hp].
  rewrite Hp, rev_app_distr. cbn [rev app]. exists (rev pre'). reflexivity.
Qed.

Lemma lstrip_idempotent (s : str) : lstrip (lstrip s) = lstrip s.
Proof.
  destruct (lstrip_shape s) as [E|[c [t [E Hc]]]]; rewrite E; [reflexivity|].
  apply lstrip_nonspace. exact Hc.
Qed.

Lemma rstrip_idempotent (s : str) : rstrip (rstrip s) = rstrip s.
Proof. unfold rstrip. rewrite rev_involutive, lstrip_idempotent. reflexivity. Qed.

Lemma lstrip_rstrip (s : str) : lstrip s = s -> lstrip (rstrip s) = rstrip s.
Proof.
  intros E. destruct (lstrip_shape s) as [E0|[c [t [E1 Hc]]]]; rewrite E in *.
  - subst s. reflexivity.
  - subst s. destruct (rstrip_keeps_head c t Hc) as [t' Ht]. rewrite Ht.
    apply lstrip_nonspace. exact Hc.
Qed.

(** [s.strip().strip() == s.strip()]. *)
Lemma strip_idempotent (s : str) : strip (strip s) = strip s.
Proof.
  unfold strip.
  rewrite (lstrip_rstrip (lstrip s) (lstrip_idempotent s)).
  apply rstrip_idempotent.
Qed.

Lemma lstrip_length (s : str) : (length (lstrip s) <= length s)%nat.
Proof.
  destruct (lstrip_suffix s) as [a Ha]. rewrite Ha at 2. rewrite length_app. lia.
Qed.

Lemma rstrip_length (s : str) : (length (rstrip s) <= length s)%nat.
Proof.
  destruct (rstrip_prefix s) as [b Hb]. rewrite Hb at 2. rewrite length_app. lia.
Qed.

(** A stripped text is untouched by either half of [strip]. *)
Lemma stripped_both (s : str) : strip s = s -> lstrip s = s /\ rstrip s = s.
Proof.
  intros E.
  assert (Hl : lstrip s = s).
  { destruct (lstrip_suffix s) as [a Ha].
    assert (Hlen : (length s <= length (lstrip s))%nat).
    { rewrite <- E at 1. unfold strip. apply rstrip_length. }
    assert (Ha0 : a = []).
    { apply length_zero_iff_nil.
      apply (f_equal (@length N)) in Ha. rewrite length_app in Ha. lia. }
    rewrite Ha0 in Ha. cbn [app] in Ha. symmetry. exact Ha. }
  split; [exact Hl|]. unfold strip in E. rewrite Hl in E. exact E.
Qed.

Lemma lstrip_all_spaces (r : str) : spaces r -> lstrip r = [].
Proof.
  intros Hr. rewrite <- (app_nil_r r). rewrite lstrip_spaces by exact Hr. reflexivity.
Qed.

(** White space around a stripped text is what [strip] removes. *)
Lemma strip_padded (l s r : str) :
  spaces l -> spaces r -> strip s = s -> strip (l ++ s ++ r) = s.
Proof.
  intros Hl Hr Hs. destruct (stripped_both s Hs) as [HL HR].
  unfold strip. rewrite lstrip_spaces by exact Hl.
  destruct s as [|c t].
  - cbn [app]. rewrite lstrip_all_spaces by exact Hr. reflexivity.
  - assert (Hc : isspace c = false).
    { destruct (isspace c) eqn:E; [|reflexivity].
      cbn [lstrip] in HL. rewrite E in HL.
      pose proof (lstrip_length t) as Hlen. rewrite HL in Hlen. cbn [length] in Hlen. lia. }
    change ((c :: t) ++ r) with (c :: (t ++ r)).
    rewrite lstrip_nonspace by exact Hc.
    change (c :: (t ++ r)) with ((c :: t) ++ r).
    rewrite rstrip_spaces by exact Hr. exact HR.
Qed.

Lemma spaces_not_in (c : N) (l : str) : isspace c = false -> spaces l -> ~ In c l.
Proof.
  intros Hc Hl Hin. unfold spaces in Hl. rewrite Forall_forall in Hl.
  apply Hl in Hin. congruence.
Qed.

(** ** The parser as a fold over name/value pairs *)

(** The pair a part of the header gives, if it holds ['=']. *)
Definition cookie_pair (part : str) : list (str * str) :=
  match split_once 61 part with
  | Some (name, value) => [(strip name, strip value)]
  | None => []
  end.

Definition cookie_pairs (cookie_header : str) : list (str * str) :=
  flat_map cookie_pair (split 59 cookie_header).

Lemma fold_cookie_parts (parts : list str) (acc : dict str) :
  fold_left (fun cookies part =>
      match split_once 61 part with
      | Some (name, value) => Dict.set (strip name) (strip value) cookies
      | None => cookies
      end) parts acc
  = fold_left (fun d kv => Dict.set (fst kv) (snd kv) d) (flat_map cookie_pair parts) acc.
Proof.
  revert acc. induction parts as [|p ps IH]; intros acc; [reflexivity|].
  cbn [fold_left flat_map]. rewrite fold_left_app, IH. unfold cookie_pair.
  destruct (split_once 61 p) as [[n v]|]; cbn [fold_left fst snd]; reflexivity.
Qed.

Lemma parse_cookie_header_pairs (h : str) :
  parse_cookie_header h = Dict.of_list (cookie_pairs h).
Proof. unfold parse_cookie_header, Dict.of_list, cookie_pairs. apply fold_cookie_parts. Qed.

Section Folds.
Context {V : Type}.

Lemma of_list_NoDup (l : list (str * V)) (acc : dict V) :
  NoDup (keys acc) ->
  NoDup (keys (fold_left (fun d kv => Dict.set (fst kv) (snd kv) d) l acc)).
Proof.
  revert acc. induction l as [|kv l IH]; intros acc Hacc; [exact Hacc|].
  cbn [fold_left]. apply IH. apply NoDup_keys_set. exact Hacc.
Qed.

Lemma of_list_members (P : str * V -> Prop) (l : list (str * V)) (acc : dict V) :
  Forall P acc -> Forall P l ->
  Forall P (fold_left (fun d kv => Dict.set (fst kv) (snd kv) d) l acc).
Proof.
  revert acc. induction l as [|kv l IH]; intros acc Hacc Hl; [exact Hacc|].
  inversion Hl as [|? ? Hkv Hl']; subst. cbn [fold_left]. apply IH; [|exact Hl'].
  apply Forall_forall. intros x Hx. apply in_set in Hx. destruct Hx as [->|Hx].
  - destruct kv; exact Hkv.
  - rewrite Forall_forall in Hacc. apply Hacc. exact Hx.
Qed.

Lemma of_list_get (k : str) (l : list (str * V)) (acc : dict V) :
  get k (fold_left (fun d kv => Dict.set (fst kv) (snd kv) d) l acc)
  = match rev (filter (fun kv => str_eqb (fst kv) k) l) with
    | kv :: _ => Some (snd kv)
    | [] => get k acc
    end.
Proof.
  revert acc. induction l as [|[k' v] l IH]; intros acc; [reflexivity|].
  cbn [fold_left filter fst snd]. rewrite IH.
  destruct (str_eqb k' k) eqn:E.
  - cbn [rev]. apply str_eqb_eq in E. subst k'.
    destruct (rev (filter (fun kv => str_eqb (fst kv) k) l)) as [|x r]; cbn [app].
    + apply get_set_same.
    + reflexivity.
  - destruct (rev (filter (fun kv => str_eqb (fst kv) k) l)) as [|x r]; [|reflexivity].
    apply get_set_other. apply str_eqb_neq in E. congruence.
Qed.

Lemma of_list_fresh (l : list (str * V)) (acc : dict V) :
  NoDup (keys acc ++ keys l) ->
  fold_left (fun d kv => Dict.set (fst kv) (snd kv) d) l acc = acc ++ l.
Proof.
  revert acc. induction l as [|[k v] l IH]; intros acc Hnd.
  - cbn [fold_left]. rewrite app_nil_r. reflexivity.
  - cbn [fold_left fst snd].
    assert (Hk : get k acc = None).
    { apply get_None. intros Hin. cbn [keys map fst] in Hnd.
      apply NoDup_remove_2 in Hnd. apply Hnd. apply in_or_app. left. exact Hin. }
    rewrite (set_new _ acc k v Hk). rewrite IH.
    + rewrite <- app_assoc. reflexivity.
    + unfold keys in *. rewrite map_app. cbn [map fst app] in *.
      rewrite <- app_assoc. exact Hnd.
Qed.

End Folds.

Lemma split_parts (sep : N) (s : str) : Forall (fun x => ~ In sep x) (split sep s).
Proof.
  induction s as [|c t IH]; [constructor; [intros []|constructor]|].
  cbn [split]. destruct (c =? sep) eqn:E.
  - constructor; [intros []|exact IH].
  - destruct (split sep t) as [|x r]; [constructor; [|constructor]|].
    + intros [<-|[]]. rewrite N.eqb_refl in E. discriminate.
    + inversion IH as [|? ? Hx Hr]; subst. constructor; [|exact Hr].
      intros [<-|Hin]; [rewrite N.eqb_refl in E; discriminate|auto].
Qed.

Lemma strip_In (c : N) (s : str) : In c (strip s) -> In c s.
Proof.
  intros Hin. destruct (strip_slice s) as [a [b E]]. rewrite E.
  apply in_or_app. right. apply in_or_app. left. exact Hin.
Qed.

(** What the parser accepts as, and returns as, a cookie: a name and a
    value without white space at their ends, the name without ['='] and
    neither with [';']. *)
Definition cookie_ok (kv : str * str) : Prop :=
  strip (fst kv) = fst kv /\ strip (snd kv) = snd kv /\
  ~ In 61 (fst kv) /\ ~ In 59 (fst kv) /\ ~ In 59 (snd kv).

Lemma cookie_pair_ok (part : str) :
  ~ In 59 part -> Forall cookie_ok (cookie_pair part).
Proof.
  intros Hp. unfold cookie_pair.
  destruct (split_once 61 part) as [[n v]|] eqn:E; [|constructor].
  apply split_once_Some in E. destruct E as [-> Hn].
  constructor; [|constructor]. unfold cookie_ok. cbn [fst snd].
  repeat split.
  - apply strip_idempotent.
  - apply strip_idempotent.
  - intros Hin. apply Hn. apply strip_In. exact Hin.
  - intros Hin. apply Hp. apply in_or_app. left. apply strip_In. exact Hin.
  - intros Hin. apply Hp. apply in_or_app. right. right. apply strip_In. exact Hin.
Qed.

Lemma cookie_pairs_ok (h : str) : Forall cookie_ok (cookie_pairs h).
Proof.
  unfold cookie_pairs. pose proof (split_parts 59 h) as Hs.
  induction Hs as [|p ps Hp _ IH]; [constructor|].
  cbn [flat_map]. apply Forall_app. split; [apply cookie_pair_ok; exact Hp|exact IH].
Qed.

(** X1.  Whatever the header, the names and values [parse_cookie_header]
    returns have no white space at their ends, no name holds ['='] or
    [';'], no value holds [';']. *)
Theorem parsed_cookies_are_clean (cookie_header : str) :
  Forall cookie_ok (parse_cookie_header cookie_header).
Proof.
  rewrite parse_cookie_header_pairs. unfold Dict.of_list.
  apply of_list_members; [constructor|apply cookie_pairs_ok].
Qed.

(** X2.  A name that occurs in several parts of the header keeps the
    value of its last part: looking a name up in the result gives the
    value of the last pair with that name. *)
Theorem repeated_cookie_keeps_last (cookie_header k : str) :
  get k (parse_cookie_header cookie_header)
  = hd_error (rev (values_of k (cookie_pairs cookie_header))).
Proof.
  rewrite parse_cookie_header_pairs. unfold Dict.of_list. rewrite of_list_get.
  unfold values_of. rewrite <- map_rev.
  destruct (rev (filter (fun kv => str_eqb (fst kv) k) (cookie_pairs cookie_header)));
    reflexivity.
Qed.

(** One part of a header for the cookie [kv]: the name, ['='] and the
    value, with any white space around each. *)
Definition cookie_part (kv : str * str) (part : str) : Prop :=
  exists l m1 m2 r,
    spaces l /\ spaces m1 /\ spaces m2 /\ spaces r /\
    part = l ++ fst kv ++ m1 ++ 61 :: m2 ++ snd kv ++ r.

Lemma cookie_part_pair (kv : str * str) (part : str) :
  cookie_ok kv -> cookie_part kv part ->
  cookie_pair part = [kv] /\ ~ In 59 part.
Proof.
  intros [Hk [Hv [Hk61 [Hk59 Hv59]]]] [l [m1 [m2 [r [Hl [Hm1 [Hm2 [Hr ->]]]]]]]].
  assert (H61 : isspace 61 = false) by reflexivity.
  assert (H59 : isspace 59 = false) by reflexivity.
  split.
  - unfold cookie_pair.
    replace (l ++ fst kv ++ m1 ++ 61 :: m2 ++ snd kv ++ r)
      with ((l ++ fst kv ++ m1) ++ 61 :: (m2 ++ snd kv ++ r))
      by (rewrite <- !app_assoc; reflexivity).
    rewrite split_once_app.
    + rewrite (strip_padded l (fst kv) m1 Hl Hm1 Hk).
      rewrite (strip_padded m2 (snd kv) r Hm2 Hr Hv).
      destruct kv; reflexivity.
    + intros Hin. apply in_app_or in Hin. destruct Hin as [Hin|Hin].
      * exact (spaces_not_in 61 l H61 Hl Hin).
      * apply in_app_or in Hin. destruct Hin as [Hin|Hin]; [exact (Hk61 Hin)|].
        exact (spaces_not_in 61 m1 H61 Hm1 Hin).
  - intros Hin.
    repeat (apply in_app_or in Hin; destruct Hin as [Hin|Hin];
            [first [exact (spaces_not_in 59 _ H59 Hl Hin)
                   |exact (spaces_not_in 59 _ H59 Hm1 Hin)
                   |exact (Hk59 Hin)]|]).
    destruct Hin as [Hin|Hin]; [discriminate|].
    repeat (apply in_app_or in Hin; destruct Hin as [Hin|Hin];
            [first [exact (spaces_not_in 59 _ H59 Hm2 Hin)
                   |exact (Hv59 Hin)]|]).
    exact (spaces_not_in 59 _ H59 Hr Hin).
Qed.

(** X3.  Parsing a header written from a cookie dictionary gives the
    dictionary back: for cookies as the parser returns them (see
    [cookie_ok]) under distinct names, and a header that has one part
    [name=value] per cookie, in order, the parts separated by [';'] and
    padded with any white space, the parser returns exactly these
    cookies, in this order. *)
Theorem parse_cookie_header_of_parts (d : dict str) (parts : list str) :
  NoDup (keys d) ->
  Forall cookie_ok d ->
  Forall2 cookie_part d parts ->
  parse_cookie_header (join [59] parts) = d.
Proof.
  intros Hnd Hok Hparts.
  assert (Hpairs : flat_map cookie_pair parts = d /\ Forall (fun x => ~ In 59 x) parts).
  { clear Hnd. induction Hparts as [|kv part d' parts' Hkv _ IH].
    - split; [reflexivity|constructor].
    - inversion Hok as [|? ? Hkv_ok Hok']; subst.
      destruct (cookie_part_pair kv part Hkv_ok Hkv) as [Hp Hno].
      destruct (IH Hok') as [IH1 IH2].
      split; [|constructor; assumption].
      cbn [flat_map]. rewrite Hp, IH1. reflexivity. }
  destruct Hpairs as [Hpairs Hno].
  destruct parts as [|p ps].
  - inversion Hparts; subst. reflexivity.
  - rewrite parse_cookie_header_pairs. unfold cookie_pairs, Dict.of_list.
    rewrite split_join by (try discriminate; exact Hno).
    rewrite Hpairs. rewrite of_list_fresh by exact Hnd. reflexivity.
Qed.

(** The header [a=1; b=2]. *)
Lemma parse_cookie_header_of_parts_witness :
  parse_cookie_header (join [59] [lit "a=1"; lit " b=2"])
  = [(lit "a", lit "1"); (lit "b", lit "2")].
Proof.
  apply (parse_cookie_header_of_parts
           [(lit "a", lit "1"); (lit "b", lit "2")] [lit "a=1"; lit " b=2"]).
  - vm_compute. repeat constructor; intros H; cbn in H; intuition discriminate.
  - repeat constructor; vm_compute; try reflexivity; intuition discriminate.
  - constructor; [|constructor; [|constructor]].
    + exists [], [], [], []. repeat split; try constructor.
    + exists [32], [], [], []. repeat split; try constructor; try reflexivity. constructor.
Defined.

(** ** The cookies of the session *)

Lemma split_In_part (sep c : N) (s : str) :
  c <> sep -> In c s -> exists part, In part (split sep s) /\ In c part.
Proof.
  intros Hc. induction s as [|x t IH]; intros Hin; [destruct Hin|].
  cbn [split]. destruct (x =? sep) eqn:E.
  - destruct Hin as [->|Hin]; [apply N.eqb_eq in E; congruence|].
    destruct (IH Hin) as [part [Hp Hcp]]. exists part. split; [right; exact Hp|exact Hcp].
  - destruct Hin as [->|Hin].
    + destruct (split sep t) as [|h r].
      * exists [c]. split; left; reflexivity.
      * exists (c :: h). split; left; reflexivity.
    + destruct (IH Hin) as [part [Hp Hcp]].
      destruct (split sep t) as [|h r]; [destruct Hp|].
      destruct Hp as [<-|Hp].
      * exists (x :: h). split; [left; reflexivity|right; exact Hcp].
      * exists part. split; [right; exact Hp|exact Hcp].
Qed.

Lemma split_part_In (sep c : N) (s part : str) :
  In part (split sep s) -> In c part -> In c s.
Proof.
  revert part. induction s as [|x t IH]; intros part Hp Hc.
  - destruct Hp as [<-|[]]. destruct Hc.
  - cbn [split] in Hp. destruct (x =? sep).
    + destruct Hp as [<-|Hp]; [destruct Hc|]. right. exact (IH part Hp Hc).
    + destruct (split sep t) as [|h r].
      * destruct Hp as [<-|[]]. destruct Hc as [<-|[]]. left. reflexivity.
      * destruct Hp as [<-|Hp].
        -- destruct Hc as [<-|Hc]; [left; reflexivity|].
           right. apply (IH h); [left; reflexivity|exact Hc].
        -- right. apply (IH part); [right; exact Hp|exact Hc].
Qed.

Lemma cookie_pairs_nil (h : str) : cookie_pairs h = [] <-> ~ In 61 h.
Proof.
  unfold cookie_pairs. split.
  - intros Hnil Hin.
    destruct (split_In_part 59 61 h) as [part [Hp Hc]]; [discriminate|exact Hin|].
    assert (Hpart : cookie_pair part = []).
    { destruct (cookie_pair part) as [|kv r] eqn:E; [reflexivity|].
      assert (Hkv : In kv (flat_map cookie_pair (split 59 h)))
        by (apply in_flat_map; exists part; split; [exact Hp|rewrite E; left; reflexivity]).
      rewrite Hnil in Hkv. destruct Hkv. }
    unfold cookie_pair in Hpart.
    destruct (split_once 61 part) as [[n v]|] eqn:E; [discriminate|].
    apply split_once_None in E. exact (E Hc).
  - intros Hno.
    assert (Hall : forall part, In part (split 59 h) -> cookie_pair part = []).
    { intros part Hp. unfold cookie_pair.
      destruct (split_once 61 part) as [[n v]|] eqn:E; [|reflexivity].
      apply split_once_Some in E. destruct E as [-> _].
      exfalso. apply Hno. apply (split_part_In 59 61 h _ Hp).
      apply in_or_app. right. left. reflexivity. }
    induction (split 59 h) as [|p ps IH]; [reflexivity|].
    cbn [flat_map]. rewrite (Hall p) by (left; reflexivity).
    apply IH. intros part Hp. apply Hall. right. exact Hp.
Qed.

Lemma set_nonempty (V : Type) (k : str) (v : V) (d : dict V) : Dict.set k v d <> [].
Proof.
  destruct d as [|[k' v'] t]; cbn [Dict.set]; [discriminate|].
  destruct (str_eqb k' k); discriminate.
Qed.

Lemma of_list_nil (V : Type) (l : list (str * V)) : Dict.of_list l = [] <-> l = [].
Proof.
  split; [|intros ->; reflexivity].
  unfold Dict.of_list.
  assert (Hgen : forall acc : dict V,
            fold_left (fun d kv => Dict.set (fst kv) (snd kv) d) l acc = [] ->
            acc = [] /\ l = []).
  { induction l as [|kv r IH]; intros acc Hf; [split; [exact Hf|reflexivity]|].
    cbn [fold_left] in Hf. apply IH in Hf. destruct Hf as [Hs _].
    exfalso. exact (set_nonempty V _ _ _ Hs). }
  intros Hf. apply (Hgen [] Hf).
Qed.

(** X4.  [make_session] has cookies to set exactly when the variable
    COOKIE_CARDMARKET is set and its value holds an ['=']: in every other
    case (unset, empty, or without any ['=']) the parsed dictionary is
    empty and the test [if cookies] fails. *)
Theorem session_cookies_empty_iff (cookie_env : option str) :
  session_cookies cookie_env = [] <->
  (forall h, cookie_env = Some h -> ~ In 61 h).
Proof.
  unfold session_cookies. destruct cookie_env as [h|].
  - destruct h as [|c t].
    + cbn [Py.truthy]. split; [|reflexivity].
      intros _ h E. injection E as <-. intros [].
    + cbn [Py.truthy]. rewrite parse_cookie_header_pairs, of_list_nil, cookie_pairs_nil.
      split.
      * intros Hno h E. injection E as <-. exact Hno.
      * intros Hall. apply Hall. reflexivity.
  - split; [|reflexivity]. intros _ h E. discriminate.
Qed.

End CookieFacts.

(* ===================================================================== *)
(** * What a match of the price pattern looks like *)
(* ===================================================================== *)

Module PatternFacts.
Import Py Re App PyFacts ReFacts.

(** The texts a pattern matches entirely. *)
Fixpoint lang `{Unicode} (r : regex) (w : str) : Prop :=
  match r with
  | Chr c => w = [c]
  | Digit => exists c, w = [c] /\ is_decimal c = true
  | Space => exists c, w = [c] /\ isspace c = true
  | OneOf cs => exists c, w = [c] /\ mem c cs = true
  | Seq a b => exists u v, w = u ++ v /\ lang a u /\ lang b v
  | Alt a b => lang a w \/ lang b w
  | Opt a => w = [] \/ lang a w
  | Star a => exists ws, w = concat ws /\ Forall (lang a) ws
  | Plus a => exists ws, ws <> [] /\ w = concat ws /\ Forall (lang a) ws
  | Rep lo hi a =>
    exists ws, (lo <= length ws <= hi)%nat /\ w = concat ws /\ Forall (lang a) ws
  end.

(** The bounds of every [{lo,hi}] are in order, as [re.compile] demands. *)
Fixpoint bounds_ok (r : regex) : bool :=
  match r with
  | Chr _ | Digit | Space | OneOf _ => true
  | Seq a b | Alt a b => bounds_ok a && bounds_ok b
  | Opt a | Star a | Plus a => bounds_ok a
  | Rep lo hi a => (lo <=? hi)%nat && bounds_ok a
  end.

(** A matcher consumes a text of the language [L] before it calls its
    continuation. *)
Definition consumes (L : str -> Prop) (m : matcher) : Prop :=
  forall s k res, m s k = Some res ->
    exists w s', s = w ++ s' /\ L w /\ k s' = Some res.

Lemma step_consumes (p : N -> bool) :
  consumes (fun w => exists c, w = [c] /\ p c = true) (step p).
Proof.
  intros [|c t] k res; cbn [step]; [discriminate|].
  destruct (p c) eqn:E; [|discriminate]. intros Hk.
  exists [c], t. split; [reflexivity|]. split; [|exact Hk].
  exists c. split; [reflexivity|exact E].
Qed.

Lemma star_loop_consumes (L : str -> Prop) (m : matcher) (k : str -> option str) :
  consumes L m ->
  forall fuel s res, star_loop m k fuel s = Some res ->
    exists ws s', s = concat ws ++ s' /\ Forall L ws /\ k s' = Some res.
Proof.
  intros Hm. induction fuel as [|fuel IH]; intros s res; cbn [star_loop].
  - intros Hk. exists [], s. split; [reflexivity|]. split; [constructor|exact Hk].
  - destruct (m s _) as [res'|] eqn:E.
    + intros Hr. injection Hr as ->.
      apply Hm in E. destruct E as [w [s1 [-> [Hw Hk1]]]].
      destruct (length s1 <? length (w ++ s1))%nat; [|discriminate].
      apply IH in Hk1. destruct Hk1 as [ws [s2 [-> [Hws Hk2]]]].
      exists (w :: ws), s2. cbn [concat]. rewrite <- app_assoc.
      split; [reflexivity|]. split; [constructor; assumption|exact Hk2].
    + intros Hk. exists [], s. split; [reflexivity|]. split; [constructor|exact Hk].
Qed.

Lemma rep_loop_consumes (L : str -> Prop) (m : matcher) (k : str -> option str) :
  consumes L m ->
  forall hi lo s res, (lo <= hi)%nat -> rep_loop m k lo hi s = Some res ->
    exists ws s', (lo <= length ws <= hi)%nat /\ s = concat ws ++ s' /\
                  Forall L ws /\ k s' = Some res.
Proof.
  intros Hm. induction hi as [|hi IH]; intros lo s res Hlo; cbn [rep_loop].
  - intros Hk. exists [], s. cbn [length concat app].
    split; [lia|]. split; [reflexivity|]. split; [constructor|exact Hk].
  - destruct (m s _) as [res'|] eqn:E.
    + intros Hr. injection Hr as ->.
      apply Hm in E. destruct E as [w [s1 [-> [Hw Hk1]]]].
      apply IH in Hk1; [|lia]. destruct Hk1 as [ws [s2 [Hlen [-> [Hws Hk2]]]]].
      exists (w :: ws), s2. cbn [concat length]. rewrite <- app_assoc.
      split; [lia|]. split; [reflexivity|]. split; [constructor; assumption|exact Hk2].
    + destruct (Nat.eqb_spec lo 0) as [->|]; [|discriminate].
      intros Hk. exists [], s. cbn [length concat app].
      split; [lia|]. split; [reflexivity|]. split; [constructor|exact Hk].
Qed.

(** The matcher of a pattern consumes a text of the pattern's language. *)
Lemma matches_consumes `{Unicode} (r : regex) :
  bounds_ok r = true -> consumes (lang r) (matches r).
Proof.
  induction r as [c| | |cs|a IHa b IHb|a IHa b IHb|a IHa|a IHa|a IHa|lo hi a IHa];
    intros Hb s k res; cbn [matches lang bounds_ok] in *.
  - intros Hm. apply step_consumes in Hm.
    destruct Hm as [w [s' [-> [[x [-> Hx]] Hk]]]].
    apply N.eqb_eq in Hx. subst x. exists [c], s'. repeat split. exact Hk.
  - apply step_consumes.
  - apply step_consumes.
  - apply (step_consumes (fun c => mem c cs)).
  - apply andb_true_iff in Hb. destruct Hb as [Ha Hb].
    intros Hm. apply (IHa Ha) in Hm. destruct Hm as [u [s1 [-> [Hu Hm]]]].
    apply (IHb Hb) in Hm. destruct Hm as [v [s2 [-> [Hv Hk]]]].
    exists (u ++ v), s2. rewrite <- app_assoc. split; [reflexivity|].
    split; [|exact Hk]. exists u, v. repeat split; assumption.
  - apply andb_true_iff in Hb. destruct Hb as [Ha Hb].
    destruct (matches a s k) as [res'|] eqn:E.
    + intros Hr. injection Hr as ->. apply (IHa Ha) in E.
      destruct E as [w [s' [-> [Hw Hk]]]]. exists w, s'.
      split; [reflexivity|]. split; [left; exact Hw|exact Hk].
    + intros Hm. apply (IHb Hb) in Hm.
      destruct Hm as [w [s' [-> [Hw Hk]]]]. exists w, s'.
      split; [reflexivity|]. split; [right; exact Hw|exact Hk].
  - destruct (matches a s k) as [res'|] eqn:E.
    + intros Hr. injection Hr as ->. apply (IHa Hb) in E.
      destruct E as [w [s' [-> [Hw Hk]]]]. exists w, s'.
      split; [reflexivity|]. split; [right; exact Hw|exact Hk].
    + intros Hk. exists [], s. split; [reflexivity|]. split; [left; reflexivity|exact Hk].
  - intros Hm. apply (star_loop_consumes (lang a) _ _ (IHa Hb)) in Hm.
    destruct Hm as [ws [s' [-> [Hws Hk]]]]. exists (concat ws), s'.
    split; [reflexivity|]. split; [|exact Hk]. exists ws. split; [reflexivity|exact Hws].
  - intros Hm. apply (IHa Hb) in Hm. destruct Hm as [u [s1 [-> [Hu Hm]]]].
    apply (star_loop_consumes (lang a) _ _ (IHa Hb)) in Hm.
    destruct Hm as [ws [s' [-> [Hws Hk]]]]. exists (concat (u :: ws)), s'.
    cbn [concat]. rewrite <- app_assoc. split; [reflexivity|]. split; [|exact Hk].
    exists (u :: ws). split; [discriminate|]. split; [reflexivity|].
    constructor; assumption.
  - apply andb_true_iff in Hb. destruct Hb as [Hlo Hb]. apply Nat.leb_le in Hlo.
    intros Hm. apply (rep_loop_consumes (lang a) _ _ (IHa Hb) hi lo s res Hlo) in Hm.
    destruct Hm as [ws [s' [Hlen [-> [Hws Hk]]]]]. exists (concat ws), s'.
    split; [reflexivity|]. split; [|exact Hk]. exists ws. repeat split; try lia. exact Hws.
Qed.

Lemma firstn_prefix (w rest : str) :
  firstn (length (w ++ rest) - length rest) (w ++ rest) = w.
Proof.
  replace (length (w ++ rest) - length rest)%nat with (length w + 0)%nat
    by (rewrite length_app; lia).
  rewrite firstn_app_2. cbn [firstn]. apply app_nil_r.
Qed.

Lemma match_here_lang `{Unicode} (r : regex) (s g : str) :
  bounds_ok r = true -> match_here r s = Some g ->
  lang r g /\ exists rest, s = g ++ rest.
Proof.
  intros Hb. unfold match_here.
  destruct (matches r s (fun rest => Some rest)) as [rest|] eqn:E; [|discriminate].
  intros Hg. injection Hg as <-.
  apply (matches_consumes r Hb) in E. destruct E as [w [s' [-> [Hw Hk]]]].
  injection Hk as ->. rewrite firstn_prefix. split; [exact Hw|]. exists rest. reflexivity.
Qed.

(** What [search] returns is a slice of the text and belongs to the
    language of the pattern. *)
Lemma search_lang `{Unicode} (r : regex) (s g : str) :
  bounds_ok r = true -> search r s = Some g ->
  lang r g /\ exists a b, s = a ++ g ++ b.
Proof.
  intros Hb Hs. apply search_found in Hs. destruct Hs as [s' [[pre ->] Hm]].
  apply (match_here_lang r s' g Hb) in Hm. destruct Hm as [Hg [rest ->]].
  split; [exact Hg|]. exists pre, rest. reflexivity.
Qed.

(** ** The price pattern *)

(** A character of the number in a price: a digit, ['.'] or [',']. *)
Definition number_char `{Unicode} (c : N) : bool :=
  is_decimal c || (c =? 46) || (c =? 44).

Lemma concat_Forall (P : N -> Prop) (ws : list str) :
  Forall (Forall P) ws -> Forall P (concat ws).
Proof.
  intros Hws. induction Hws as [|w ws Hw _ IH]; [constructor|].
  cbn [concat]. apply Forall_app. split; assumption.
Qed.

Lemma digits_lang `{Unicode} (ws : list str) :
  Forall (lang Digit) ws -> Forall (fun c => is_decimal c = true) (concat ws).
Proof.
  intros Hws. apply concat_Forall. eapply Forall_impl; [|exact Hws].
  intros w [c [-> Hc]]. constructor; [exact Hc|constructor].
Qed.

Lemma digits_head `{Unicode} (ws : list str) :
  ws <> [] -> Forall (lang Digit) ws ->
  exists d t, concat ws = d :: t /\ is_decimal d = true.
Proof.
  intros Hne Hws. destruct Hws as [|w ws [c [-> Hc]] _]; [congruence|].
  exists c, (concat ws). split; [reflexivity|exact Hc].
Qed.

Lemma decimal_number_char `{Unicode} (c : N) : is_decimal c = true -> number_char c = true.
Proof. intros Hc. unfold number_char. rewrite Hc. reflexivity. Qed.

Lemma separator_number_char `{Unicode} (c : N) : mem c [46; 44] = true -> number_char c = true.
Proof.
  intros Hc. unfold number_char. cbn [mem] in Hc.
  rewrite (N.eqb_sym c 46), (N.eqb_sym c 44).
  destruct (46 =? c); [apply orb_true_iff; left; apply orb_true_r|].
  destruct (44 =? c); [apply orb_true_r|discriminate].
Qed.

(** A group [[.,]\d{n}]. *)
Lemma group_lang `{Unicode} (n : nat) (w : str) :
  lang (Seq (OneOf [46; 44]) (Rep n n Digit)) w ->
  Forall (fun c => number_char c = true) w.
Proof.
  intros [u [v [-> [[c [-> Hc]] [ws [_ [-> Hws]]]]]]].
  constructor; [apply separator_number_char; exact Hc|].
  eapply Forall_impl; [|apply digits_lang; exact Hws].
  intros x. apply decimal_number_char.
Qed.

(** The whole pattern: a number that starts with a digit, white space,
    the euro sign. *)
Lemma price_lang `{Unicode} (g : str) :
  lang PRICE_REGEX g ->
  exists d number blank,
    g = d :: number ++ blank ++ [8364] /\
    is_decimal d = true /\
    Forall (fun c => number_char c = true) number /\
    Forall (fun c => isspace c = true) blank.
Proof.
  unfold PRICE_REGEX.
  intros [num [tail [-> [Hnum [cents [tail2 [-> [Hcents [blank [e [-> [Hblank He]]]]]]]]]]]].
  cbn [lang] in He. subst e.
  assert (Hn : exists d t, num = d :: t /\ is_decimal d = true /\
                           Forall (fun c => number_char c = true) t).
  { destruct Hnum as [[u [v [-> [[ws [Hlen [-> Hws]]] [gs [-> Hgs]]]]]]|[ws [Hne [-> Hws]]]].
    - destruct (digits_head ws) as [d [t [E Hd]]];
        [intros ->; cbn [length] in Hlen; lia|exact Hws|].
      pose proof (digits_lang ws Hws) as Hall. rewrite E in Hall |- *.
      inversion Hall as [|? ? _ Ht]; subst.
      exists d, (t ++ concat gs). split; [reflexivity|]. split; [exact Hd|].
      apply Forall_app. split.
      + eapply Forall_impl; [|exact Ht]. intros x. apply decimal_number_char.
      + apply concat_Forall. eapply Forall_impl; [|exact Hgs].
        intros w. apply group_lang.
    - destruct (digits_head ws Hne Hws) as [d [t [E Hd]]].
      pose proof (digits_lang ws Hws) as Hall. rewrite E in Hall |- *.
      inversion Hall as [|? ? _ Ht]; subst.
      exists d, t. split; [reflexivity|]. split; [exact Hd|].
      eapply Forall_impl; [|exact Ht]. intros x. apply decimal_number_char. }
  destruct Hn as [d [t [-> [Hd Ht]]]].
  assert (Hc : Forall (fun c => number_char c = true) cents).
  { destruct Hcents as [->|Hc]; [constructor|]. apply (group_lang 2). exact Hc. }
  assert (Hb : Forall (fun c => isspace c = true) blank).
  { destruct Hblank as [ws [-> Hws]]. apply concat_Forall.
    eapply Forall_impl; [|exact Hws]. intros w [c [-> Hc']].
    constructor; [exact Hc'|constructor]. }
  exists d, (t ++ cents), blank.
  split; [|split; [exact Hd|split; [apply Forall_app; split; assumption|exact Hb]]].
  cbn [app]. rewrite <- !app_assoc. reflexivity.
Qed.

(** X5.  Whatever the text, a match of [PRICE_REGEX] found by [search]
    is a slice of the text that reads: a digit, then digits, ['.'] and
    [','] only, then white space only, then the euro sign. *)
Theorem price_match_shape `{Unicode} (s g : str) :
  search PRICE_REGEX s = Some g ->
  (exists a b, s = a ++ g ++ b) /\
  exists d number blank,
    g = d :: number ++ blank ++ [8364] /\
    is_decimal d = true /\
    Forall (fun c => number_char c = true) number /\
    Forall (fun c => isspace c = true) blank.
Proof.
  intros Hs. apply search_lang in Hs; [|reflexivity].
  destruct Hs as [Hg Hslice]. split; [exact Hslice|]. apply price_lang. exact Hg.
Qed.

(** The match in [from 1.234,50 € only]. *)
Lemma price_match_shape_witness :
  (exists a b, lit "from 1.234,50 € only" = a ++ lit "1.234,50 €" ++ b) /\
  exists d number blank,
    lit "1.234,50 €" = d :: number ++ blank ++ [8364] /\
    @is_decimal Sample.ascii_unicode d = true /\
    Forall (fun c => @number_char Sample.ascii_unicode c = true) number /\
    Forall (fun c => isspace c = true) blank.
Proof.
  apply (@price_match_shape Sample.ascii_unicode (lit "from 1.234,50 € only")).
  vm_compute. reflexivity.
Defined.

End PatternFacts.

(* ===================================================================== *)
(** * Properties of the product locator *)
(* ===================================================================== *)

Module LocatorFacts.
Import Py Dict UrlLib Soup Net Json App.
Import PyFacts SoupFacts QuoteFacts QueryFacts RouteFacts.

(** ** The search request *)

(** The request log after a call: the search URL is added, and nothing
    else. *)
Lemma find_product_url_log `{Html} (card_id q : str) (sess : session) (log : list str) :
  quote_plus card_id = Ok q ->
  snd (find_product_url card_id sess log) = log ++ [SEARCH_BASE ++ q].
Proof.
  intros Hq. unfold find_product_url, iobind, lift, get, ret, throw. rewrite Hq.
  destruct (sess (SEARCH_BASE ++ q)) as [r|e]; [|reflexivity].
  destruct (contains _ (url r)); [reflexivity|].
  destruct (status_code r =? 403)%Z; [reflexivity|].
  destruct (raise_for_status r) as [[]|e]; [|reflexivity].
  destruct (first_product_link _ _); reflexivity.
Qed.

(** X6.  Whatever the session answers, the locator issues exactly one
    request, to the search URL of the identifier; an identifier that
    cannot be encoded raises before any request. *)
Theorem locator_issues_one_request `{Html}
  (card_id : str) (sess : session) (log : list str) :
  match quote_plus card_id with
  | Ok q => snd (find_product_url card_id sess log) = log ++ [SEARCH_BASE ++ q]
  | Raise e => find_product_url card_id sess log = (Raise e, log)
  end.
Proof.
  destruct (quote_plus card_id) as [q|e] eqn:Hq.
  - apply find_product_url_log. exact Hq.
  - unfold find_product_url, iobind, lift. rewrite Hq. reflexivity.
Qed.

Lemma SEARCH_BASE_parts :
  SEARCH_BASE = lit "https://www.cardmarket.com/fr/Pokemon/Products/Search"
                ++ 63 :: lit "category=-1" ++ 38 :: lit "searchString" ++ [61].
Proof. vm_compute. reflexivity. Qed.

Lemma quoted_char_cases (c : N) :
  quoted_char c = true -> always_safe c = true \/ c = 43 \/ c = 37.
Proof.
  unfold quoted_char. intros Hc.
  apply orb_true_iff in Hc. destruct Hc as [Hc|Hc].
  - apply orb_true_iff in Hc. destruct Hc as [Hc|Hc]; [left; exact Hc|].
    right. left. apply N.eqb_eq. exact Hc.
  - right. right. apply N.eqb_eq. exact Hc.
Qed.

Lemma split_once_prefix (sep : N) (a b q : str) :
  ~ In sep a -> split_once sep ((a ++ sep :: b) ++ q) = Some (a, b ++ q).
Proof.
  intros Ha. rewrite <- app_assoc. cbn [app]. apply split_once_app. exact Ha.
Qed.

(** A query string of two fields, the second one written by
    [quote_plus]. *)
Lemma parse_qsl_two_fields (c n q name value : str) (kv : str * str) :
  ~ In 38 c -> parse_field true c = [kv] ->
  quote_plus name = Ok n -> quote_plus value = Ok q ->
  parse_qsl ((c ++ 38 :: n ++ [61]) ++ q) true = [kv; (name, value)].
Proof.
  intros Hc Hkv Hn Hq.
  assert (Henc : encodes (name, value) (n ++ [61] ++ q)).
  { exists n, q. split; [exact Hn|]. split; [exact Hq|reflexivity]. }
  rewrite <- app_assoc. cbn [app]. rewrite <- app_assoc.
  rewrite parse_qsl_fields, split_app by exact Hc.
  rewrite split_no_sep by (apply (encoded_no_amp _ _ Henc)).
  cbn [flat_map]. rewrite (parse_field_encoded true _ _ Henc).
  rewrite Hkv, orb_true_r, app_nil_r. reflexivity.
Qed.

(** X7.  The search URL carries the identifier, whatever its characters:
    the text after the first ['?'] of the URL is a query string whose
    parameters are [category=-1] and [searchString] with the identifier
    as its decoded value, and the encoded identifier is written with
    letters, digits, [_.-~], ['+'] and ['%'] only. *)
Theorem search_url_carries_the_query (card_id q : str) :
  quote_plus card_id = Ok q ->
  split_once 63 (SEARCH_BASE ++ q)
    = Some (lit "https://www.cardmarket.com/fr/Pokemon/Products/Search",
            lit "category=-1&searchString=" ++ q) /\
  parse_qsl (lit "category=-1&searchString=" ++ q) true
    = [(lit "category", lit "-1"); (lit "searchString", card_id)] /\
  Forall (fun c => always_safe c = true \/ c = 43 \/ c = 37) q.
Proof.
  intros Hq. destruct (quote_plus_chars card_id q Hq) as [Hchars _].
  assert (Hlit : lit "category=-1&searchString="
                 = lit "category=-1" ++ 38 :: lit "searchString" ++ [61])
    by (vm_compute; reflexivity).
  rewrite Hlit. split; [|split].
  - rewrite SEARCH_BASE_parts. apply split_once_prefix.
    apply mem_false. vm_compute. reflexivity.
  - apply (parse_qsl_two_fields _ _ _ (lit "searchString") card_id).
    + apply mem_false. vm_compute. reflexivity.
    + vm_compute. reflexivity.
    + vm_compute. reflexivity.
    + exact Hq.
  - eapply Forall_impl; [|exact Hchars]. exact quoted_char_cases.
Qed.

(** The identifier [Pikachu V]. *)
Lemma search_url_carries_the_query_witness :
  split_once 63 (SEARCH_BASE ++ lit "Pikachu+V")
    = Some (lit "https://www.cardmarket.com/fr/Pokemon/Products/Search",
            lit "category=-1&searchString=" ++ lit "Pikachu+V") /\
  parse_qsl (lit "category=-1&searchString=" ++ lit "Pikachu+V") true
    = [(lit "category", lit "-1"); (lit "searchString", lit "Pikachu V")] /\
  Forall (fun c => always_safe c = true \/ c = 43 \/ c = 37) (lit "Pikachu+V").
Proof.
  apply (search_url_carries_the_query (lit "Pikachu V") (lit "Pikachu+V")).
  vm_compute. reflexivity.
Defined.

(** X8.  Two identifiers that differ are searched at URLs that differ. *)
Theorem distinct_queries_distinct_search_urls (a b qa qb : str) :
  quote_plus a = Ok qa -> quote_plus b = Ok qb -> a <> b ->
  SEARCH_BASE ++ qa <> SEARCH_BASE ++ qb.
Proof.
  intros Ha Hb Hne E. apply app_inv_head in E. subst qb.
  apply unquote_quote_plus in Ha. apply unquote_quote_plus in Hb.
  apply Hne. rewrite <- Ha, <- Hb. reflexivity.
Qed.

(** [Pikachu V] and [Pikachu+V]. *)
Lemma distinct_queries_distinct_search_urls_witness :
  SEARCH_BASE ++ lit "Pikachu+V" <> SEARCH_BASE ++ lit "Pikachu%2BV".
Proof.
  apply (distinct_queries_distinct_search_urls (lit "Pikachu V") (lit "Pikachu+V")).
  - vm_compute. reflexivity.
  - vm_compute. reflexivity.
  - vm_compute. discriminate.
Defined.

(** ** The links of the search page *)

(** A selected link is an element of the page whose [href] holds the
    product marker. *)
Lemma select_links_href (sub : str) (scope : node -> bool) (n a : node) :
  forall inside, In a (select_links sub scope inside n) ->
    subtree a n /\ exists h, attr (lit "href") a = Some h /\ contains sub h = true.
Proof.
  induction n as [c s|nm at_ cls ch IH] using node_induction; intros inside Hin.
  - destruct Hin.
  - cbn [select_links] in Hin. apply in_app_or in Hin. destruct Hin as [Hin|Hin].
    + destruct (inside && str_eqb nm (lit "a") && _) eqn:E; [|destruct Hin].
      destruct Hin as [<-|[]]. split; [apply subtree_refl|].
      apply andb_true_iff in E. destruct E as [_ E]. cbn [attr].
      destruct (Dict.get (lit "href") at_) as [h|]; [|discriminate].
      exists h. split; [reflexivity|exact E].
    + apply in_concat in Hin. destruct Hin as [l [Hl Hal]].
      apply in_map_iff in Hl. destruct Hl as [c [<- Hc]].
      rewrite Forall_forall in IH. destruct (IH c Hc _ Hal) as [Hsub Hh].
      split; [|exact Hh]. eapply subtree_child; eassumption.
Qed.

(** The selector without a scope finds every link a scoped one finds. *)
Lemma select_links_any (sub : str) (scope : node -> bool) (n a : node) :
  forall inside, In a (select_links sub scope inside n) ->
    In a (select_links sub (fun _ => false) true n).
Proof.
  induction n as [c s|nm at_ cls ch IH] using node_induction; intros inside Hin.
  - destruct Hin.
  - cbn [select_links] in Hin |- *. apply in_app_or in Hin. apply in_or_app.
    destruct Hin as [Hin|Hin].
    + left. destruct inside; cbn [andb] in Hin |- *; [exact Hin|destruct Hin].
    + right. apply in_concat in Hin. destruct Hin as [l [Hl Hal]].
      apply in_map_iff in Hl. destruct Hl as [c [<- Hc]].
      rewrite Forall_forall in IH. apply in_concat.
      exists (select_links sub (fun _ => false) true c).
      split; [apply in_map_iff; exists c; split; [reflexivity|exact Hc]|].
      cbn [orb]. eapply IH; eassumption.
Qed.

Lemma in_concat_map (A B : Type) (f : A -> list B) (l : list A) (y : B) :
  In y (concat (map f l)) <-> exists x, In x l /\ In y (f x).
Proof.
  rewrite in_concat. split.
  - intros [ys [Hys Hy]]. apply in_map_iff in Hys. destruct Hys as [x [<- Hx]].
    exists x. split; assumption.
  - intros [x [Hx Hy]]. exists (f x). split; [apply in_map; exact Hx|exact Hy].
Qed.

Lemma select_one_href (sel : selector) (soup a : node) :
  select_one sel soup = Some a ->
  subtree a soup /\
  exists h, attr (lit "href") a = Some h /\ contains PRODUCT_PATH h = true.
Proof.
  unfold select_one. intros Hhd.
  assert (Hin : exists scope inside c, In c (children_of soup) /\
                  In a (select_links PRODUCT_PATH scope inside c)).
  { destruct sel;
      match type of Hhd with hd_error ?l = _ =>
        assert (Ha : In a l) by (destruct l; [discriminate|injection Hhd as ->; left; reflexivity])
      end;
      apply in_concat_map in Ha; destruct Ha as [c [Hc Ha]];
      eexists _, _, c; split; eassumption. }
  destruct Hin as [scope [inside [c [Hc Ha]]]].
  destruct (select_links_href _ _ _ _ _ Ha) as [Hsub Hh].
  split; [|exact Hh].
  eapply subtree_trans; [exact Hsub|]. apply children_subtree. exact Hc.
Qed.

Lemma select_one_any (sel : selector) (soup : node) :
  select_one AnyLink soup = None -> select_one sel soup = None.
Proof.
  unfold select_one. intros Hany.
  assert (Hnil : forall scope inside c a, In c (children_of soup) ->
                   ~ In a (select_links PRODUCT_PATH scope inside c)).
  { intros scope inside c a Hc Ha. apply select_links_any in Ha.
    assert (Hin : In a (concat (map (select_links PRODUCT_PATH (fun _ => false) true)
                                    (children_of soup))))
      by (apply in_concat_map; exists c; split; assumption).
    destruct (concat _); [destruct Hin|discriminate]. }
  destruct sel;
    match goal with |- hd_error ?l = None =>
      destruct l as [|a r] eqn:E; [reflexivity|];
      assert (Ha : In a l) by (rewrite E; left; reflexivity);
      apply in_concat_map in Ha; destruct Ha as [c [Hc Ha]];
      exfalso; exact (Hnil _ _ c a Hc Ha)
    end.
Qed.

Lemma marker_truthy (h : str) : contains PRODUCT_PATH h = true -> Py.truthy h = true.
Proof.
  intros Hc. destruct h; [|reflexivity]. vm_compute in Hc. discriminate.
Qed.

(** A selected link is an element [a]. *)
Lemma select_links_named (sub : str) (scope : node -> bool) (n a : node) :
  forall inside, In a (select_links sub scope inside n) ->
    is_named (lit "a") a = true.
Proof.
  induction n as [c s|nm at_ cls ch IH] using node_induction; intros inside Hin.
  - destruct Hin.
  - cbn [select_links] in Hin. apply in_app_or in Hin. destruct Hin as [Hin|Hin].
    + destruct (inside && str_eqb nm (lit "a") && _) eqn:E; [|destruct Hin].
      destruct Hin as [<-|[]].
      apply andb_true_iff in E. destruct E as [E _].
      apply andb_true_iff in E. destruct E as [_ E]. cbn [is_named]. exact E.
    + apply in_concat in Hin. destruct Hin as [l [Hl Hal]].
      apply in_map_iff in Hl. destruct Hl as [c [<- Hc]].
      rewrite Forall_forall in IH. exact (IH c Hc _ Hal).
Qed.

Lemma select_one_named (sel : selector) (soup a : node) :
  select_one sel soup = Some a -> is_named (lit "a") a = true.
Proof.
  unfold select_one. intros Hhd.
  destruct sel;
    match type of Hhd with hd_error ?l = _ =>
      assert (Ha : In a l) by (destruct l; [discriminate|injection Hhd as ->; left; reflexivity])
    end;
    apply in_concat_map in Ha; destruct Ha as [c [_ Ha]];
    exact (select_links_named _ _ _ _ _ Ha).
Qed.

(** The loop over the selectors returns the link of the first selector
    that selects anything: the [href] of a selected link is never empty,
    so the test on it never sends the loop on. *)
Lemma first_product_link_spec `{Html} (soup : node) (sels : list selector) :
  match first_product_link soup sels with
  | Some u =>
    exists pre sel post a h,
      sels = pre ++ sel :: post /\
      Forall (fun s => select_one s soup = None) pre /\
      select_one sel soup = Some a /\
      attr (lit "href") a = Some h /\
      u = urljoin (lit "https://www.cardmarket.com") h
  | None => Forall (fun s => select_one s soup = None) sels
  end.
Proof.
  induction sels as [|sel rest IH]; cbn [first_product_link].
  - constructor.
  - destruct (select_one sel soup) as [a|] eqn:E.
    + destruct (select_one_href sel soup a E) as [_ [h [Hh Hc]]].
      rewrite Hh, (marker_truthy h Hc).
      exists [], sel, rest, a, h. repeat split; try assumption. constructor.
    + destruct (first_product_link soup rest) as [u|].
      * destruct IH as [pre [sel' [post [a [h [-> [Hpre [Hs [Hh ->]]]]]]]]].
        exists (sel :: pre), sel', post, a, h.
        split; [reflexivity|]. split; [constructor; assumption|].
        repeat split; assumption.
      * constructor; assumption.
Qed.

Lemma raise_for_status_Ok (r : response) :
  (status_code r < 400 \/ 600 <= status_code r)%Z -> raise_for_status r = Ok tt.
Proof.
  intros Hs. unfold raise_for_status.
  destruct (Z.leb_spec 400 (status_code r)); destruct (Z.ltb_spec (status_code r) 500);
    destruct (Z.leb_spec 500 (status_code r)); destruct (Z.ltb_spec (status_code r) 600);
    cbn [andb]; try reflexivity; lia.
Qed.

(** X9.  A search page (final URL without the marker, status below 400)
    is read for its links: the locator raises [RuntimeError] exactly when
    the page has no element [a] whose [href] holds [/Products/Singles/];
    otherwise it returns, joined to the origin of the site, the [href] of
    the element that the first of the three selectors that selects
    anything selects (the selectors taken in their order): an element
    [a] of the page whose [href] holds [/Products/Singles/]. *)
Theorem locator_reads_the_search_page `{Html}
  (card_id q : str) (sess : session) (r : response) (log : list str) :
  quote_plus card_id = Ok q ->
  sess (SEARCH_BASE ++ q) = Ok r ->
  contains PRODUCT_PATH (url r) = false ->
  (status_code r < 400)%Z ->
  match select_one AnyLink (document (html_parser (text r))) with
  | None =>
    find_product_url card_id sess log =
      (Raise (RuntimeError (lit "Aucun produit trouvé pour '" ++ card_id ++ lit "'.")),
       log ++ [SEARCH_BASE ++ q])
  | Some _ =>
    exists pre sel post a h,
      [InTableProducts; InDivProducts; AnyLink] = pre ++ sel :: post /\
      Forall (fun s => select_one s (document (html_parser (text r))) = None) pre /\
      select_one sel (document (html_parser (text r))) = Some a /\
      is_named (lit "a") a = true /\
      subtree a (document (html_parser (text r))) /\
      attr (lit "href") a = Some h /\
      contains PRODUCT_PATH h = true /\
      find_product_url card_id sess log =
        (Ok (urljoin (lit "https://www.cardmarket.com") h), log ++ [SEARCH_BASE ++ q])
  end.
Proof.
  intros Hq Hs Hc Hst.
  assert (H403 : (status_code r =? 403)%Z = false) by (apply Z.eqb_neq; lia).
  assert (Hok : raise_for_status r = Ok tt) by (apply raise_for_status_Ok; lia).
  assert (Hrun : find_product_url card_id sess log =
    match first_product_link (document (html_parser (text r)))
            [InTableProducts; InDivProducts; AnyLink] with
    | Some u => (Ok u, log ++ [SEARCH_BASE ++ q])
    | None => (Raise (RuntimeError (lit "Aucun produit trouvé pour '" ++ card_id ++ lit "'.")),
               log ++ [SEARCH_BASE ++ q])
    end).
  { unfold find_product_url, iobind, lift, get, ret, throw.
    rewrite Hq, Hs, Hc, H403, Hok.
    destruct (first_product_link _ _); reflexivity. }
  pose proof (first_product_link_spec (document (html_parser (text r)))
                [InTableProducts; InDivProducts; AnyLink]) as Hspec.
  destruct (select_one AnyLink (document (html_parser (text r)))) as [a0|] eqn:Eany.
  - destruct (first_product_link _ _) as [u|].
    + destruct Hspec as [pre [sel [post [a [h [Hsplit [Hpre [Hsel [Hh ->]]]]]]]]].
      destruct (select_one_href sel _ a Hsel) as [Hsub [h' [Hh' Hm]]].
      rewrite Hh in Hh'. injection Hh' as <-.
      exists pre, sel, post, a, h.
      split; [exact Hsplit|]. split; [exact Hpre|]. split; [exact Hsel|].
      split; [exact (select_one_named sel _ a Hsel)|].
      split; [exact Hsub|]. split; [exact Hh|]. split; [exact Hm|exact Hrun].
    + rewrite Forall_forall in Hspec.
      rewrite (Hspec AnyLink) in Eany by (right; right; left; reflexivity). discriminate.
  - destruct (first_product_link _ _) as [u|] eqn:Ef; [|exact Hrun].
    exfalso. clear Hspec Hrun.
    cbn [first_product_link] in Ef.
    rewrite (select_one_any InTableProducts _ Eany) in Ef.
    rewrite (select_one_any InDivProducts _ Eany) in Ef.
    rewrite Eany in Ef. discriminate.
Qed.

(** A search page with an element [link] and an element [a] that both
    point into [/Products/Singles/]: the locator returns the [href] of
    the element [a]. *)
Lemma locator_reads_the_search_page_witness :
  let H := Sample.page
             [Tag (lit "link") [(lit "href", lit "/fr/Pokemon/Products/Singles/nav")] [] [];
              Tag (lit "a") [(lit "href", lit "/fr/Pokemon/Products/Singles/Base-Set/Pikachu")]
                  [] [Text NavigableString (lit "Pikachu")]] in
  let r := mkResponse (lit "https://www.cardmarket.com/fr/Pokemon/Products/Search")
                      200 (lit "OK") [] in
  find_product_url (lit "Pikachu") (fun _ => Ok r) [] =
    (Ok (lit "https://www.cardmarket.com/fr/Pokemon/Products/Singles/Base-Set/Pikachu"),
     [SEARCH_BASE ++ lit "Pikachu"]) /\
  match select_one AnyLink (document (html_parser (text r))) with
  | None =>
    find_product_url (lit "Pikachu") (fun _ => Ok r) [] =
      (Raise (RuntimeError (lit "Aucun produit trouvé pour '" ++ lit "Pikachu" ++ lit "'.")),
       [] ++ [SEARCH_BASE ++ lit "Pikachu"])
  | Some _ =>
    exists pre sel post a h,
      [InTableProducts; InDivProducts; AnyLink] = pre ++ sel :: post /\
      Forall (fun s => select_one s (document (html_parser (text r))) = None) pre /\
      select_one sel (document (html_parser (text r))) = Some a /\
      is_named (lit "a") a = true /\
      subtree a (document (html_parser (text r))) /\
      attr (lit "href") a = Some h /\
      contains PRODUCT_PATH h = true /\
      find_product_url (lit "Pikachu") (fun _ => Ok r) [] =
        (Ok (urljoin (lit "https://www.cardmarket.com") h), [] ++ [SEARCH_BASE ++ lit "Pikachu"])
  end.
Proof.
  intros H r. split; [vm_compute; reflexivity|].
  apply (@locator_reads_the_search_page H (lit "Pikachu") (lit "Pikachu") (fun _ => Ok r) r []).
  - vm_compute. reflexivity.
  - reflexivity.
  - vm_compute. reflexivity.
  - vm_compute. reflexivity.
Defined.

End LocatorFacts.

(* ===================================================================== *)
(** * Where the extracted prices come from *)
(* ===================================================================== *)

Module PriceFacts.
Import Py Dict UrlLib Soup Re Net Json App.
Import PyFacts SoupFacts ReFacts MedianFacts ExtractFacts CookieFacts.

(** ** The keyword walk *)

(** The text of [n] holds one of the keywords. *)
Definition holds_keyword `{Unicode} (keywords : list str) (n : node) : bool :=
  existsb (fun kw => contains kw (casefold (get_text [32] n))) keywords.

(** X10.  [smallest_common_ancestor_with_keywords] returns the nearest
    node of the chain (the start node first, then its ancestors) whose
    text holds a keyword: no node before it in the chain holds one; it
    returns [None] exactly when no node of the chain holds one. *)
Theorem nearest_keyword_ancestor `{Unicode} (chain : list node) (keywords : list str) :
  match smallest_common_ancestor_with_keywords chain keywords with
  | Some c =>
    exists pre post,
      chain = pre ++ c :: post /\
      holds_keyword keywords c = true /\
      Forall (fun n => holds_keyword keywords n = false) pre
  | None => Forall (fun n => holds_keyword keywords n = false) chain
  end.
Proof.
  induction chain as [|cur up IH]; cbn [smallest_common_ancestor_with_keywords].
  - constructor.
  - fold (holds_keyword keywords cur).
    destruct (holds_keyword keywords cur) eqn:E.
    + exists [], up. split; [reflexivity|]. split; [exact E|constructor].
    + destruct (smallest_common_ancestor_with_keywords up keywords) as [c|].
      * destruct IH as [pre [post [-> [Hc Hpre]]]].
        exists (cur :: pre), post. split; [reflexivity|]. split; [exact Hc|].
        constructor; assumption.
      * constructor; assumption.
Qed.

(** ** The lowest price *)

Lemma price_matches_In `{Unicode} (c : node) (p : str) :
  In p (price_matches c) ->
  exists s g, In s (map snd (descendant_strings c)) /\ contains EURO s = true /\
              search PRICE_REGEX s = Some g /\ p = strip g.
Proof.
  unfold price_matches. intros Hin. apply in_flat_map in Hin.
  destruct Hin as [s [Hs Hp]]. unfold find_all_strings in Hs.
  apply filter_In in Hs. destruct Hs as [Hs He].
  destruct (search PRICE_REGEX s) as [g|] eqn:Eg; [|destruct Hp].
  destruct Hp as [<-|[]]. exists s, g. repeat split; assumption.
Qed.

Lemma lowest_by_anchor_Some `{Unicode} (soup : node) (anchors : list str) (p : str) :
  lowest_by_anchor soup anchors = Some p ->
  exists a c, In a anchors /\ anchor_container soup a = Some c /\ In p (price_matches c).
Proof.
  induction anchors as [|a rest IH]; cbn [lowest_by_anchor]; [discriminate|].
  destruct (anchor_container soup a) as [c|] eqn:Ec.
  - destruct (price_matches c) as [|p0 ps] eqn:Ep.
    + intros Hr. destruct (IH Hr) as [a' [c' [Ha' H']]].
      exists a', c'. split; [right; exact Ha'|exact H'].
    + intros Hr. injection Hr as ->. exists a, c.
      split; [left; reflexivity|]. split; [exact Ec|]. rewrite Ep. left. reflexivity.
  - intros Hr. destruct (IH Hr) as [a' [c' [Ha' H']]].
    exists a', c'. split; [right; exact Ha'|exact H'].
Qed.

(** Whatever [extract_lowest_price] returns is one of the price texts of
    a node of the page. *)
Lemma extract_lowest_price_Some `{Unicode} `{Html} (html p : str) :
  extract_lowest_price html = Some p ->
  exists c, subtree c (document (html_parser html)) /\ In p (price_matches c).
Proof.
  unfold extract_lowest_price.
  destruct (lowest_by_anchor _ PRICE_TREND_ANCHORS) as [p0|] eqn:El.
  - intros Hr. injection Hr as ->. apply lowest_by_anchor_Some in El.
    destruct El as [a [c [_ [Hc Hp]]]]. exists c.
    split; [eapply anchor_container_subtree; exact Hc|exact Hp].
  - intros Hr. exists (document (html_parser html)). split; [apply subtree_refl|].
    destruct (price_matches _) as [|p0 ps]; [discriminate|].
    injection Hr as ->. left. reflexivity.
Qed.

(** X11.  Every value [extract_lowest_price] returns is read off the
    page: it is the stripped match of the price pattern in a string node
    of the document that holds the euro sign; it ends with the euro sign,
    and [or "N/A"] leaves it unchanged. *)
Theorem lowest_price_comes_from_the_page `{Unicode} `{Html} (html p : str) :
  extract_lowest_price html = Some p ->
  exists s g,
    In s (map snd (all_strings (document (html_parser html)))) /\
    contains EURO s = true /\
    search PRICE_REGEX s = Some g /\
    p = strip g /\
    (exists pre, p = pre ++ [8364]) /\
    or_NA (Some p) = p.
Proof.
  intros Hr. apply extract_lowest_price_Some in Hr. destruct Hr as [c [Hsub Hp]].
  apply price_matches_In in Hp. destruct Hp as [s [g [Hs [He [Hg ->]]]]].
  exists s, g. split; [|split; [exact He|split; [exact Hg|split; [reflexivity|split]]]].
  - apply in_map_iff in Hs. destruct Hs as [cs [<- Hcs]]. apply in_map.
    apply (descendant_strings_subtree c _ Hsub). exact Hcs.
  - destruct (price_match_ends_with_euro s g Hg) as [pre ->].
    apply (strip_keeps_last pre 8364). reflexivity.
  - apply (stripped_price_kept s g Hg).
Qed.

(** The page [<div>from 5,00 € only</div>]. *)
Lemma lowest_price_comes_from_the_page_witness :
  let U := Sample.ascii_unicode in
  let H := Sample.page Sample.loose_price in
  exists s g,
    In s (map snd (all_strings (document (html_parser [])))) /\
    contains EURO s = true /\
    search PRICE_REGEX s = Some g /\
    lit "5,00 €" = strip g /\
    (exists pre, lit "5,00 €" = pre ++ [8364]) /\
    or_NA (Some (lit "5,00 €")) = lit "5,00 €".
Proof.
  intros U H.
  apply (@lowest_price_comes_from_the_page U H [] (lit "5,00 €")).
  vm_compute. reflexivity.
Defined.

(** ** The median price *)

Lemma stripped_strings_In (n : node) (s : str) :
  In s (stripped_strings n) ->
  s <> [] /\ exists t, In t (map snd (descendant_strings n)) /\ s = strip t.
Proof.
  unfold stripped_strings. intros Hin. apply filter_In in Hin. destruct Hin as [Hin Ht].
  split; [intros ->; discriminate|].
  apply in_map_iff in Hin. destruct Hin as [cs [<- Hcs]].
  apply filter_In in Hcs. destruct Hcs as [Hcs _].
  exists (snd cs). split; [apply in_map; exact Hcs|reflexivity].
Qed.

Lemma row_price_Some (row : node) (p : str) :
  row_price row = Some p ->
  exists t, In t (map snd (descendant_strings row)) /\ p = strip t /\
            contains EURO p = true /\ p <> [].
Proof.
  unfold row_price. intros Hhd.
  assert (Hin : In p (map strip (filter (contains EURO) (stripped_strings row)))).
  { destruct (map strip _) as [|x r]; [discriminate|]. injection Hhd as ->.
    left. reflexivity. }
  apply in_map_iff in Hin. destruct Hin as [s [<- Hs]].
  apply filter_In in Hs. destruct Hs as [Hs He].
  apply stripped_strings_In in Hs. destruct Hs as [Hne [t [Ht ->]]].
  rewrite strip_idempotent. exists t. repeat split; assumption.
Qed.

(** X12.  Every value [extract_median_price] returns is read off the
    median row: it is the stripped text of a string node of the row at
    the median index of the offer rows, it holds the euro sign, and
    [or "N/A"] leaves it unchanged.  (Unlike the lowest price it is a
    whole string node and need not match the price pattern.) *)
Theorem median_price_comes_from_the_median_row `{Html} (html p : str) :
  extract_median_price html = Ok (Some p) ->
  exists rows row t,
    offer_rows (document (html_parser html)) = Some rows /\
    nth_error rows (Z.to_nat (median_index (Z.of_nat (length rows)))) = Some row /\
    In t (map snd (descendant_strings row)) /\
    p = strip t /\
    contains EURO p = true /\
    or_NA (Some p) = p.
Proof.
  intros Hr.
  destruct (offer_rows (document (html_parser html))) as [rows|] eqn:Erows;
    [|unfold extract_median_price in Hr; rewrite Erows in Hr; discriminate].
  assert (Hne : rows <> []).
  { intros ->. unfold extract_median_price in Hr. rewrite Erows in Hr. discriminate. }
  destruct (@extract_median_price_rows _ html rows Erows Hne) as [row [Hnth [_ Hx]]].
  rewrite Hx in Hr. injection Hr as Hrow.
  destruct (@median_index_formula _ (@length_pos_of_nonempty _ rows Hne)) as [_ Hm].
  apply row_price_Some in Hrow. destruct Hrow as [t [Ht [Hp [He Hn]]]].
  exists rows, row, t. rewrite Hm.
  repeat split; try assumption.
  unfold or_NA. destruct p; [congruence|reflexivity].
Qed.

(** Three offers: the second row gives [2,50 €]. *)
Lemma median_price_comes_from_the_median_row_witness :
  let H := Sample.page Sample.three_offers in
  exists rows row t,
    offer_rows (document (html_parser [])) = Some rows /\
    nth_error rows (Z.to_nat (median_index (Z.of_nat (length rows)))) = Some row /\
    In t (map snd (descendant_strings row)) /\
    lit "2,50 €" = strip t /\
    contains EURO (lit "2,50 €") = true /\
    or_NA (Some (lit "2,50 €")) = lit "2,50 €".
Proof.
  intros H.
  apply (@median_price_comes_from_the_median_row H [] (lit "2,50 €")).
  vm_compute. reflexivity.
Defined.

End PriceFacts.

(* ===================================================================== *)
(** * Properties of the pipeline and of the route *)
(* ===================================================================== *)

Module ServiceFacts.
Import Py Dict UrlLib Soup Re Net Json App.
Import PyFacts QuoteFacts DictFacts QueryFacts UrlFacts FilterFacts.
Import MedianFacts RouteFacts ExtractFacts LocatorFacts PriceFacts.

(** ** A run of the pipeline that returns *)

(** The steps behind a returned triple. *)
Lemma get_prices_for_query_Ok `{HostChecks} `{Unicode} `{Html} `{Network}
  (card_id : str) (log log' : list str) (l m u : str) :
  get_prices_for_query card_id log = (Ok (l, m, u), log') ->
  exists q product_url median_url r_lowest r_median med,
    quote_plus card_id = Ok q /\
    find_product_url card_id make_session log
      = (Ok product_url, log ++ [SEARCH_BASE ++ q]) /\
    add_filters product_url DEFAULT_FILTERS = Ok u /\
    make_session u = Ok r_lowest /\
    add_filters product_url median_filters = Ok median_url /\
    make_session median_url = Ok r_median /\
    extract_median_price (text r_median) = Ok med /\
    l = or_NA (extract_lowest_price (text r_lowest)) /\
    m = or_NA med /\
    log' = log ++ [SEARCH_BASE ++ q; u; median_url].
Proof.
  unfold get_prices_for_query, iobind, lift, get, ret. cbv zeta.
  destruct (find_product_url card_id make_session log) as [[product_url|e] log1] eqn:Ef;
    [|discriminate].
  destruct (quote_plus card_id) as [q|e] eqn:Hq.
  - pose proof (find_product_url_log card_id q make_session log Hq) as Hlog.
    rewrite Ef in Hlog. cbn [snd] in Hlog. subst log1.
    destruct (add_filters product_url DEFAULT_FILTERS) as [filtered_url|e] eqn:Ha1;
      [|discriminate].
    destruct (make_session filtered_url) as [r_lowest|e] eqn:Hs1; [|discriminate].
    destruct (add_filters product_url median_filters) as [median_url|e] eqn:Ha2;
      [|discriminate].
    destruct (make_session median_url) as [r_median|e] eqn:Hs2; [|discriminate].
    destruct (extract_median_price (text r_median)) as [med|e] eqn:Hm; [|discriminate].
    intros E. injection E as <- <- <- <-.
    exists q, product_url, median_url, r_lowest, r_median, med.
    split; [reflexivity|]. split; [reflexivity|]. split; [exact Ha1|]. split; [exact Hs1|].
    split; [exact Ha2|]. split; [exact Hs2|]. split; [exact Hm|].
    split; [reflexivity|]. split; [reflexivity|].
    rewrite <- !app_assoc. reflexivity.
  - exfalso. unfold find_product_url, iobind, lift in Ef. rewrite Hq in Ef. discriminate.
Qed.

(** X13.  A pipeline run that returns has issued exactly three requests,
    in this order: the search URL of the identifier, the URL the locator
    returned with the default filters, the same URL with the median
    filters; the URL it returns is the second one (the lowest-price
    view), not the median view, and its two prices are read from the
    pages of the second and of the third request. *)
Theorem pipeline_requests `{HostChecks} `{Unicode} `{Html} `{Network}
  (card_id : str) (log log' : list str) (l m u : str) :
  get_prices_for_query card_id log = (Ok (l, m, u), log') ->
  exists q product_url median_url r_lowest r_median med,
    quote_plus card_id = Ok q /\
    find_product_url card_id make_session log
      = (Ok product_url, log ++ [SEARCH_BASE ++ q]) /\
    add_filters product_url DEFAULT_FILTERS = Ok u /\
    make_session u = Ok r_lowest /\
    add_filters product_url median_filters = Ok median_url /\
    make_session median_url = Ok r_median /\
    extract_median_price (text r_median) = Ok med /\
    l = or_NA (extract_lowest_price (text r_lowest)) /\
    m = or_NA med /\
    log' = log ++ [SEARCH_BASE ++ q; u; median_url].
Proof.
  intros Hr. apply get_prices_for_query_Ok in Hr.
  destruct Hr as [q [product_url [median_url [r1 [r2 [med Hr]]]]]].
  exists q, product_url, median_url, r1, r2, med. exact Hr.
Qed.

(** A redirect to a product page that shows no price. *)
Lemma pipeline_requests_witness :
  let HC := Sample.lenient_hosts in
  let U := Sample.ascii_unicode in
  let H := Sample.page Sample.sold_out in
  let NW := Sample.site Sample.product_page Sample.listing in
  exists q product_url median_url r_lowest r_median med,
    quote_plus (lit "Pikachu") = Ok q /\
    find_product_url (lit "Pikachu") make_session []
      = (Ok product_url, [] ++ [SEARCH_BASE ++ q]) /\
    add_filters product_url DEFAULT_FILTERS
      = Ok (lit "https://www.cardmarket.com/fr/Pokemon/Products/Singles/Base-Set/Pikachu?sellerCountry=12&language=2&minCondition=2") /\
    make_session (lit "https://www.cardmarket.com/fr/Pokemon/Products/Singles/Base-Set/Pikachu?sellerCountry=12&language=2&minCondition=2")
      = Ok r_lowest /\
    add_filters product_url median_filters = Ok median_url /\
    make_session median_url = Ok r_median /\
    extract_median_price (text r_median) = Ok med /\
    lit "N/A" = or_NA (extract_lowest_price (text r_lowest)) /\
    lit "N/A" = or_NA med /\
    [ SEARCH_BASE ++ lit "Pikachu";
      lit "https://www.cardmarket.com/fr/Pokemon/Products/Singles/Base-Set/Pikachu?sellerCountry=12&language=2&minCondition=2";
      lit "https://www.cardmarket.com/fr/Pokemon/Products/Singles/Base-Set/Pikachu?sellerCountry=12&sellerType=1&language=2&minCondition=2" ]
    = [] ++ [SEARCH_BASE ++ q;
             lit "https://www.cardmarket.com/fr/Pokemon/Products/Singles/Base-Set/Pikachu?sellerCountry=12&language=2&minCondition=2";
             median_url].
Proof.
  intros HC U H NW.
  apply (@pipeline_requests HC U H NW (lit "Pikachu") [] _ (lit "N/A") (lit "N/A")).
  vm_compute. reflexivity.
Defined.

(** ** The two price fields *)

Lemma lowest_field_shape `{Unicode} `{Html} (html : str) :
  or_NA (extract_lowest_price html) = lit "N/A" \/
  exists pre, or_NA (extract_lowest_price html) = pre ++ [8364].
Proof.
  destruct (extract_lowest_price html) as [p|] eqn:E; [|left; reflexivity].
  right. apply extract_lowest_price_Some in E. destruct E as [c [_ Hp]].
  apply price_matches_In in Hp. destruct Hp as [s [g [_ [_ [Hg ->]]]]].
  destruct (stripped_price_kept s g Hg) as [-> _].
  destruct (price_match_ends_with_euro s g Hg) as [pre ->].
  apply (strip_keeps_last pre 8364). reflexivity.
Qed.

Lemma extract_median_price_Some `{Html} (html p : str) :
  extract_median_price html = Ok (Some p) -> exists row, row_price row = Some p.
Proof.
  unfold extract_median_price.
  destruct (offer_rows _) as [[|r0 rs]|]; try discriminate.
  destruct (index _ _) as [row|e]; cbn [bind]; [|discriminate].
  intros E. injection E as E. exists row. exact E.
Qed.

Lemma median_field_shape `{Html} (html : str) (med : option str) :
  extract_median_price html = Ok med ->
  or_NA med = lit "N/A" \/ contains EURO (or_NA med) = true.
Proof.
  destruct med as [p|]; [|left; reflexivity].
  intros E. right. apply extract_median_price_Some in E. destruct E as [row Hrow].
  apply row_price_Some in Hrow. destruct Hrow as [t [_ [_ [He Hne]]]].
  unfold or_NA. destruct p; [congruence|exact He].
Qed.

Lemma or_NA_nonempty (x : option str) : or_NA x <> [].
Proof.
  destruct x as [[|c t]|]; cbn [or_NA Py.truthy]; try discriminate;
    rewrite lit_NA; discriminate.
Qed.

Lemma price_fields_shape `{HostChecks} `{Unicode} `{Html} `{Network}
  (card_id : str) (log log' : list str) (l m u : str) :
  get_prices_for_query card_id log = (Ok (l, m, u), log') -> l <> [] /\ m <> [].
Proof.
  intros Hr. apply get_prices_for_query_Ok in Hr.
  destruct Hr as [q [product_url [median_url [r1 [r2 [med
    [_ [_ [_ [_ [_ [_ [_ [-> [-> _]]]]]]]]]]]]]]].
  split; apply or_NA_nonempty.
Qed.

(** X14.  In every triple the pipeline returns, the lowest field is the
    sentinel ["N/A"] or a text that ends with the euro sign, the median
    field is the sentinel or a text that holds the euro sign, and neither
    is empty. *)
Theorem price_fields_are_sentinel_or_price `{HostChecks} `{Unicode} `{Html} `{Network}
  (card_id : str) (log log' : list str) (l m u : str) :
  get_prices_for_query card_id log = (Ok (l, m, u), log') ->
  (l = lit "N/A" \/ exists pre, l = pre ++ [8364]) /\
  (m = lit "N/A" \/ contains EURO m = true) /\
  l <> [] /\ m <> [].
Proof.
  intros Hr. apply get_prices_for_query_Ok in Hr.
  destruct Hr as [q [product_url [median_url [r1 [r2 [med
    [_ [_ [_ [_ [_ [_ [Hm [-> [-> _]]]]]]]]]]]]]]].
  split; [apply lowest_field_shape|].
  split; [apply (median_field_shape _ _ Hm)|].
  split; apply or_NA_nonempty.
Qed.

(** A redirect to a product page that shows no price. *)
Lemma price_fields_are_sentinel_or_price_witness :
  (lit "N/A" = lit "N/A" \/ exists pre, lit "N/A" = pre ++ [8364]) /\
  (lit "N/A" = lit "N/A" \/ contains EURO (lit "N/A") = true) /\
  lit "N/A" <> [] /\ lit "N/A" <> [].
Proof.
  apply (@price_fields_are_sentinel_or_price Sample.lenient_hosts Sample.ascii_unicode
           (Sample.page Sample.sold_out) (Sample.site Sample.product_page Sample.listing)
           (lit "Pikachu") []
           [ SEARCH_BASE ++ lit "Pikachu";
             lit "https://www.cardmarket.com/fr/Pokemon/Products/Singles/Base-Set/Pikachu?sellerCountry=12&language=2&minCondition=2";
             lit "https://www.cardmarket.com/fr/Pokemon/Products/Singles/Base-Set/Pikachu?sellerCountry=12&sellerType=1&language=2&minCondition=2" ]
           (lit "N/A") (lit "N/A")
           (lit "https://www.cardmarket.com/fr/Pokemon/Products/Singles/Base-Set/Pikachu?sellerCountry=12&language=2&minCondition=2")).
  vm_compute. reflexivity.
Defined.

(** ** The two filtered URLs *)







End ServiceFacts.

(* ===================================================================== *)
(** * Properties of the endpoint /getPrices *)
(* ===================================================================== *)

Module EndpointFacts.
Import Py Dict UrlLib Soup Re Net Json App.
Import PyFacts QuoteFacts RouteFacts LocatorFacts ServiceFacts.

(** The body of the answer to a request without a usable query. *)
Abbreviation MISSING := (JObj [(lit "error", JStr (lit "Missing 'query' field"))]).

(** The call the view makes inside [try]. *)
Definition pipeline_call `{HostChecks} `{Unicode} `{Html} `{Network} (query : json)
  : io (str * str * str) :=
  match query with
  | JStr card_id => get_prices_for_query card_id
  | _ => throw (TypeError (lit "quote_from_bytes() expected bytes"))
  end.

(** The view, by the truth value of the query and the outcome of the
    pipeline. *)
Lemma get_prices_run `{HostChecks} `{Unicode} `{Html} `{Network}
  (d : list (str * json)) (log : list str) :
  get_prices (JObj d) log =
  if Json.truthy (member (lit "query") d) then
    match pipeline_call (member (lit "query") d) log with
    | (Ok (l, m, u), log') =>
      (Ok (mkHttp 200 (JObj [ (lit "lowest", JStr l); (lit "median", JStr m);
                              (lit "url", JStr u) ])), log')
    | (Raise e, log') =>
      if is_Exception e
      then (Ok (mkHttp 500 (JObj [(lit "error", JStr (str_of_exn e))])), log')
      else (Raise e, log')
    end
  else (Ok (mkHttp 400 MISSING), log).
Proof.
  unfold get_prices, iobind at 1, ret at 1.
  destruct (Json.truthy (member (lit "query") d)); cbn [negb]; [|reflexivity].
  unfold try_except, iobind, pipeline_call, ret.
  destruct (member (lit "query") d);
    try reflexivity.
  destruct (get_prices_for_query s log) as [[[[l m] u]|e] log']; reflexivity.
Qed.

(** X16.  A request whose query is falsy (absent, [null], the empty
    string, [0], [false], an empty list or object) is answered with
    status 400 and the body {"error": "Missing 'query' field"} without
    any request being issued; and status 400 is the answer to such
    requests only. *)
Theorem status_400_iff_falsy_query `{HostChecks} `{Unicode} `{Html} `{Network}
  (d : list (str * json)) (log : list str) :
  (Json.truthy (member (lit "query") d) = false ->
   get_prices (JObj d) log = (Ok (mkHttp 400 MISSING), log)) /\
  (forall resp log',
     get_prices (JObj d) log = (Ok resp, log') -> status resp = 400%Z ->
     Json.truthy (member (lit "query") d) = false).
Proof.
  rewrite get_prices_run. split.
  - intros ->. reflexivity.
  - intros resp log'. destruct (Json.truthy (member (lit "query") d)); [|reflexivity].
    destruct (pipeline_call _ log) as [[[[l m] u]|e] log1].
    + intros E. injection E as <- _. cbn [status]. discriminate.
    + destruct (is_Exception e); [|discriminate].
      intros E. injection E as <- _. cbn [status]. discriminate.
Qed.

(** X17.  A query that is truthy but no string (a number, [true], a
    non-empty list or object) makes [quote_plus] raise [TypeError] before
    any request; the answer is status 500 with the message of the
    exception. *)
Theorem non_string_query_gives_500 `{HostChecks} `{Unicode} `{Html} `{Network}
  (d : list (str * json)) (log : list str) :
  Json.truthy (member (lit "query") d) = true ->
  (forall s, member (lit "query") d <> JStr s) ->
  get_prices (JObj d) log =
    (Ok (mkHttp 500 (JObj [(lit "error",
                            JStr (lit "quote_from_bytes() expected bytes"))])), log).
Proof.
  intros Ht Hs. rewrite get_prices_run, Ht. unfold pipeline_call, throw.
  destruct (member (lit "query") d) as [|b|z|s|l|o]; try reflexivity.
  exfalso. exact (Hs s eq_refl).
Qed.

(** The request [{"query": 5}]. *)
Lemma non_string_query_gives_500_witness :
  @get_prices Sample.lenient_hosts Sample.ascii_unicode (Sample.page [])
    (Sample.always Sample.product_page) (JObj [(lit "query", JNum 5)]) [] =
  (Ok (mkHttp 500 (JObj [(lit "error",
                          JStr (lit "quote_from_bytes() expected bytes"))])), []).
Proof.
  apply (@non_string_query_gives_500 Sample.lenient_hosts Sample.ascii_unicode
           (Sample.page []) (Sample.always Sample.product_page)
           [(lit "query", JNum 5)] []).
  - vm_compute. reflexivity.
  - intros s. vm_compute. discriminate.
Defined.

(** X18.  A body that is no JSON object ([null], a list, a string, a
    number) makes [data.get] raise [AttributeError] before the [try]
    statement is entered: the exception leaves the view, no response is
    built and no request is issued. *)
Theorem non_object_body_escapes `{HostChecks} `{Unicode} `{Html} `{Network}
  (data : json) (log : list str) :
  (forall d, data <> JObj d) ->
  exists msg, get_prices data log = (Raise (AttributeError msg), log).
Proof.
  intros Hd. exists (lit "object has no attribute 'get'").
  destruct data as [|b|z|s|l|o]; try reflexivity.
  exfalso. exact (Hd o eq_refl).
Qed.

(** The body [null]. *)
Lemma non_object_body_escapes_witness :
  exists msg,
    @get_prices Sample.lenient_hosts Sample.ascii_unicode (Sample.page [])
      (Sample.always Sample.product_page) JNull [] = (Raise (AttributeError msg), []).
Proof.
  apply (@non_object_body_escapes Sample.lenient_hosts Sample.ascii_unicode
           (Sample.page []) (Sample.always Sample.product_page) JNull []).
  intros d. discriminate.
Defined.

Lemma truthy_JStr (s : str) : s <> [] -> Json.truthy (JStr s) = true.
Proof. destruct s; [congruence|reflexivity]. Qed.

(** The view when the locator raises. *)
Lemma locator_failure `{HostChecks} `{Unicode} `{Html} `{Network}
  (d : list (str * json)) (card_id : str) (e : exn) (log log' : list str) :
  member (lit "query") d = JStr card_id -> card_id <> [] ->
  find_product_url card_id make_session log = (Raise e, log') ->
  is_Exception e = true ->
  get_prices (JObj d) log =
    (Ok (mkHttp 500 (JObj [(lit "error", JStr (str_of_exn e))])), log').
Proof.
  intros Hm Hne Hf He. rewrite get_prices_run, Hm, (truthy_JStr card_id Hne).
  unfold pipeline_call, get_prices_for_query, iobind. rewrite Hf, He. reflexivity.
Qed.

(** X19.  A search request that fails in the transport (the session
    raises an exception of class [Exception]) is answered with status 500
    and the message of the exception; the search request is the only one
    issued. *)
Theorem transport_failure_gives_500 `{HostChecks} `{Unicode} `{Html} `{Network}
  (d : list (str * json)) (card_id q : str) (e : exn) (log : list str) :
  member (lit "query") d = JStr card_id -> card_id <> [] ->
  quote_plus card_id = Ok q ->
  make_session (SEARCH_BASE ++ q) = Raise e ->
  is_Exception e = true ->
  get_prices (JObj d) log =
    (Ok (mkHttp 500 (JObj [(lit "error", JStr (str_of_exn e))])),
     log ++ [SEARCH_BASE ++ q]).
Proof.
  intros Hm Hne Hq Hs He. apply (locator_failure d card_id e log _ Hm Hne); [|exact He].
  unfold find_product_url, iobind, lift, get. rewrite Hq, Hs. reflexivity.
Qed.

(** A session whose requests time out. *)
Lemma transport_failure_gives_500_witness :
  @get_prices Sample.lenient_hosts Sample.ascii_unicode (Sample.page [])
    {| make_session := fun _ => Raise (RequestException (lit "Read timed out.")) |}
    (Sample.query_body "Pikachu") [] =
  (Ok (mkHttp 500 (JObj [(lit "error",
                          JStr (str_of_exn (RequestException (lit "Read timed out."))))])),
   [] ++ [SEARCH_BASE ++ lit "Pikachu"]).
Proof.
  apply (@transport_failure_gives_500 Sample.lenient_hosts Sample.ascii_unicode
           (Sample.page [])
           {| make_session := fun _ => Raise (RequestException (lit "Read timed out.")) |}
           [(lit "query", JStr (lit "Pikachu"))] (lit "Pikachu") (lit "Pikachu")
           (RequestException (lit "Read timed out.")) []).
  - vm_compute. reflexivity.
  - vm_compute. discriminate.
  - vm_compute. reflexivity.
  - reflexivity.
  - reflexivity.
Defined.

Lemma raise_for_status_error (r : response) :
  (400 <= status_code r < 600)%Z ->
  exists msg, raise_for_status r = Raise (HTTPError msg) /\ exists pre, msg = pre ++ url r.
Proof.
  intros Hs. unfold raise_for_status.
  destruct (Z.leb_spec 400 (status_code r)); [|lia].
  destruct (Z.ltb_spec (status_code r) 500); cbn [andb].
  - eexists. split; [reflexivity|]. eexists. rewrite !app_assoc. reflexivity.
  - destruct (Z.leb_spec 500 (status_code r)); [|lia].
    destruct (Z.ltb_spec (status_code r) 600); [|lia]. cbn [andb].
    eexists. split; [reflexivity|]. eexists. rewrite !app_assoc. reflexivity.
Qed.

(** X20.  A search answered with an error status other than 403 (400 to
    599), on a final URL without the product marker, makes the locator
    raise [HTTPError] with a message that ends with the final URL; unlike
    the 403 case the route answers it with status 500 and this message. *)
Theorem error_status_gives_500 `{HostChecks} `{Unicode} `{Html} `{Network}
  (d : list (str * json)) (card_id q : str) (r : response) (log : list str) :
  member (lit "query") d = JStr card_id -> card_id <> [] ->
  quote_plus card_id = Ok q ->
  make_session (SEARCH_BASE ++ q) = Ok r ->
  contains PRODUCT_PATH (url r) = false ->
  status_code r <> 403%Z ->
  (400 <= status_code r < 600)%Z ->
  exists msg,
    (exists pre, msg = pre ++ url r) /\
    find_product_url card_id make_session log =
      (Raise (HTTPError msg), log ++ [SEARCH_BASE ++ q]) /\
    get_prices (JObj d) log =
      (Ok (mkHttp 500 (JObj [(lit "error", JStr msg)])), log ++ [SEARCH_BASE ++ q]).
Proof.
  intros Hm Hne Hq Hs Hc H403 Hst.
  destruct (raise_for_status_error r Hst) as [msg [Hr Hmsg]].
  exists msg. split; [exact Hmsg|].
  assert (Hf : find_product_url card_id make_session log =
               (Raise (HTTPError msg), log ++ [SEARCH_BASE ++ q])).
  { unfold find_product_url, iobind, lift, get, throw.
    apply Z.eqb_neq in H403. rewrite Hq, Hs, Hc, H403, Hr. reflexivity. }
  split; [exact Hf|].
  apply (locator_failure d card_id (HTTPError msg) log _ Hm Hne Hf). reflexivity.
Qed.

(** A search answered with status 503. *)
Lemma error_status_gives_500_witness :
  let r := mkResponse (lit "https://www.cardmarket.com/fr/Pokemon/Products/Search")
                      503 (lit "Service Unavailable") [] in
  exists msg,
    (exists pre, msg = pre ++ url r) /\
    @find_product_url (Sample.page []) (lit "Pikachu") (fun _ => Ok r) [] =
      (Raise (HTTPError msg), [] ++ [SEARCH_BASE ++ lit "Pikachu"]) /\
    @get_prices Sample.lenient_hosts Sample.ascii_unicode (Sample.page [])
      (Sample.always r) (Sample.query_body "Pikachu") [] =
      (Ok (mkHttp 500 (JObj [(lit "error", JStr msg)])), [] ++ [SEARCH_BASE ++ lit "Pikachu"]).
Proof.
  intros r.
  apply (@error_status_gives_500 Sample.lenient_hosts Sample.ascii_unicode
           (Sample.page []) (Sample.always r)
           [(lit "query", JStr (lit "Pikachu"))] (lit "Pikachu") (lit "Pikachu") r []).
  - vm_compute. reflexivity.
  - vm_compute. discriminate.
  - vm_compute. reflexivity.
  - reflexivity.
  - vm_compute. reflexivity.
  - vm_compute. discriminate.
  - split; [vm_compute; discriminate|vm_compute; reflexivity].
Defined.

(** X21.  An identifier that has no UTF-8 encoding (it holds a lone
    surrogate) is answered with status 500 before any request is
    issued. *)
Theorem unencodable_query_gives_500 `{HostChecks} `{Unicode} `{Html} `{Network}
  (d : list (str * json)) (card_id : str) (log : list str) :
  member (lit "query") d = JStr card_id ->
  Utf8.encode card_id = None ->
  exists msg,
    get_prices (JObj d) log = (Ok (mkHttp 500 (JObj [(lit "error", JStr msg)])), log).
Proof.
  intros Hm He.
  assert (Hne : card_id <> []) by (intros E; rewrite E in He; discriminate He).
  exists (str_of_exn UnicodeEncodeError).
  apply (locator_failure d card_id UnicodeEncodeError log log Hm Hne); [|reflexivity].
  unfold find_product_url, iobind, lift, quote_plus. rewrite He. reflexivity.
Qed.

(** The identifier made of the surrogate U+D800. *)
Lemma unencodable_query_gives_500_witness :
  exists msg,
    @get_prices Sample.lenient_hosts Sample.ascii_unicode (Sample.page [])
      (Sample.always Sample.product_page) (JObj [(lit "query", JStr [55296])]) []
    = (Ok (mkHttp 500 (JObj [(lit "error", JStr msg)])), []).
Proof.
  apply (@unencodable_query_gives_500 Sample.lenient_hosts Sample.ascii_unicode
           (Sample.page []) (Sample.always Sample.product_page)
           [(lit "query", JStr [55296])] [55296] []).
  - vm_compute. reflexivity.
  - vm_compute. reflexivity.
Defined.

(** X22.  Whenever the view returns a response, it is one of three: 200
    with the members [lowest], [median] and [url], the two prices not
    empty; 400 with the missing-field message and no request issued; 500
    with a member [error]. *)
Theorem route_answers `{HostChecks} `{Unicode} `{Html} `{Network}
  (data : json) (log log' : list str) (resp : http_response) :
  get_prices data log = (Ok resp, log') ->
  (status resp = 200%Z /\
   exists l m u,
     body resp = JObj [ (lit "lowest", JStr l); (lit "median", JStr m);
                        (lit "url", JStr u) ] /\
     l <> [] /\ m <> []) \/
  (status resp = 400%Z /\ body resp = MISSING /\ log' = log) \/
  (status resp = 500%Z /\ exists msg, body resp = JObj [(lit "error", JStr msg)]).
Proof.
  destruct data as [|b|z|s|l|d]; try discriminate.
  rewrite get_prices_run.
  destruct (Json.truthy (member (lit "query") d)).
  - destruct (pipeline_call (member (lit "query") d) log) as [[[[l m] u]|e] log1] eqn:Ep.
    + intros E. injection E as <- <-. left. split; [reflexivity|].
      exists l, m, u. split; [reflexivity|].
      unfold pipeline_call, throw in Ep.
      destruct (member (lit "query") d) as [|b|z|card_id|a|o]; try discriminate.
      assert (Hfields := price_fields_shape card_id log log1 l m u Ep).
      exact Hfields.
    + destruct (is_Exception e); [|discriminate].
      intros E. injection E as <- <-. right. right. split; [reflexivity|].
      exists (str_of_exn e). reflexivity.
  - intros E. injection E as <- <-. right. left. repeat split.
Qed.

(** The request [{"query": ""}]. *)
Lemma route_answers_witness :
  let resp := mkHttp 400 MISSING in
  (status resp = 200%Z /\
   exists l m u,
     body resp = JObj [ (lit "lowest", JStr l); (lit "median", JStr m);
                        (lit "url", JStr u) ] /\
     l <> [] /\ m <> []) \/
  (status resp = 400%Z /\ body resp = MISSING /\ @nil str = []) \/
  (status resp = 500%Z /\ exists msg, body resp = JObj [(lit "error", JStr msg)]).
Proof.
  intros resp.
  apply (@route_answers Sample.lenient_hosts Sample.ascii_unicode (Sample.page [])
           (Sample.always Sample.product_page) (Sample.query_body "") [] [] resp).
  vm_compute. reflexivity.
Defined.

End EndpointFacts.

(* ===================================================================== *)
(** * Round trips of the URL functions the filter composer calls *)
(* ===================================================================== *)

Module CodecFacts.
Import Py Dict UrlLib App PyFacts QuoteFacts DictFacts QueryFacts UrlFacts.

Lemma urlparse_query `{HostChecks} (url : str) (p : ParseResult) :
  urlparse url = Ok p -> clean (query p) /\ ~ In 35 (query p).
Proof.
  rewrite urlparse_unfold.
  destruct (urlsplit url) as [r|e] eqn:Eu; cbn [bind]; [|discriminate].
  destruct (param_split (s_scheme r) (s_path r)) as [pth prm].
  intros E. injection E as <-. cbn [query].
  apply urlsplit_wf in Eu. split; [apply Eu|apply Eu].
Qed.

(** X23.  [urlunparse] undoes [urlparse] on the components of a URL with
    a host: the six components [add_filters] reads from a URL, written
    back unchanged, parse into the same six components. *)
Theorem urlparse_urlunparse_same `{HostChecks} (url : str) (p : ParseResult) :
  urlparse url = Ok p -> netloc p <> [] ->
  urlparse (urlunparse p) = Ok p.
Proof.
  intros Hp Hne. destruct (urlparse_query url p Hp) as [Hc H35].
  pose proof (urlparse_urlunparse url p (query p) Hp Hne Hc H35) as E.
  destruct p. exact E.
Qed.

(** The URL [HTTP://h/a;x?q=1#f]. *)
Lemma urlparse_urlunparse_same_witness :
  @urlparse Sample.lenient_hosts
    (urlunparse (mkParseResult (lit "http") (lit "h") (lit "/a") (lit "x")
                               (lit "q=1") (lit "f")))
  = Ok (mkParseResult (lit "http") (lit "h") (lit "/a") (lit "x") (lit "q=1") (lit "f")).
Proof.
  apply (@urlparse_urlunparse_same Sample.lenient_hosts (lit "HTTP://h/a;x?q=1#f")).
  - vm_compute. reflexivity.
  - vm_compute. discriminate.
Defined.

(** X24.  [parse_qs] undoes [urlencode(..., doseq=True)]: for a
    dictionary of value lists in which no list is empty and no value is
    blank, the query string [urlencode] writes reads back, with
    [parse_qsl], as the pairs of the dictionary in order, and [parse_qs]
    of it is the dictionary itself. *)
Theorem urlencode_parse_qs (d : dict (list str)) (q : str) :
  NoDup (keys d) -> well_valued d ->
  urlencode d = Ok q ->
  parse_qsl q true = flatten d /\ parse_qs q = d.
Proof.
  intros Hnd Hwv Hq. split.
  - rewrite (parse_qsl_urlencode d q true Hq).
    apply forallb_filter_id. apply forallb_forall. intros kv _. apply orb_true_r.
  - apply (parse_qs_urlencode d q Hnd Hwv Hq).
Qed.

(** The dictionary {"a b": ["1", "é"], "c": ["&"]}. *)
Lemma urlencode_parse_qs_witness :
  parse_qsl (lit "a+b=1&a+b=%C3%A9&c=%26") true
    = flatten [(lit "a b", [lit "1"; lit "é"]); (lit "c", [lit "&"])] /\
  parse_qs (lit "a+b=1&a+b=%C3%A9&c=%26")
    = [(lit "a b", [lit "1"; lit "é"]); (lit "c", [lit "&"])].
Proof.
  apply (urlencode_parse_qs [(lit "a b", [lit "1"; lit "é"]); (lit "c", [lit "&"])]).
  - cbn [keys map fst].
    repeat (constructor; [intros Hin; apply str_in_In in Hin; vm_compute in Hin; discriminate|]).
    constructor.
  - repeat constructor; vm_compute; discriminate.
  - vm_compute. reflexivity.
Defined.

End CodecFacts.
